(** * libresponse: the non-orthogonal linear-response driver

    A shallow embedding of [libresponse::solve_linear_response]
    (src/linear/interface_nonorthogonal.C) and the properties of its
    orchestration: input validation, fragment-restricted index sets,
    energy-difference operators, checkpoint files, the frequency loop
    and the combination of the spin channels.

    The routine is written against Armadillo and against collaborators
    of the library that live in other translation units
    (operator_spec, the index builders, form_ediff_terms, form_results,
    the iterative solver).  Those are the [Variable]s of the section
    [Driver]; everything the routine itself decides is a definition. *)

From Stdlib Require Import ZArith String PrimFloat.
From stdpp Require Import base list strings gmap.

Open Scope string_scope.
Open Scope Z_scope.

(** ** Unsigned 64-bit arithmetic ([size_t], [arma::uword]) *)

Definition uword_modulus : Z := 2 ^ 64.

Definition wrap (z : Z) : Z := z mod uword_modulus.

Definition uadd (a b : Z) : Z := wrap (a + b).
Definition usub (a b : Z) : Z := wrap (a - b).
Definition umul (a b : Z) : Z := wrap (a * b).

(** [arma::uvec]: a column of [uword]s; [arma::umat]: stored column by
    column, as Armadillo does. *)
Definition uvec : Type := list Z.
Definition umat : Type := list uvec.

(** ** Failures

    A C++ exception leaves the routine with whatever had been written so
    far; a failed [assert] aborts the process. *)

Inductive failure : Type :=
| runtime_error (what : string)
| logic_error (what : string)
| out_of_range
| assertion_failed (expr : string).

#[global] Instance failure_eq_dec : EqDecision failure.
Proof. solve_decision. Defined.

Inductive result (A : Type) : Type :=
| Ok (a : A)
| Fail (e : failure).
Arguments Ok {A} a.
Arguments Fail {A} e.

(** ** Configuration

    Modelled from the spec: configurable.C is not part of the driver; the
    record has one typed field per key the driver reads (section 6 of the
    specification), and [cfg_prefix] is [None] when [has_param("prefix")]
    is false. *)

Record configurable : Type := {
  cfg_print_level : Z;
  cfg_solver : string;
  cfg_maxiter : Z;
  cfg_conv : Z;
  cfg_hamiltonian : string;
  cfg_spin : string;
  cfg_do_orthogonalization_canonical : bool;
  cfg_frgm_response_idx : Z;
  cfg_mask_ediff_mo : bool;
  cfg_mask_form_results_mo : bool;
  cfg_save : Z;
  cfg_read : Z;
  cfg_prefix : option string
}.

Definition with_print_level (pl : Z) (cfg : configurable) : configurable :=
  {| cfg_print_level := pl;
     cfg_solver := cfg_solver cfg;
     cfg_maxiter := cfg_maxiter cfg;
     cfg_conv := cfg_conv cfg;
     cfg_hamiltonian := cfg_hamiltonian cfg;
     cfg_spin := cfg_spin cfg;
     cfg_do_orthogonalization_canonical := cfg_do_orthogonalization_canonical cfg;
     cfg_frgm_response_idx := cfg_frgm_response_idx cfg;
     cfg_mask_ediff_mo := cfg_mask_ediff_mo cfg;
     cfg_mask_form_results_mo := cfg_mask_form_results_mo cfg;
     cfg_save := cfg_save cfg;
     cfg_read := cfg_read cfg;
     cfg_prefix := cfg_prefix cfg |}.

Definition with_orthogonalization_canonical (b : bool) (cfg : configurable)
  : configurable :=
  {| cfg_print_level := cfg_print_level cfg;
     cfg_solver := cfg_solver cfg;
     cfg_maxiter := cfg_maxiter cfg;
     cfg_conv := cfg_conv cfg;
     cfg_hamiltonian := cfg_hamiltonian cfg;
     cfg_spin := cfg_spin cfg;
     cfg_do_orthogonalization_canonical := b;
     cfg_frgm_response_idx := cfg_frgm_response_idx cfg;
     cfg_mask_ediff_mo := cfg_mask_ediff_mo cfg;
     cfg_mask_form_results_mo := cfg_mask_form_results_mo cfg;
     cfg_save := cfg_save cfg;
     cfg_read := cfg_read cfg;
     cfg_prefix := cfg_prefix cfg |}.

Definition with_frgm_response_idx (k : Z) (cfg : configurable) : configurable :=
  {| cfg_print_level := cfg_print_level cfg;
     cfg_solver := cfg_solver cfg;
     cfg_maxiter := cfg_maxiter cfg;
     cfg_conv := cfg_conv cfg;
     cfg_hamiltonian := cfg_hamiltonian cfg;
     cfg_spin := cfg_spin cfg;
     cfg_do_orthogonalization_canonical := cfg_do_orthogonalization_canonical cfg;
     cfg_frgm_response_idx := k;
     cfg_mask_ediff_mo := cfg_mask_ediff_mo cfg;
     cfg_mask_form_results_mo := cfg_mask_form_results_mo cfg;
     cfg_save := cfg_save cfg;
     cfg_read := cfg_read cfg;
     cfg_prefix := cfg_prefix cfg |}.

Definition with_save (k : Z) (cfg : configurable) : configurable :=
  {| cfg_print_level := cfg_print_level cfg;
     cfg_solver := cfg_solver cfg;
     cfg_maxiter := cfg_maxiter cfg;
     cfg_conv := cfg_conv cfg;
     cfg_hamiltonian := cfg_hamiltonian cfg;
     cfg_spin := cfg_spin cfg;
     cfg_do_orthogonalization_canonical := cfg_do_orthogonalization_canonical cfg;
     cfg_frgm_response_idx := cfg_frgm_response_idx cfg;
     cfg_mask_ediff_mo := cfg_mask_ediff_mo cfg;
     cfg_mask_form_results_mo := cfg_mask_form_results_mo cfg;
     cfg_save := k;
     cfg_read := cfg_read cfg;
     cfg_prefix := cfg_prefix cfg |}.

Definition with_read (k : Z) (cfg : configurable) : configurable :=
  {| cfg_print_level := cfg_print_level cfg;
     cfg_solver := cfg_solver cfg;
     cfg_maxiter := cfg_maxiter cfg;
     cfg_conv := cfg_conv cfg;
     cfg_hamiltonian := cfg_hamiltonian cfg;
     cfg_spin := cfg_spin cfg;
     cfg_do_orthogonalization_canonical := cfg_do_orthogonalization_canonical cfg;
     cfg_frgm_response_idx := cfg_frgm_response_idx cfg;
     cfg_mask_ediff_mo := cfg_mask_ediff_mo cfg;
     cfg_mask_form_results_mo := cfg_mask_form_results_mo cfg;
     cfg_save := cfg_save cfg;
     cfg_read := k;
     cfg_prefix := cfg_prefix cfg |}.

Definition with_prefix (p : string) (cfg : configurable) : configurable :=
  {| cfg_print_level := cfg_print_level cfg;
     cfg_solver := cfg_solver cfg;
     cfg_maxiter := cfg_maxiter cfg;
     cfg_conv := cfg_conv cfg;
     cfg_hamiltonian := cfg_hamiltonian cfg;
     cfg_spin := cfg_spin cfg;
     cfg_do_orthogonalization_canonical := cfg_do_orthogonalization_canonical cfg;
     cfg_frgm_response_idx := cfg_frgm_response_idx cfg;
     cfg_mask_ediff_mo := cfg_mask_ediff_mo cfg;
     cfg_mask_form_results_mo := cfg_mask_form_results_mo cfg;
     cfg_save := cfg_save cfg;
     cfg_read := cfg_read cfg;
     cfg_prefix := Some p |}.

(** ** Dense data

    [arma::mat] is a list of columns and [arma::cube] a list of slices,
    over the scalar type standing for [double]. *)

Section Dense.

Context {scalar : Type}.

Definition mat : Type := list (list scalar).
Definition cube : Type := list mat.

Definition mat_n_cols (m : mat) : nat := length m.
Definition mat_n_rows (m : mat) : nat :=
  match m with
  | [] => 0%nat
  | c :: _ => length c
  end.

Definition cube_n_slices (c : cube) : nat := length c.
Definition cube_n_cols (c : cube) : nat :=
  match c with
  | [] => 0%nat
  | m :: _ => mat_n_cols m
  end.

(** Storage as the constructors [mat(r, c)] and [cube(r, c, s)] leave
    it; [fill] is whatever the allocation holds. *)
Definition mat_new (fill : scalar) (r c : nat) : mat :=
  replicate c (replicate r fill).
Definition cube_new (fill : scalar) (r c s : nat) : cube :=
  replicate s (mat_new fill r c).

Definition same_size (a b : mat) : bool :=
  bool_decide (mat_n_rows a = mat_n_rows b)
  && bool_decide (mat_n_cols a = mat_n_cols b).

Variable sadd smul : scalar → scalar → scalar.

Definition mat_add (a b : mat) : mat := zip_with (zip_with sadd) a b.
Definition mat_scale (k : scalar) (a : mat) : mat := map (map (smul k)) a.
Definition cube_add (a b : cube) : cube := zip_with mat_add a b.
Definition cube_scale (k : scalar) (a : cube) : cube := map (mat_scale k) a.

End Dense.

Arguments mat : clear implicits.
Arguments cube : clear implicits.

(** ** Operators and files *)

Record operator_metadata : Type := { operator_label : string }.

(** [metadata], [integrals_ao], [do_response] and the two response-vector
    cubes are the members the driver touches.  Modelled from the spec:
    the gradient vectors [rhsvecs_alph], [rhsvecs_beta] and the index
    sets kept by [init_indices] are the remaining parts of the operator
    descriptor of section 3 (operator_spec.h is not part of the driver). *)
Record operator_spec (scalar : Type) : Type := {
  metadata : operator_metadata;
  integrals_ao : cube scalar;
  do_response : bool;
  rhsvecs_alph : cube scalar;
  rhsvecs_beta : cube scalar;
  rspvecs_alph : cube scalar;
  rspvecs_beta : cube scalar;
  op_indices_mo : list uvec
}.
Arguments metadata {scalar} _.
Arguments integrals_ao {scalar} _.
Arguments do_response {scalar} _.
Arguments rhsvecs_alph {scalar} _.
Arguments rhsvecs_beta {scalar} _.
Arguments rspvecs_alph {scalar} _.
Arguments rspvecs_beta {scalar} _.
Arguments op_indices_mo {scalar} _.

Definition set_rspvecs_alph {scalar} (v : cube scalar) (op : operator_spec scalar)
  : operator_spec scalar :=
  {| metadata := metadata op; integrals_ao := integrals_ao op;
     do_response := do_response op;
     rhsvecs_alph := rhsvecs_alph op; rhsvecs_beta := rhsvecs_beta op;
     rspvecs_alph := v; rspvecs_beta := rspvecs_beta op;
     op_indices_mo := op_indices_mo op |}.

Definition set_rspvecs_beta {scalar} (v : cube scalar) (op : operator_spec scalar)
  : operator_spec scalar :=
  {| metadata := metadata op; integrals_ao := integrals_ao op;
     do_response := do_response op;
     rhsvecs_alph := rhsvecs_alph op; rhsvecs_beta := rhsvecs_beta op;
     rspvecs_alph := rspvecs_alph op; rspvecs_beta := v;
     op_indices_mo := op_indices_mo op |}.

(** A file written by [save(name, arma::arma_ascii)]: the header says
    whether it holds a matrix or a cube. *)
Inductive blob (scalar : Type) : Type :=
| blob_mat (m : mat scalar)
| blob_cube (c : cube scalar).
Arguments blob_mat {scalar} m.
Arguments blob_cube {scalar} c.

(** A file opened by the driver itself, by [save] or by [load]. *)
Inductive file_access : Type :=
| file_written (name : string)
| file_read (name : string).

(** What the driver writes to standard output, one item per statement. *)
Inductive printed (scalar : Type) : Type :=
| pr_settings (nocc_alph nvirt_alph nocc_beta nvirt_beta nov_alph nov_beta : Z)
              (hamiltonian spin : string) (maxiter conv : Z)
              (omega : list scalar)
| pr_mat (name : string) (m : mat scalar)
| pr_uvec (name : string) (v : uvec)
| pr_uncoupled (m : mat scalar) (operator_labels component_labels : list string)
| pr_final (c : cube scalar) (operator_labels component_labels : list string).
Arguments pr_settings {scalar} _ _ _ _ _ _ _ _ _ _ _.
Arguments pr_mat {scalar} _ _.
Arguments pr_uvec {scalar} _ _.
Arguments pr_uncoupled {scalar} _ _ _.
Arguments pr_final {scalar} _ _ _.

(** ** What a call can change

    The caller's [results] tensor and [operators] vector, the solver
    object, the files of the working directory with the list of those
    the driver opened, and standard output. *)
Record world (scalar state : Type) : Type := {
  w_results : cube scalar;
  w_operators : list (operator_spec scalar);
  w_solver : state;
  w_disk : gmap string (blob scalar);
  w_io : list file_access;
  w_console : list (printed scalar)
}.
Arguments w_results {scalar state} _.
Arguments w_operators {scalar state} _.
Arguments w_solver {scalar state} _.
Arguments w_disk {scalar state} _.
Arguments w_io {scalar state} _.
Arguments w_console {scalar state} _.

(** ** Bounds-checked accessors of Armadillo *)

Definition uvec_at (v : uvec) (i : nat) : result Z :=
  match v !! i with
  | Some x => Ok x
  | None => Fail (logic_error "Mat::operator(): index out of bounds")
  end.

Definition umat_col (m : umat) (j : nat) : result uvec :=
  match m !! j with
  | Some c => Ok c
  | None => Fail (logic_error "Mat::col(): index out of bounds")
  end.

Definition uvec_sub (a b : uvec) : uvec := zip_with usub a b.

Definition cube_slice {scalar} (c : cube scalar) (k : nat) : result (mat scalar) :=
  match c !! k with
  | Some m => Ok m
  | None => Fail (logic_error "Cube::slice(): index out of bounds")
  end.

(** [c(arma::span::all, arma::span(a, b), arma::span(s))] as a matrix. *)
Definition cube_cols {scalar} (c : cube scalar) (a b : Z) (s : nat)
  : result (mat scalar) :=
  match c !! s with
  | Some m =>
      if (a <=? b) && (b <? Z.of_nat (mat_n_cols m))
      then Ok (take (Z.to_nat (b - a + 1)) (drop (Z.to_nat a) m))
      else Fail (logic_error "Cube::operator(): indices out of bounds or incorrectly used")
  | None => Fail (logic_error "Cube::operator(): indices out of bounds or incorrectly used")
  end.

(** [c.slice(f) = m]: the slice has a fixed size. *)
Definition cube_set_slice {scalar} (c : cube scalar) (f : nat) (m : mat scalar)
  : result (cube scalar) :=
  match c !! f with
  | Some old =>
      if same_size old m then Ok (<[f := m]> c)
      else Fail (logic_error "Mat::init(): size is fixed and hence cannot be changed")
  | None => Fail (logic_error "Cube::slice(): index out of bounds")
  end.

(** [std::vector::at]. *)
Definition vector_at {A} (v : list A) (i : Z) : result A :=
  match (if 0 <=? i then v !! Z.to_nat i else None) with
  | Some x => Ok x
  | None => Fail out_of_range
  end.

(** ** Collaborators

    What the driver calls and does not define: the arithmetic of
    [double], two Armadillo kernels, and the functions and classes of the
    library's other translation units.  A function that fills an object
    passed by reference takes the object as its first argument and
    returns it filled. *)

Class collaborators (scalar : Type) : Type := {
  (** [double]: [0.0], [2.0], the content of freshly allocated storage,
      [+], [*] and [std::pow(10.0, -conv_int)]. *)
  szero : scalar;
  stwo : scalar;
  uninit : scalar;
  sadd : scalar → scalar → scalar;
  smul : scalar → scalar → scalar;
  pow10_neg : Z → scalar;
  (** Armadillo: [C.t() * X * C], and [arma::pinv], which throws when the
      decomposition fails. *)
  mo_transform : mat scalar → mat scalar → mat scalar;
  pinv : mat scalar → option (mat scalar);
  (** indices.C *)
  make_indices_mo_restricted : uvec → uvec → uvec;
  make_indices_mo_restricted_local_occ_all_virt : uvec → uvec → list uvec;
  (** linear/helpers.C, utils.C *)
  form_ediff_terms : mat scalar → mat scalar → mat scalar → Z → Z → mat scalar;
  make_masked_mat : mat scalar → mat scalar → uvec → scalar → bool → mat scalar;
  one_electron_mn_mats_to_ia_vecs :
    cube scalar → cube scalar → mat scalar → mat scalar → cube scalar;
  form_results :
    cube scalar → list (operator_spec scalar) → option (list uvec) → cube scalar;
  make_operator_label_vec : list (operator_spec scalar) → list string;
  make_operator_component_vec : list (operator_spec scalar) → list string;
  to_upper : string → string;
  (** operator_spec.C: the methods of one operator. *)
  init_indices : umat → configurable → operator_spec scalar → operator_spec scalar;
  form_rhs :
    cube scalar → uvec → configurable → operator_spec scalar → operator_spec scalar;
  form_guess_rspvec :
    mat scalar → scalar → bool → Z → configurable →
    operator_spec scalar → operator_spec scalar;
  save_to_disk :
    Z → bool → operator_spec scalar →
    gmap string (blob scalar) → gmap string (blob scalar);
  (** linear/iterator.h and the matrix-vector product handed to it.  The
      solver keeps the pointers [init] is given; [run] rewrites the
      operators behind the first of them. *)
  solver_state : Type;
  matvec_i : Type;
  set_orbital_occupations : Z → Z → Z → Z → solver_state → solver_state;
  set_fragment_occupations : umat → solver_state → solver_state;
  solver_init :
    list (operator_spec scalar) → configurable → matvec_i → cube scalar →
    mat scalar → mat scalar → scalar → Z → scalar → solver_state → solver_state;
  solver_run :
    solver_state → list (operator_spec scalar) →
    solver_state * list (operator_spec scalar)
}.

(** The same collaborators with another pseudo-inverse routine. *)
Definition with_pinv {scalar} (p : mat scalar → option (mat scalar))
    (E : collaborators scalar) : collaborators scalar :=
  Build_collaborators scalar
    szero stwo uninit sadd smul pow10_neg mo_transform p
    make_indices_mo_restricted make_indices_mo_restricted_local_occ_all_virt
    form_ediff_terms make_masked_mat one_electron_mn_mats_to_ia_vecs form_results
    make_operator_label_vec make_operator_component_vec to_upper
    init_indices form_rhs form_guess_rspvec save_to_disk
    solver_state matvec_i
    set_orbital_occupations set_fragment_occupations solver_init solver_run.

(** ** The driver *)

Section Driver.

Context {scalar : Type} {E : collaborators scalar}.

(** *** The monad of the routine: state and failure *)

Local Abbreviation world := (world scalar solver_state).

Definition M (A : Type) : Type := world → result A * world.

#[global] Instance M_ret : MRet M := λ A a w, (Ok a, w).
#[global] Instance M_bind : MBind M := λ A B f m w,
  match m w with
  | (Ok a, w') => f a w'
  | (Fail e, w') => (Fail e, w')
  end.

Definition throw {A} (e : failure) : M A := λ w, (Fail e, w).
Definition lift {A} (r : result A) : M A := λ w, (r, w).
Definition assert (b : bool) (expr : string) : M unit :=
  if b then mret tt else throw (assertion_failed expr).
Definition when (b : bool) (m : M unit) : M unit :=
  if b then m else mret tt.

Definition get_operators : M (list (operator_spec scalar)) :=
  λ w, (Ok (w_operators w), w).
Definition set_operators (ops : list (operator_spec scalar)) : M unit :=
  λ w, (Ok tt, {| w_results := w_results w; w_operators := ops;
                  w_solver := w_solver w; w_disk := w_disk w; w_io := w_io w;
                  w_console := w_console w |}).
Definition set_results (r : cube scalar) : M unit :=
  λ w, (Ok tt, {| w_results := r; w_operators := w_operators w;
                  w_solver := w_solver w; w_disk := w_disk w; w_io := w_io w;
                  w_console := w_console w |}).
Definition get_results : M (cube scalar) := λ w, (Ok (w_results w), w).
Definition with_solver (f : solver_state → solver_state) : M unit :=
  λ w, (Ok tt, {| w_results := w_results w; w_operators := w_operators w;
                  w_solver := f (w_solver w); w_disk := w_disk w; w_io := w_io w;
                  w_console := w_console w |}).
Definition with_disk
    (f : gmap string (blob scalar) → gmap string (blob scalar)) : M unit :=
  λ w, (Ok tt, {| w_results := w_results w; w_operators := w_operators w;
                  w_solver := w_solver w; w_disk := f (w_disk w); w_io := w_io w;
                  w_console := w_console w |}).
Definition print (p : printed scalar) : M unit :=
  λ w, (Ok tt, {| w_results := w_results w; w_operators := w_operators w;
                  w_solver := w_solver w; w_disk := w_disk w; w_io := w_io w;
                  w_console := w_console w ++ [p] |}).

Definition opened (a : file_access) : M unit :=
  λ w, (Ok tt, {| w_results := w_results w; w_operators := w_operators w;
                  w_solver := w_solver w; w_disk := w_disk w;
                  w_io := w_io w ++ [a]; w_console := w_console w |}).

(** [x.save(name, arma::arma_ascii)] *)
Definition save_mat (name : string) (m : mat scalar) : M unit :=
  opened (file_written name);;
  with_disk (λ d, <[name := blob_mat m]> d).

(** [x.load(name, arma::arma_ascii)] on a cube: a missing file or one
    that holds no cube resets [x] and returns false, which the driver
    does not look at. *)
Definition disk_cube (d : gmap string (blob scalar)) (name : string) : cube scalar :=
  match d !! name with
  | Some (blob_cube c) => c
  | _ => []
  end.

Definition file_cube (name : string) : M (cube scalar) :=
  λ w, (Ok (disk_cube (w_disk w) name), w).

Definition load_cube (name : string) : M (cube scalar) :=
  opened (file_read name);; file_cube name.

(** The body of a loop over [operators], run on every entry in order. *)
Fixpoint each {A B} (body : A → M B) (l : list A) : M (list B) :=
  match l with
  | [] => mret []
  | x :: rest => y ← body x; ys ← each body rest; mret (y :: ys)
  end.

Definition for_operators
    (body : operator_spec scalar → M (operator_spec scalar)) : M unit :=
  ops ← get_operators; ops' ← each body ops; set_operators ops'.

(** *** Lines 26-62: validation and sizes *)

Record shapes : Type := {
  nden : nat;
  norb : nat;
  tot_n_slices : nat;
  nocc_alph : Z;
  nvirt_alph : Z;
  nov_alph : Z;
  nocc_beta : Z;
  nvirt_beta : Z;
  nov_beta : Z
}.

Definition check_inputs (C : cube scalar) (occupations : uvec)
    (omega : list scalar) : M shapes :=
  assert (bool_decide (length occupations = 4%nat)) "occupations.n_elem == 4";;
  operators ← get_operators;
  when (bool_decide (length omega = 0%nat))
       (throw (runtime_error "Supply one or more frequencies."));;
  when (bool_decide (length operators = 0%nat))
       (throw (runtime_error "Supply one or more operators."));;
  let nden := cube_n_slices C in
  let norb := cube_n_cols C in
  assert (bool_decide (nden = 1%nat) || bool_decide (nden = 2%nat))
         "nden == 1 || nden == 2";;
  let tot_n_slices :=
    sum_list_with (λ op, cube_n_slices (integrals_ao op)) operators in
  nocc_alph ← lift (uvec_at occupations 0);
  nvirt_alph ← lift (uvec_at occupations 1);
  assert (Z.of_nat norb =? uadd nocc_alph nvirt_alph)
         "norb == (nocc_alph + nvirt_alph)";;
  let nov_alph := umul nocc_alph nvirt_alph in
  nocc_beta ← lift (uvec_at occupations 2);
  nvirt_beta ← lift (uvec_at occupations 3);
  assert (Z.of_nat norb =? uadd nocc_beta nvirt_beta)
         "norb == (nocc_beta + nvirt_beta)";;
  let nov_beta := umul nocc_beta nvirt_beta in
  when (nocc_alph =? nocc_beta)
       (assert (nov_alph =? nov_beta) "nov_alph == nov_beta");;
  mret {| nden := nden; norb := norb; tot_n_slices := tot_n_slices;
          nocc_alph := nocc_alph; nvirt_alph := nvirt_alph; nov_alph := nov_alph;
          nocc_beta := nocc_beta; nvirt_beta := nvirt_beta; nov_beta := nov_beta |}.

Definition two_channels (sh : shapes) : bool := bool_decide (nden sh = 2%nat).

(** *** Lines 66-220: orbital blocks, index sets, energy differences *)

Record prepared : Type := {
  operator_labels : list string;
  component_labels : list string;
  C_occ_alph : mat scalar;
  C_virt_alph : mat scalar;
  C_occ_beta : mat scalar;
  C_virt_beta : mat scalar;
  indices_mo_alph : uvec;
  indices_mo_beta : uvec;
  ediff_alph : mat scalar;
  ediff_beta : mat scalar
}.

Definition indices_mo (pr : prepared) : list uvec :=
  [indices_mo_alph pr; indices_mo_beta pr].

(** Lines 102-109. *)
Definition slice_coefficients (C : cube scalar) (sh : shapes)
  : result (mat scalar * mat scalar * mat scalar * mat scalar) :=
  match cube_cols C 0 (usub (nocc_alph sh) 1) 0 with
  | Fail e => Fail e
  | Ok occ_a =>
  match cube_cols C (nocc_alph sh) (usub (Z.of_nat (norb sh)) 1) 0 with
  | Fail e => Fail e
  | Ok virt_a =>
      if two_channels sh then
        match cube_cols C 0 (usub (nocc_beta sh) 1) 1 with
        | Fail e => Fail e
        | Ok occ_b =>
        match cube_cols C (nocc_beta sh) (usub (Z.of_nat (norb sh)) 1) 1 with
        | Fail e => Fail e
        | Ok virt_b => Ok (occ_a, virt_a, occ_b, virt_b)
        end end
      else Ok (occ_a, virt_a, [], [])
  end end.

(** Lines 149-169. *)
Definition restricted_indices (fragment_occupations : umat)
    (cfg : configurable) : result (uvec * uvec) :=
  match umat_col fragment_occupations 1 with
  | Fail e => Fail e
  | Ok norb_frgm =>
  match umat_col fragment_occupations 2 with
  | Fail e => Fail e
  | Ok nocc_frgm_alph =>
  match umat_col fragment_occupations 3 with
  | Fail e => Fail e
  | Ok nocc_frgm_beta =>
      let nvirt_frgm_alph := uvec_sub norb_frgm nocc_frgm_alph in
      let nvirt_frgm_beta := uvec_sub norb_frgm nocc_frgm_beta in
      let frgm_response_idx := cfg_frgm_response_idx cfg in
      if 0 <? frgm_response_idx then
        let indices_mo_allfrgm_alph :=
          make_indices_mo_restricted_local_occ_all_virt
            nocc_frgm_alph nvirt_frgm_beta in
        let indices_mo_allfrgm_beta :=
          make_indices_mo_restricted_local_occ_all_virt
            nocc_frgm_beta nvirt_frgm_beta in
        match vector_at indices_mo_allfrgm_alph (frgm_response_idx - 1) with
        | Fail e => Fail e
        | Ok ia =>
        match vector_at indices_mo_allfrgm_beta (frgm_response_idx - 1) with
        | Fail e => Fail e
        | Ok ib => Ok (ia, ib)
        end end
      else
        Ok (make_indices_mo_restricted nocc_frgm_alph nvirt_frgm_alph,
            make_indices_mo_restricted nocc_frgm_beta nvirt_frgm_beta)
  end end end.

(** The index sets as the description of the driver states them: each
    channel's set is built from that channel's own fragment counts, also
    when one fragment is selected.  Kept apart from [restricted_indices],
    which follows the code, to compare the two. *)
Definition restricted_indices_by_channel (fragment_occupations : umat)
    (cfg : configurable) : result (uvec * uvec) :=
  match umat_col fragment_occupations 1 with
  | Fail e => Fail e
  | Ok norb_frgm =>
  match umat_col fragment_occupations 2 with
  | Fail e => Fail e
  | Ok nocc_frgm_alph =>
  match umat_col fragment_occupations 3 with
  | Fail e => Fail e
  | Ok nocc_frgm_beta =>
      let nvirt_frgm_alph := uvec_sub norb_frgm nocc_frgm_alph in
      let nvirt_frgm_beta := uvec_sub norb_frgm nocc_frgm_beta in
      let frgm_response_idx := cfg_frgm_response_idx cfg in
      if 0 <? frgm_response_idx then
        match vector_at (make_indices_mo_restricted_local_occ_all_virt
                           nocc_frgm_alph nvirt_frgm_alph)
                        (frgm_response_idx - 1) with
        | Fail e => Fail e
        | Ok ia =>
        match vector_at (make_indices_mo_restricted_local_occ_all_virt
                           nocc_frgm_beta nvirt_frgm_beta)
                        (frgm_response_idx - 1) with
        | Fail e => Fail e
        | Ok ib => Ok (ia, ib)
        end end
      else
        Ok (make_indices_mo_restricted nocc_frgm_alph nvirt_frgm_alph,
            make_indices_mo_restricted nocc_frgm_beta nvirt_frgm_beta)
  end end end.

(** Lines 180-186. *)
Definition form_ediff (sh : shapes)
    (F_alph sigma_alph F_beta sigma_beta : mat scalar)
  : mat scalar * mat scalar :=
  (form_ediff_terms
     (mat_new uninit (Z.to_nat (nov_alph sh)) (Z.to_nat (nov_alph sh)))
     F_alph sigma_alph (nocc_alph sh) (nvirt_alph sh),
   if two_channels sh then
     form_ediff_terms
       (mat_new uninit (Z.to_nat (nov_beta sh)) (Z.to_nat (nov_beta sh)))
       F_beta sigma_beta (nocc_beta sh) (nvirt_beta sh)
   else []).

(** Lines 194-202. *)
Definition mask_ediff (sh : shapes) (cfg : configurable)
    (ediff : mat scalar * mat scalar) (idx_alph idx_beta : uvec)
  : mat scalar * mat scalar :=
  if cfg_mask_ediff_mo cfg then
    (make_masked_mat [] ediff.1 idx_alph szero true,
     if two_channels sh
     then make_masked_mat [] ediff.2 idx_beta szero true
     else ediff.2)
  else ediff.

(** The operators handed to the solver. *)
Definition energy_differences (sh : shapes) (cfg : configurable)
    (F_alph sigma_alph F_beta sigma_beta : mat scalar)
    (idx_alph idx_beta : uvec) : mat scalar * mat scalar :=
  mask_ediff sh cfg (form_ediff sh F_alph sigma_alph F_beta sigma_beta)
             idx_alph idx_beta.

(** Lines 66-130: labels, orbital blocks, overlap and Fock matrices in
    the MO basis. *)
Record mo_basis : Type := {
  mo_operator_labels : list string;
  mo_component_labels : list string;
  mo_C_occ_alph : mat scalar;
  mo_C_virt_alph : mat scalar;
  mo_C_occ_beta : mat scalar;
  mo_C_virt_beta : mat scalar;
  sigma_alph : mat scalar;
  sigma_beta : mat scalar;
  F_alph : mat scalar;
  F_beta : mat scalar
}.

Definition transform_to_mo (C F : cube scalar) (S : mat scalar)
    (omega : list scalar) (cfg : configurable) (sh : shapes) : M mo_basis :=
  let print_level := cfg_print_level cfg in
  operators ← get_operators;
  let operator_labels := make_operator_label_vec operators in
  let component_labels := make_operator_component_vec operators in
  when (1 <=? print_level)
       (print (pr_settings (nocc_alph sh) (nvirt_alph sh)
                           (nocc_beta sh) (nvirt_beta sh)
                           (nov_alph sh) (nov_beta sh)
                           (to_upper (cfg_hamiltonian cfg)) (cfg_spin cfg)
                           (cfg_maxiter cfg) (- cfg_conv cfg) omega));;
  '(occ_a, virt_a, occ_b, virt_b) ← lift (slice_coefficients C sh);
  C0 ← lift (cube_slice C 0);
  let sigma_alph := mo_transform C0 S in
  sigma_beta ← (if two_channels sh
                then C1 ← lift (cube_slice C 1); mret (mo_transform C1 S)
                else mret []);
  F0 ← lift (cube_slice F 0);
  let F_alph := mo_transform C0 F0 in
  F_beta ← (if two_channels sh
            then C1 ← lift (cube_slice C 1); F1 ← lift (cube_slice F 1);
                 mret (mo_transform C1 F1)
            else mret []);
  when (10 <=? print_level)
       (print (pr_mat "sigma_alph" sigma_alph);;
        when (two_channels sh) (print (pr_mat "sigma_beta" sigma_beta));;
        print (pr_mat "F_alph" F_alph);;
        when (two_channels sh) (print (pr_mat "F_beta" F_beta)));;
  mret {| mo_operator_labels := operator_labels;
          mo_component_labels := component_labels;
          mo_C_occ_alph := occ_a; mo_C_virt_alph := virt_a;
          mo_C_occ_beta := occ_b; mo_C_virt_beta := virt_b;
          sigma_alph := sigma_alph; sigma_beta := sigma_beta;
          F_alph := F_alph; F_beta := F_beta |}.

(** Lines 132-147: the pseudo-inverses [S_inv], [sigma_inv_alph] and
    [sigma_inv_beta] are locals of this block. *)
Definition orthogonalize_canonical (S : mat scalar) (cfg : configurable)
    (sh : shapes) (mo : mo_basis) : M unit :=
  when (cfg_do_orthogonalization_canonical cfg)
       (match pinv S with
        | None => throw (runtime_error "pinv(): svd failed")
        | Some S_inv =>
        match pinv (sigma_alph mo) with
        | None => throw (runtime_error "pinv(): svd failed")
        | Some sigma_inv_alph =>
            sigma_inv_beta ←
              (if two_channels sh then
                 match pinv (sigma_beta mo) with
                 | None => throw (runtime_error "pinv(): svd failed")
                 | Some m => mret m
                 end
               else mret []);
            when (10 <=? cfg_print_level cfg)
                 (print (pr_mat "S_inv" S_inv);;
                  print (pr_mat "sigma_inv_alph" sigma_inv_alph);;
                  when (two_channels sh)
                       (print (pr_mat "sigma_inv_beta" sigma_inv_beta)))
        end end).

(** Lines 149-220: index sets and energy differences. *)
Definition restrict_and_build (fragment_occupations : umat)
    (cfg : configurable) (sh : shapes) (mo : mo_basis) : M prepared :=
  let print_level := cfg_print_level cfg in
  '(idx_a, idx_b) ← lift (restricted_indices fragment_occupations cfg);
  when (10 <=? print_level)
       (print (pr_uvec "indices_mo_alph" idx_a);;
        print (pr_uvec "indices_mo_beta" idx_b));;
  let unmasked :=
    form_ediff sh (F_alph mo) (sigma_alph mo) (F_beta mo) (sigma_beta mo) in
  when (10 <=? print_level)
       (print (pr_mat "ediff_alph" unmasked.1);;
        when (two_channels sh) (print (pr_mat "ediff_beta" unmasked.2)));;
  let '(ediff_a, ediff_b) :=
    energy_differences sh cfg (F_alph mo) (sigma_alph mo) (F_beta mo)
                       (sigma_beta mo) idx_a idx_b in
  when (cfg_mask_ediff_mo cfg && (10 <=? print_level))
       (print (pr_mat "ediff_alph (masked)" ediff_a);;
        when (two_channels sh) (print (pr_mat "ediff_beta (masked)" ediff_b)));;
  let prefix := default "" (cfg_prefix cfg) in
  when (0 <? cfg_save cfg)
       (save_mat (prefix +:+ "ediff_alph.dat") ediff_a;;
        when (two_channels sh) (save_mat (prefix +:+ "ediff_beta.dat") ediff_b));;
  mret {| operator_labels := mo_operator_labels mo;
          component_labels := mo_component_labels mo;
          C_occ_alph := mo_C_occ_alph mo; C_virt_alph := mo_C_virt_alph mo;
          C_occ_beta := mo_C_occ_beta mo; C_virt_beta := mo_C_virt_beta mo;
          indices_mo_alph := idx_a; indices_mo_beta := idx_b;
          ediff_alph := ediff_a; ediff_beta := ediff_b |}.

Definition prepare (C : cube scalar) (fragment_occupations : umat)
    (F : cube scalar) (S : mat scalar) (omega : list scalar)
    (cfg : configurable) (sh : shapes) : M prepared :=
  mo ← transform_to_mo C F S omega cfg sh;
  orthogonalize_canonical S cfg sh mo;;
  restrict_and_build fragment_occupations cfg sh mo.

(** *** Lines 228-271: gradients, checkpoint reads, solver set-up *)

Definition rspvecs_file (label basis spin : string) : string :=
  "rspvecs_" +:+ label +:+ "_" +:+ basis +:+ "_" +:+ spin +:+ ".dat".

(** Lines 237-264, for one operator. *)
Definition read_rspvecs (cfg : configurable) (sh : shapes) (pr : prepared)
    (op : operator_spec scalar) : M (operator_spec scalar) :=
  let read_level := cfg_read cfg in
  let label := operator_label (metadata op) in
  if do_response op then
    op ← (if read_level =? 1 then
            v ← load_cube (rspvecs_file label "mo" "alph");
            mret (set_rspvecs_alph v op)
          else if read_level =? 2 then
            tmp_ao_alph ← load_cube (rspvecs_file label "ao" "alph");
            mret (set_rspvecs_alph
                    (one_electron_mn_mats_to_ia_vecs
                       (rspvecs_alph op) tmp_ao_alph
                       (C_occ_alph pr) (C_virt_alph pr)) op)
          else mret op);
    if two_channels sh then
      if read_level =? 1 then
        v ← load_cube (rspvecs_file label "mo" "beta");
        mret (set_rspvecs_beta v op)
      else if read_level =? 2 then
        tmp_ao_beta ← load_cube (rspvecs_file label "ao" "beta");
        mret (set_rspvecs_beta
                (one_electron_mn_mats_to_ia_vecs
                   (rspvecs_beta op) tmp_ao_beta
                   (C_occ_beta pr) (C_virt_beta pr)) op)
      else mret op
    else mret op
  else mret op.

Definition start_operators (C : cube scalar) (fragment_occupations : umat)
    (occupations : uvec) (cfg : configurable) (sh : shapes) (pr : prepared)
  : M unit :=
  for_operators (λ op,
    mret (form_rhs C occupations cfg (init_indices fragment_occupations cfg op)));;
  for_operators (read_rspvecs cfg sh pr);;
  with_solver (set_orbital_occupations (nocc_alph sh) (nvirt_alph sh)
                                       (nocc_beta sh) (nvirt_beta sh));;
  with_solver (set_fragment_occupations fragment_occupations).

(** *** Lines 273-344: one frequency *)

Definition results_mask (cfg : configurable) (pr : prepared)
  : option (list uvec) :=
  if cfg_mask_form_results_mo cfg then Some (indices_mo pr) else None.

(** Lines 288-290: the uncoupled guess of one operator, per channel. *)
Definition guess_operator (cfg : configurable) (sh : shapes) (pr : prepared)
    (frequency : scalar) (op : operator_spec scalar) : operator_spec scalar :=
  let op := form_guess_rspvec (ediff_alph pr) frequency false
                              (nov_alph sh) cfg op in
  if two_channels sh
  then form_guess_rspvec (ediff_beta pr) frequency true (nov_beta sh) cfg op
  else op.

(** Lines 281-296. *)
Definition form_guesses (cfg : configurable) (sh : shapes) (pr : prepared)
    (frequency : scalar) : M unit :=
  when (cfg_read cfg =? 0)
       (for_operators (λ op,
          let op := guess_operator cfg sh pr frequency op in
          with_disk (save_to_disk (cfg_save cfg) true op);;
          mret op)).

(** Lines 298-314: the diagnostic; it leaves [results_freq] doubled
    when there are two channels. *)
Definition print_uncoupled (cfg : configurable) (sh : shapes) (pr : prepared)
    (results_freq : cube scalar) : M (cube scalar) :=
  if 1 <=? cfg_print_level cfg then
    operators ← get_operators;
    let results_freq := form_results results_freq operators (results_mask cfg pr) in
    slice0 ← lift (cube_slice results_freq 0);
    '(results_freq_mat, results_freq) ←
      (if two_channels sh then
         slice1 ← lift (cube_slice results_freq 1);
         mret (mat_add sadd slice0 slice1, cube_scale smul stwo results_freq)
       else mret (slice0, results_freq));
    print (pr_uncoupled results_freq_mat (operator_labels pr) (component_labels pr));;
    mret results_freq
  else mret results_freq.

(** Lines 316-327. *)
Definition run_solver (matvec : matvec_i) (C : cube scalar)
    (cfg : configurable) (pr : prepared) (frequency : scalar) : M unit :=
  λ w,
    let s := solver_init (w_operators w) cfg matvec C
                         (ediff_alph pr) (ediff_beta pr) frequency
                         (cfg_maxiter cfg) (pow10_neg (cfg_conv cfg))
                         (w_solver w) in
    let '(s', ops') := solver_run s (w_operators w) in
    (Ok tt, {| w_results := w_results w; w_operators := ops';
               w_solver := s'; w_disk := w_disk w; w_io := w_io w;
               w_console := w_console w |}).

(** Lines 279-336: the tensor of one frequency, [results_freq]. *)
Definition frequency_results (matvec : matvec_i) (C : cube scalar)
    (cfg : configurable) (sh : shapes) (pr : prepared)
    (frequency : scalar) : M (cube scalar) :=
  let results_freq :=
    cube_new uninit (tot_n_slices sh) (tot_n_slices sh) (nden sh) in
  form_guesses cfg sh pr frequency;;
  results_freq ← print_uncoupled cfg sh pr results_freq;
  run_solver matvec C cfg pr frequency;;
  operators ← get_operators;
  mret (form_results results_freq operators (results_mask cfg pr)).

(** Lines 341-343. *)
Definition save_operators (cfg : configurable) : M unit :=
  for_operators (λ op,
    with_disk (save_to_disk (cfg_save cfg) false op);; mret op).

(** Lines 337-339. *)
Definition store_slices (sh : shapes) (f : nat)
    (results_freq results_alph results_beta : cube scalar)
  : result (cube scalar * cube scalar) :=
  match cube_slice results_freq 0 with
  | Fail e => Fail e
  | Ok slice0 =>
  match cube_set_slice results_alph f slice0 with
  | Fail e => Fail e
  | Ok results_alph =>
      if two_channels sh then
        match cube_slice results_freq 1 with
        | Fail e => Fail e
        | Ok slice1 =>
        match cube_set_slice results_beta f slice1 with
        | Fail e => Fail e
        | Ok results_beta => Ok (results_alph, results_beta)
        end end
      else Ok (results_alph, results_beta)
  end end.

(** The body of the loop over [f]; it returns the two accumulators. *)
Definition frequency_step (matvec : matvec_i) (C : cube scalar)
    (cfg : configurable) (sh : shapes) (pr : prepared)
    (f : nat) (frequency : scalar)
    (results_alph results_beta : cube scalar)
  : M (cube scalar * cube scalar) :=
  results_freq ← frequency_results matvec C cfg sh pr frequency;
  r ← lift (store_slices sh f results_freq results_alph results_beta);
  save_operators cfg;;
  mret r.

Fixpoint frequency_loop (matvec : matvec_i) (C : cube scalar)
    (cfg : configurable) (sh : shapes) (pr : prepared)
    (f : nat) (omega : list scalar)
    (results_alph results_beta : cube scalar)
  : M (cube scalar * cube scalar) :=
  match omega with
  | [] => mret (results_alph, results_beta)
  | frequency :: rest =>
      '(ra, rb) ← frequency_step matvec C cfg sh pr f frequency
                                 results_alph results_beta;
      frequency_loop matvec C cfg sh pr (S f) rest ra rb
  end.

(** The tensors [results_freq] of all frequencies, in order: the loop
    without its accumulators. *)
Definition frequency_tensors (matvec : matvec_i) (C : cube scalar)
    (cfg : configurable) (sh : shapes) (pr : prepared)
    (omega : list scalar) : M (list (cube scalar)) :=
  each (λ frequency,
          results_freq ← frequency_results matvec C cfg sh pr frequency;
          save_operators cfg;;
          mret results_freq) omega.

(** Lines 346-351. *)
Definition combine_channels (sh : shapes)
    (results results_alph results_beta : cube scalar) : cube scalar :=
  let results := if bool_decide (nden sh = 1%nat) then results_alph else results in
  if bool_decide (nden sh = 2%nat)
  then cube_scale smul stwo (cube_add sadd results_alph results_beta)
  else results.

(** *** The routine *)

Definition channel_tensors (matvec : matvec_i) (C : cube scalar)
    (fragment_occupations : umat) (occupations : uvec)
    (F : cube scalar) (S : mat scalar) (omega : list scalar)
    (cfg : configurable) : M (shapes * prepared * (cube scalar * cube scalar)) :=
  sh ← check_inputs C occupations omega;
  let results_alph :=
    cube_new uninit (tot_n_slices sh) (tot_n_slices sh) (length omega) in
  let results_beta :=
    if two_channels sh
    then cube_new uninit (tot_n_slices sh) (tot_n_slices sh) (length omega)
    else [] in
  pr ← prepare C fragment_occupations F S omega cfg sh;
  start_operators C fragment_occupations occupations cfg sh pr;;
  r ← frequency_loop matvec C cfg sh pr 0 omega results_alph results_beta;
  mret (sh, pr, r).

(** The same call, returning the tensor of each frequency. *)
Definition tensors_by_frequency (matvec : matvec_i) (C : cube scalar)
    (fragment_occupations : umat) (occupations : uvec)
    (F : cube scalar) (S : mat scalar) (omega : list scalar)
    (cfg : configurable) : M (shapes * list (cube scalar)) :=
  sh ← check_inputs C occupations omega;
  pr ← prepare C fragment_occupations F S omega cfg sh;
  start_operators C fragment_occupations occupations cfg sh pr;;
  rfs ← frequency_tensors matvec C cfg sh pr omega;
  mret (sh, rfs).

Definition solve_linear_response (matvec : matvec_i) (C : cube scalar)
    (fragment_occupations : umat) (occupations : uvec)
    (F : cube scalar) (S : mat scalar) (omega : list scalar)
    (cfg : configurable) : M unit :=
  '(sh, pr, (results_alph, results_beta)) ←
    channel_tensors matvec C fragment_occupations occupations F S omega cfg;
  results ← get_results;
  let results := combine_channels sh results results_alph results_beta in
  set_results results;;
  when (1 <=? cfg_print_level cfg)
       (print (pr_final results (operator_labels pr) (component_labels pr))).

(** ** Vocabulary of the properties

    *** How a call stops *)

Definition failure_of {A} (r : result A) : option failure :=
  match r with
  | Ok _ => None
  | Fail e => Some e
  end.

(** A computation that never stops on the failure [e]. *)
Definition never {A} (e : failure) (m : M A) : Prop :=
  ∀ w : world, failure_of (m w).1 ≠ Some e.

(** The assertions of lines 26, 39, 55 and 59, as [assert] reports them. *)
Definition validation_assertions : list string :=
  ["occupations.n_elem == 4"; "nden == 1 || nden == 2";
   "norb == (nocc_alph + nvirt_alph)"; "norb == (nocc_beta + nvirt_beta)"].

(** What Armadillo throws for [C(span::all, span(a, b), span(s))] with
    [a > b] or [b >= C.n_cols] (lines 102-109). *)
Definition span_error : failure :=
  logic_error "Cube::operator(): indices out of bounds or incorrectly used".


(** Line 61. *)
Definition closed_shell_assertion : failure :=
  assertion_failed "nov_alph == nov_beta".

(** After validation nothing asserts: the remaining failures are
    exceptions. *)
Definition exception (e : failure) : Prop :=
  match e with
  | assertion_failed _ => False
  | _ => True
  end.

Definition throws_only {A} (r : result A) : Prop :=
  match r with
  | Ok _ => True
  | Fail e => exception e
  end.

(** *** The loop's accumulators *)

(** [m] can be assigned to slice [f] of [c]. *)
Definition fits (c : cube scalar) (f : nat) (m : mat scalar) : Prop :=
  ∃ old, c !! f = Some old ∧ same_size old m = true.

(** [acc'] is [acc] with the slices [s] of the tensors [rfs] stored from
    position [f] on, each fitting the slice it replaced. *)
Definition stored (s f : nat) (acc acc' : cube scalar) (rfs : list (cube scalar))
  : Prop :=
  ∃ slices,
    Forall2 (λ m rf, rf !! s = Some m) slices rfs
    ∧ (∀ j m, slices !! j = Some m → fits acc (f + j) m)
    ∧ acc' = (take f acc ++ slices ++ drop (f + length slices) acc)%list.

(** *** What a computation may change

    [effect R m]: every run of [m] takes a world to one related to it by
    [R]. *)
Definition effect {A} (R : relation world) (m : M A) : Prop :=
  ∀ w r w', m w = (r, w') → R w w'.

(** The files opened on the way, all of them in [P]. *)
Definition opens (P : file_access → Prop) : relation world :=
  λ w w', ∃ l, w_io w' = (w_io w ++ l)%list ∧ Forall P l.

(** A part of the world that a computation leaves as it is. *)
Definition keeps {X} (part : world → X) : relation world :=
  λ w w', part w' = part w.

(** *** Checkpoint files (lines 210-220, 236-258) *)

Definition ediff_file (cfg : configurable) (spin : string) : string :=
  default "" (cfg_prefix cfg) +:+ "ediff_" +:+ spin +:+ ".dat".

(** The files the driver may open in a call: the two energy-difference
    files, written when [save > 0] under the prefix, and the
    response-vector files of the operators, read without the prefix in
    the basis the read mode selects. *)
Definition checkpoint_access (cfg : configurable) (labels : list string)
    (a : file_access) : Prop :=
  match a with
  | file_written name =>
      0 < cfg_save cfg
      ∧ ∃ spin, spin ∈ ["alph"; "beta"] ∧ name = ediff_file cfg spin
  | file_read name =>
      ∃ label basis spin,
        label ∈ labels ∧ spin ∈ ["alph"; "beta"]
        ∧ (cfg_read cfg = 1 ∧ basis = "mo" ∨ cfg_read cfg = 2 ∧ basis = "ao")
        ∧ name = rspvecs_file label basis spin
  end.

(** The labels of the operators once their gradients are formed. *)
Definition started_labels (C : cube scalar) (fo : umat) (occupations : uvec)
    (cfg : configurable) (ops : list (operator_spec scalar)) : list string :=
  map (λ op, operator_label
               (metadata (form_rhs C occupations cfg (init_indices fo cfg op)))) ops.

(** *** Two runs side by side

    Worlds that differ in what was printed, and in the solver object
    unless [solver_too]. *)
Definition agree (solver_too : bool) : relation world :=
  λ w1 w2,
    w_results w1 = w_results w2 ∧ w_operators w1 = w_operators w2
    ∧ w_disk w1 = w_disk w2 ∧ w_io w1 = w_io w2
    ∧ (solver_too = true → w_solver w1 = w_solver w2).

(** [sim W RA m1 m2]: from worlds related by [W] the two computations
    stop alike, on results related by [RA] or on the same failure, in
    worlds related by [W]. *)
Definition sim {A} (W : relation world) (RA : relation A) (m1 m2 : M A) : Prop :=
  ∀ w1 w2, W w1 w2 →
    match m1 w1, m2 w2 with
    | (Ok a1, w1'), (Ok a2, w2') => RA a1 a2 ∧ W w1' w2'
    | (Fail e1, w1'), (Fail e2, w2') => e1 = e2 ∧ W w1' w2'
    | _, _ => False
    end.

(** A computation that only prints. *)
Definition silent (m : M unit) : Prop :=
  ∀ w : world, ∃ c,
    m w = (Ok tt, {| w_results := w_results w; w_operators := w_operators w;
                     w_solver := w_solver w; w_disk := w_disk w;
                     w_io := w_io w; w_console := c |}).

(** The sizes of a cube: of every column of every slice. *)
Definition shape (c : cube scalar) : list (list nat) := map (map length) c.

(** *** The read modes, as the description of the driver states them *)

(** Read mode 1: the response vectors of both channels as the files
    hold them, in the MO basis. *)
Definition read_from_mo (sh : shapes) (d : gmap string (blob scalar))
    (op : operator_spec scalar) : operator_spec scalar :=
  let label := operator_label (metadata op) in
  let op := set_rspvecs_alph (disk_cube d (rspvecs_file label "mo" "alph")) op in
  if two_channels sh
  then set_rspvecs_beta (disk_cube d (rspvecs_file label "mo" "beta")) op
  else op.

(** Read mode 2: the files hold AO-basis matrices, transformed with the
    occupied and virtual coefficient blocks of the channel. *)
Definition read_from_ao (sh : shapes) (pr : prepared)
    (d : gmap string (blob scalar)) (op : operator_spec scalar)
  : operator_spec scalar :=
  let label := operator_label (metadata op) in
  let op :=
    set_rspvecs_alph
      (one_electron_mn_mats_to_ia_vecs
         (rspvecs_alph op) (disk_cube d (rspvecs_file label "ao" "alph"))
         (C_occ_alph pr) (C_virt_alph pr)) op in
  if two_channels sh
  then set_rspvecs_beta
         (one_electron_mn_mats_to_ia_vecs
            (rspvecs_beta op) (disk_cube d (rspvecs_file label "ao" "beta"))
            (C_occ_beta pr) (C_virt_beta pr)) op
  else op.

(** What an operator enters the frequency loop with, by read mode. *)
Definition start_vectors (cfg : configurable) (sh : shapes) (pr : prepared)
    (d : gmap string (blob scalar)) (op : operator_spec scalar)
  : operator_spec scalar :=
  if do_response op then
    if cfg_read cfg =? 1 then read_from_mo sh d op
    else if cfg_read cfg =? 2 then read_from_ao sh pr d op
    else op
  else op.

(** What the solver is started on at one frequency, as the description
    states it: in read mode 0 every operator with the uncoupled guess
    formed for each spin channel from that channel's energy differences
    and the frequency; in any other mode the operators as they are, with
    the vectors that were loaded or that the frequency before left. *)
Definition solver_start (cfg : configurable) (sh : shapes) (pr : prepared)
    (frequency : scalar) (ops : list (operator_spec scalar))
  : list (operator_spec scalar) :=
  if cfg_read cfg =? 0 then
    map (λ op,
           let op := form_guess_rspvec (ediff_alph pr) frequency false
                                       (nov_alph sh) cfg op in
           if two_channels sh
           then form_guess_rspvec (ediff_beta pr) frequency true
                                  (nov_beta sh) cfg op
           else op) ops
  else ops.

(** The solver's turn at one frequency: [init] with the operators, both
    energy-difference operators, the frequency, the iteration bound and
    the threshold, then [run]. *)
Definition solved (matvec : matvec_i) (C : cube scalar) (cfg : configurable)
    (pr : prepared) (frequency : scalar) (s : solver_state)
    (start : list (operator_spec scalar))
  : solver_state * list (operator_spec scalar) :=
  solver_run
    (solver_init start cfg matvec C (ediff_alph pr) (ediff_beta pr) frequency
                 (cfg_maxiter cfg) (pow10_neg (cfg_conv cfg)) s)
    start.

(** The frequencies in input order, each started as [solver_start] says
    on what the one before left. *)
Fixpoint solved_in_turn (matvec : matvec_i) (C : cube scalar)
    (cfg : configurable) (sh : shapes) (pr : prepared) (omega : list scalar)
    (s : solver_state) (ops : list (operator_spec scalar))
  : solver_state * list (operator_spec scalar) :=
  match omega with
  | [] => (s, ops)
  | frequency :: rest =>
      let r := solved matvec C cfg pr frequency s
                      (solver_start cfg sh pr frequency ops) in
      solved_in_turn matvec C cfg sh pr rest r.1 r.2
  end.

(** [w] after the files [log] were opened. *)
Definition logged (log : list file_access) (w : world) : world :=
  {| w_results := w_results w; w_operators := w_operators w;
     w_solver := w_solver w; w_disk := w_disk w;
     w_io := (w_io w ++ log)%list; w_console := w_console w |}.

(** Worlds that hold the same operators, solver object and files: what
    a call can read. *)
Definition same_inputs : relation world :=
  λ w1 w2,
    w_operators w1 = w_operators w2 ∧ w_solver w1 = w_solver w2
    ∧ w_disk w1 = w_disk w2.

(** *** One frequency among several *)

Definition same_operators : relation world :=
  λ w1 w2, w_operators w1 = w_operators w2.

(** Operators whose guess, at every frequency, is that of [ops0]. *)
Definition guess_as (cfg : configurable) (sh : shapes) (pr : prepared)
    (ops0 : list (operator_spec scalar))
    (w : world) : Prop :=
  ∀ frequency,
    map (guess_operator cfg sh pr frequency) (w_operators w)
    = map (guess_operator cfg sh pr frequency) ops0.

End Driver.

(** ** A reference set of collaborators over binary64

    Used to run the driver on concrete inputs.  Each definition follows
    the specification's description of the collaborator it stands for;
    none of them is the library's code. *)

Module Reference.

Definition vec_dot (a b : list float) : float :=
  foldr (λ xy acc, PrimFloat.add (PrimFloat.mul xy.1 xy.2) acc) 0%float (zip a b).

Definition mat_get (m : mat float) (r c : nat) : float :=
  nth r (nth c m []) 0%float.

Definition transpose (m : mat float) : mat float :=
  map (λ r, map (λ col, nth r col 0%float) m) (seq 0 (mat_n_rows m)).

(** [a * b], both stored by columns. *)
Definition mat_mul (a b : mat float) : mat float :=
  let rows := transpose a in
  map (λ col, map (λ row, vec_dot row col) rows) b.

(** Modelled from the spec: the MO-basis form [C.t() * X * C] of section
    4.2, step 2. *)
Definition mo_transform (c x : mat float) : mat float :=
  mat_mul (mat_mul (transpose c) x) c.

Definition is_diagonal (m : mat float) : bool :=
  forallb (λ c, forallb (λ r, (r =? c)%nat || PrimFloat.eqb (mat_get m r c) 0%float)
                        (seq 0 (mat_n_rows m)))
          (seq 0 (mat_n_cols m)).

(** Modelled from the spec: the pseudo-inverse of section 4.2, step 3, on
    diagonal matrices (reciprocal of the non-zero diagonal entries); any
    other matrix is a failed decomposition. *)
Definition pinv (m : mat float) : option (mat float) :=
  if is_diagonal m then
    Some (map (λ c, map (λ r, if (r =? c)%nat && negb (PrimFloat.eqb (mat_get m r c) 0%float)
                              then PrimFloat.div 1%float (mat_get m r c)
                              else 0%float)
                        (seq 0 (mat_n_rows m)))
              (seq 0 (mat_n_cols m)))
  else None.

Definition usum (v : uvec) : Z := foldr uadd 0 v.

(** Modelled from the spec: section 4.3, the pairs of the occupied
    orbitals local to one fragment with all virtual orbitals, as compound
    indices with the virtual index fast; one list per fragment. *)
Definition make_indices_mo_restricted_local_occ_all_virt
    (nocc_frgm nvirt_frgm : uvec) : list uvec :=
  let nvirt := usum nvirt_frgm in
  (fix go (offset : Z) (frgm : uvec) : list uvec :=
     match frgm with
     | [] => []
     | nocc :: rest =>
         flat_map (λ i, map (λ a, i * nvirt + a) (seqZ 0 nvirt)) (seqZ offset nocc)
         :: go (offset + nocc) rest
     end) 0 nocc_frgm.

(** Modelled from the spec: section 8, the pooled set is the union of the
    per-fragment sets. *)
Definition make_indices_mo_restricted (nocc_frgm nvirt_frgm : uvec) : uvec :=
  concat (make_indices_mo_restricted_local_occ_all_virt nocc_frgm nvirt_frgm).

(** Modelled from the spec: section 4.2, step 4, in the orthogonal limit:
    the diagonal of orbital-energy differences, virtual index fast. *)
Definition form_ediff_terms (ediff F sigma : mat float) (nocc nvirt : Z)
  : mat float :=
  let nov := Z.to_nat (nocc * nvirt) in
  map (λ c, map (λ r,
         if (r =? c)%nat then
           let i := (c / Z.to_nat nvirt)%nat in
           let a := (Z.to_nat nocc + c mod Z.to_nat nvirt)%nat in
           PrimFloat.sub (mat_get F a a) (mat_get F i i)
         else 0%float) (seq 0 nov)) (seq 0 nov).

(** Modelled from the spec: the masking operation of section 4.3. *)
Definition make_masked_mat (out m : mat float) (idx : uvec) (fill : float)
    (diagonal : bool) : mat float :=
  let inside (k : nat) := bool_decide (Z.of_nat k ∈ idx) in
  map (λ c, map (λ r,
         if inside r && inside c then mat_get m r c
         else if diagonal && (r =? c)%nat then fill else 0%float)
       (seq 0 (mat_n_rows m))) (seq 0 (mat_n_cols m)).

(** Modelled from the spec: section 4.4, [C_occ.t() * X * C_virt] for each
    slice, flattened with the virtual index fast. *)
Definition one_electron_mn_mats_to_ia_vecs (out ao : cube float)
    (C_occ C_virt : mat float) : cube float :=
  map (λ x, [concat (transpose (mat_mul (mat_mul (transpose C_occ) x) C_virt))]) ao.

Definition columns (c : cube float) : list (list float) := concat c.

Definition masked (mask : option (list uvec)) (s : nat) (v : list float)
  : list float :=
  match mask with
  | None => v
  | Some m =>
      let idx := nth s m [] in
      imap (λ k x, if bool_decide (Z.of_nat k ∈ idx) then x else 0%float) v
  end.

(** The vectors of channel [s] of all operators, in order. *)
Definition gradients (s : nat) (ops : list (operator_spec float)) : list (list float) :=
  flat_map (λ op, columns (if (s =? 0)%nat then rhsvecs_alph op else rhsvecs_beta op))
           ops.

Definition responses (s : nat) (ops : list (operator_spec float)) : list (list float) :=
  flat_map (λ op, columns (if (s =? 0)%nat then rspvecs_alph op else rspvecs_beta op))
           ops.

(** Modelled from the spec: section 4.6, entry [p, q] of slice [s] is the
    inner product of gradient [p] with response vector [q] of channel
    [s], restricted to the index set; every entry of the tensor passed in
    is assigned. *)
Definition form_results (results : cube float) (ops : list (operator_spec float))
    (mask : option (list uvec)) : cube float :=
  imap (λ s slice,
    imap (λ q col,
      imap (λ p _,
        vec_dot (masked mask s (nth p (gradients s ops) []))
                (masked mask s (nth q (responses s ops) []))) col) slice)
  results.

Definition upper_ascii (c : Ascii.ascii) : Ascii.ascii :=
  let n := Ascii.nat_of_ascii c in
  if (97 <=? n)%nat && (n <=? 122)%nat then Ascii.ascii_of_nat (n - 32) else c.

Fixpoint to_upper (s : string) : string :=
  match s with
  | EmptyString => EmptyString
  | String c rest => String (upper_ascii c) (to_upper rest)
  end.

Definition diagonal (m : mat float) : list float :=
  imap (λ k col, nth k col 0%float) m.

Definition zeros_like (c : cube float) : cube float :=
  map (map (map (λ _, 0%float))) c.

(** Modelled from the spec: section 4.4, the gradient [C_occ.t() * X *
    C_virt] of each channel, and response-vector storage of the same
    shape. *)
Definition form_rhs (C : cube float) (occupations : uvec) (cfg : configurable)
    (op : operator_spec float) : operator_spec float :=
  let block (s : nat) (k : nat) :=
    let c := nth s C [] in
    let nocc := Z.to_nat (nth k occupations 0) in
    one_electron_mn_mats_to_ia_vecs [] (integrals_ao op) (take nocc c) (drop nocc c) in
  let rhs_a := block 0%nat 0%nat in
  let rhs_b := if bool_decide (length C = 2%nat) then block 1%nat 2%nat else [] in
  {| metadata := metadata op; integrals_ao := integrals_ao op;
     do_response := do_response op;
     rhsvecs_alph := rhs_a; rhsvecs_beta := rhs_b;
     rspvecs_alph := zeros_like rhs_a; rspvecs_beta := zeros_like rhs_b;
     op_indices_mo := op_indices_mo op |}.

(** Modelled from the spec: the operator keeps the fragment table's
    restricted index sets (section 3); nothing else of it is described. *)
Definition init_indices (fragment_occupations : umat) (cfg : configurable)
    (op : operator_spec float) : operator_spec float :=
  {| metadata := metadata op; integrals_ao := integrals_ao op;
     do_response := do_response op;
     rhsvecs_alph := rhsvecs_alph op; rhsvecs_beta := rhsvecs_beta op;
     rspvecs_alph := rspvecs_alph op; rspvecs_beta := rspvecs_beta op;
     op_indices_mo :=
       make_indices_mo_restricted_local_occ_all_virt
         (nth 2 fragment_occupations [])
         (uvec_sub (nth 1 fragment_occupations []) (nth 2 fragment_occupations [])) |}.

(** [gradient / (ediff - frequency)], element by element. *)
Definition uncoupled (ediff : mat float) (frequency : float) (rhs : cube float)
  : cube float :=
  map (map (λ col, zip_with (λ g d, PrimFloat.div g (PrimFloat.sub d frequency))
                            col (diagonal ediff))) rhs.

(** Modelled from the spec: the uncoupled guess of section 4.4. *)
Definition form_guess_rspvec (ediff : mat float) (frequency : float)
    (is_beta : bool) (nov : Z) (cfg : configurable) (op : operator_spec float)
  : operator_spec float :=
  if is_beta
  then set_rspvecs_beta (uncoupled ediff frequency (rhsvecs_beta op)) op
  else set_rspvecs_alph (uncoupled ediff frequency (rhsvecs_alph op)) op.

(** Modelled from the spec: sections 4.5 and 8, the converged response
    vectors are written where read mode 1 finds them; the guess is not
    kept. *)
Definition save_to_disk (save_level : Z) (is_guess : bool)
    (op : operator_spec float) (disk : gmap string (blob float))
  : gmap string (blob float) :=
  if (0 <? save_level) && negb is_guess then
    let label := operator_label (metadata op) in
    let disk := <[rspvecs_file label "mo" "alph" := blob_cube (rspvecs_alph op)]> disk in
    match rspvecs_beta op with
    | [] => disk
    | v => <[rspvecs_file label "mo" "beta" := blob_cube v]> disk
    end
  else disk.

(** Modelled from the spec: the matrix-vector operator of section 6, a
    function of the trial vector and the frequency. *)
Definition matvec : Type := list float → float → list float.

(** Modelled from the spec: the iterative solver of section 6.  [init]
    records what it is given; [run] makes at most [maxiter] sweeps
    [x := (gradient - matvec x) / (ediff - frequency)] over the operators
    that take part in the response. *)
Record solver : Type := {
  occupations : list Z;
  fragments : umat;
  channels : nat;
  coupling : option matvec;
  ediffs : mat float * mat float;
  frequency : float;
  maxiter : Z
}.

Definition set_orbital_occupations (a b c d : Z) (s : solver) : solver :=
  {| occupations := [a; b; c; d]; fragments := fragments s;
     channels := channels s; coupling := coupling s; ediffs := ediffs s;
     frequency := frequency s; maxiter := maxiter s |}.

Definition set_fragment_occupations (t : umat) (s : solver) : solver :=
  {| occupations := occupations s; fragments := t;
     channels := channels s; coupling := coupling s; ediffs := ediffs s;
     frequency := frequency s; maxiter := maxiter s |}.

Definition solver_init (ops : list (operator_spec float)) (cfg : configurable)
    (mv : matvec) (C : cube float) (ediff_a ediff_b : mat float)
    (freq : float) (maxit : Z) (conv : float) (s : solver) : solver :=
  {| occupations := occupations s; fragments := fragments s;
     channels := length C; coupling := Some mv; ediffs := (ediff_a, ediff_b);
     frequency := freq; maxiter := maxit |}.

Definition sweep_channel (mv : matvec) (ediff : mat float) (freq : float)
    (rhs rsp : cube float) : cube float :=
  zip_with (zip_with (λ g x,
      zip_with (λ r d, PrimFloat.div r (PrimFloat.sub d freq))
               (zip_with PrimFloat.sub g (mv x freq)) (diagonal ediff)))
    rhs rsp.

Definition sweep (s : solver) (op : operator_spec float) : operator_spec float :=
  match coupling s with
  | Some mv =>
      if do_response op then
        let op := set_rspvecs_alph
                    (sweep_channel mv (ediffs s).1 (frequency s)
                                   (rhsvecs_alph op) (rspvecs_alph op)) op in
        if bool_decide (channels s = 2%nat) then
          set_rspvecs_beta
            (sweep_channel mv (ediffs s).2 (frequency s)
                           (rhsvecs_beta op) (rspvecs_beta op)) op
        else op
      else op
  | None => op
  end.

Definition solver_run (s : solver) (ops : list (operator_spec float))
  : solver * list (operator_spec float) :=
  (s, Nat.iter (Z.to_nat (maxiter s)) (map (sweep s)) ops).

(** [std::pow(10.0, -k)]: up to [10^22] the power of ten is a binary64
    number, so that for [|k| <= 22] the result is the binary64 number
    nearest to [10^-k]. *)
Definition pow10_neg (k : Z) : float :=
  let power :=
    Nat.iter (Z.to_nat (Z.abs k)) (λ x, PrimFloat.mul x 10%float) 1%float in
  if 0 <=? k then PrimFloat.div 1%float power else power.

#[export] Instance binary64 : collaborators float :=
  Build_collaborators float
    0%float 2%float 0%float PrimFloat.add PrimFloat.mul pow10_neg
    mo_transform pinv
    make_indices_mo_restricted make_indices_mo_restricted_local_occ_all_virt
    form_ediff_terms make_masked_mat one_electron_mn_mats_to_ia_vecs form_results
    (map (λ op, operator_label (metadata op)))
    (flat_map (λ op, map (λ _, operator_label (metadata op)) (integrals_ao op)))
    to_upper
    init_indices form_rhs form_guess_rspvec save_to_disk
    solver matvec
    set_orbital_occupations set_fragment_occupations solver_init solver_run.

(** *** Inputs *)

Definition identity3 : mat float :=
  [[1; 0; 0]; [0; 1; 0]; [0; 0; 1]]%float.

Definition fock3 : mat float :=
  [[-1; 0; 0]; [0; 0.5; 0]; [0; 0; 1]]%float.

Definition dipole_x : mat float :=
  [[0; 1; 2]; [1; 0; 0]; [2; 0; 0]]%float.

Definition dipole : operator_spec float :=
  {| metadata := {| operator_label := "dipole" |};
     integrals_ao := [dipole_x];
     do_response := true;
     rhsvecs_alph := []; rhsvecs_beta := [];
     rspvecs_alph := []; rspvecs_beta := [];
     op_indices_mo := [] |}.

(** One fragment of three orbitals, one of them occupied in each channel. *)
Definition one_fragment : umat := [[0]; [3]; [1]; [1]].

Definition closed_shell : uvec := [1; 2; 1; 2].

Definition quiet : configurable :=
  {| cfg_print_level := 0; cfg_solver := "diis"; cfg_maxiter := 1; cfg_conv := 6;
     cfg_hamiltonian := "rpa"; cfg_spin := "singlet";
     cfg_do_orthogonalization_canonical := false;
     cfg_frgm_response_idx := 0;
     cfg_mask_ediff_mo := false; cfg_mask_form_results_mo := false;
     cfg_save := 0; cfg_read := 0; cfg_prefix := None |}.

Definition idle : solver :=
  {| occupations := []; fragments := []; channels := 0; coupling := None;
     ediffs := ([], []); frequency := 0%float; maxiter := 0 |}.

Definition fresh (ops : list (operator_spec float)) : world float solver :=
  {| w_results := []; w_operators := ops; w_solver := idle;
     w_disk := ∅; w_io := []; w_console := [] |}.

(** A coupling term proportional to the trial vector. *)
Definition scaled (k : float) : matvec := λ x _, map (PrimFloat.mul k) x.

(** An overlap with a pseudo-inverse other than itself. *)
Definition overlap3 : mat float :=
  [[1; 0; 0]; [0; 2; 0]; [0; 0; 4]]%float.

(** One fragment with two alpha and one beta electron. *)
Definition open_shell_fragment : umat := [[0]; [3]; [2]; [1]].

(** Response vectors of an earlier calculation, in the MO basis. *)
Definition checkpoint : gmap string (blob float) :=
  {[ "rspvecs_dipole_mo_alph.dat" := blob_cube [[[0.5; 0.5]%float]] ]}.

Definition restart (ops : list (operator_spec float)) : world float solver :=
  {| w_results := []; w_operators := ops; w_solver := idle;
     w_disk := checkpoint; w_io := []; w_console := [] |}.

(** A caller whose results tensor still holds an earlier value. *)
Definition stale : cube float := [[[1%float]]].

Definition reused (ops : list (operator_spec float)) : world float solver :=
  {| w_results := stale; w_operators := ops; w_solver := idle;
     w_disk := ∅; w_io := []; w_console := [] |}.

(** What the driver derives from [closed_shell] and one coefficient
    block, and from the inputs above with the overlap [overlap3]. *)
Definition closed_shell_shapes : shapes :=
  {| nden := 1; norb := 3; tot_n_slices := 1;
     nocc_alph := 1; nvirt_alph := 2; nov_alph := 2;
     nocc_beta := 1; nvirt_beta := 2; nov_beta := 2 |}.

Definition closed_shell_prepared : prepared :=
  {| operator_labels := ["dipole"]; component_labels := ["dipole"];
     C_occ_alph := [[1; 0; 0]]%float;
     C_virt_alph := [[0; 1; 0]; [0; 0; 1]]%float;
     C_occ_beta := []; C_virt_beta := [];
     indices_mo_alph := [0; 1]; indices_mo_beta := [0; 1];
     ediff_alph := [[1.5; 0]; [0; 2]]%float; ediff_beta := [] |}.

End Reference.

(** * Properties of the driver *)

Section Properties.

Context {scalar : Type} {E : collaborators scalar}.

Local Abbreviation world := (world scalar solver_state).

(** ** Reasoning about [M] *)

Lemma bind_unfold {A B} (m : M A) (k : A → M B) (w : world) :
  (m ≫= k) w =
  match m w with
  | (Ok a, w') => k a w'
  | (Fail e, w') => (Fail e, w')
  end.
Proof. reflexivity. Qed.

Lemma bind_ok {A B} (m : M A) (k : A → M B) (w w' : world) a :
  m w = (Ok a, w') → (m ≫= k) w = k a w'.
Proof. intros H. rewrite bind_unfold, H. reflexivity. Qed.

Lemma bind_fail {A B} (m : M A) (k : A → M B) (w w' : world) e :
  m w = (Fail e, w') → (m ≫= k) w = (Fail e, w').
Proof. intros H. rewrite bind_unfold, H. reflexivity. Qed.

Lemma bind_inv_ok {A B} (m : M A) (k : A → M B) (w w2 : world) b :
  (m ≫= k) w = (Ok b, w2) →
  ∃ a w1, m w = (Ok a, w1) ∧ k a w1 = (Ok b, w2).
Proof.
  rewrite bind_unfold. destruct (m w) as [[a|e] w1]; intros H.
  - eauto.
  - discriminate.
Qed.

Lemma bind_inv {A B} (m : M A) (k : A → M B) (w w2 : world) r :
  (m ≫= k) w = (r, w2) →
  (∃ e, m w = (Fail e, w2) ∧ r = Fail e)
  ∨ ∃ a w1, m w = (Ok a, w1) ∧ k a w1 = (r, w2).
Proof.
  rewrite bind_unfold. destruct (m w) as [[a|e'] w1]; intros H.
  - right. eauto.
  - left. exists e'. split; congruence.
Qed.

(** ** Validation (lines 26-62) *)

Lemma closed_shell_products (n a b : Z) :
  uadd n a = uadd n b → umul n a = umul n b.
Proof.
  unfold uadd, umul, wrap, uword_modulus. intros H.
  assert (Ha : (a mod 2 ^ 64) = (b mod 2 ^ 64)).
  { replace a with ((n + a) - n) by lia. replace b with ((n + b) - n) by lia.
    rewrite (Zminus_mod (n + a)), (Zminus_mod (n + b)), H. reflexivity. }
  rewrite (Zmult_mod n a), (Zmult_mod n b), Ha. reflexivity.
Qed.

Lemma never_bind {A B} e (m : M A) (k : A → M B) :
  never e m → (∀ a, never e (k a)) → never e (m ≫= k).
Proof.
  intros Hm Hk w. rewrite bind_unfold. specialize (Hm w).
  destruct (m w) as [[a|e'] w1]; simpl in *.
  - apply Hk.
  - exact Hm.
Qed.

Lemma never_ret {A} e (a : A) : never e (mret a).
Proof. intros w. discriminate. Qed.

Lemma never_throw {A} e e' : e' ≠ e → never e (throw (A := A) e').
Proof. intros H w. simpl. congruence. Qed.

Lemma never_assert e b expr : assertion_failed expr ≠ e → never e (assert b expr).
Proof.
  intros H. unfold assert. destruct b; [apply never_ret | by apply never_throw].
Qed.

Lemma never_when e b m : never e m → never e (when b m).
Proof. intros H. unfold when. destruct b; [exact H | apply never_ret]. Qed.

Lemma never_lift {A} e (r : result A) : failure_of r ≠ Some e → never e (lift r).
Proof. intros H w. exact H. Qed.

Lemma never_total {A} e (m : M A) :
  (∀ w, ∃ a w', m w = (Ok a, w')) → never e m.
Proof. intros H w. destruct (H w) as (a & w' & ->). discriminate. Qed.

Lemma uvec_at_never v i expr : never (assertion_failed expr) (lift (uvec_at v i)).
Proof.
  apply never_lift. unfold uvec_at. destruct (v !! i); discriminate.
Qed.

Lemma check_inputs_closed_shell (C : cube scalar) occupations (omega : list scalar) :
  never closed_shell_assertion (check_inputs C occupations omega).
Proof.
  unfold check_inputs, closed_shell_assertion.
  apply never_bind; [by apply never_assert | intros _].
  apply never_bind; [by apply never_total; eauto | intros ops].
  apply never_bind; [by apply never_when, never_throw | intros _].
  apply never_bind; [by apply never_when, never_throw | intros _].
  apply never_bind; [by apply never_assert | intros _].
  apply never_bind; [apply uvec_at_never | intros na].
  apply never_bind; [apply uvec_at_never | intros va]. intros w. rewrite bind_unfold.
  unfold assert at 1. destruct (Z.eqb_spec (Z.of_nat (cube_n_cols C)) (uadd na va)) as [Ha|];
    [|simpl; discriminate].
  simpl. revert w.
  apply never_bind; [apply uvec_at_never | intros nb].
  apply never_bind; [apply uvec_at_never | intros vb].
  intros w. rewrite bind_unfold.
  unfold assert at 1. destruct (Z.eqb_spec (Z.of_nat (cube_n_cols C)) (uadd nb vb)) as [Hb|];
    [|simpl; discriminate].
  simpl. revert w. apply never_bind; [|intros _; apply never_ret].
  unfold when. destruct (Z.eqb_spec na nb) as [->|]; [|apply never_ret].
  unfold assert. rewrite (closed_shell_products nb va vb) by congruence.
  rewrite Z.eqb_refl. apply never_ret.
Qed.

Lemma never_lift_exception {A} expr (r : result A) :
  throws_only r → never (assertion_failed expr) (lift r).
Proof. intros H w. destruct r as [a|e]; simpl; [discriminate|]. by destruct e. Qed.

Lemma cube_slice_throws (c : cube scalar) k : throws_only (cube_slice c k).
Proof. unfold cube_slice. by destruct (c !! k). Qed.

Lemma cube_cols_throws (c : cube scalar) a b s : throws_only (cube_cols c a b s).
Proof. unfold cube_cols. destruct (c !! s); [|done]. by case_match. Qed.

Lemma cube_set_slice_throws (c : cube scalar) f m : throws_only (cube_set_slice c f m).
Proof. unfold cube_set_slice. destruct (c !! f); [|done]. by case_match. Qed.

Lemma umat_col_throws m j : throws_only (umat_col m j).
Proof. unfold umat_col. by destruct (m !! j). Qed.

Lemma vector_at_throws {A} (v : list A) i : throws_only (vector_at v i).
Proof. unfold vector_at. by case_match. Qed.

Lemma slice_coefficients_throws (C : cube scalar) sh :
  throws_only (slice_coefficients C sh).
Proof.
  unfold slice_coefficients.
  repeat match goal with
         | |- context [cube_cols ?c ?a ?b ?s] =>
             let H := fresh in
             pose proof (cube_cols_throws c a b s) as H;
             destruct (cube_cols c a b s); [clear H | exact H]
         | |- context [if ?b then _ else _] => destruct b
         end; done.
Qed.

Lemma restricted_indices_throws fo cfg : throws_only (restricted_indices fo cfg).
Proof.
  unfold restricted_indices.
  repeat match goal with
         | |- context [umat_col ?m ?j] =>
             let H := fresh in
             pose proof (umat_col_throws m j) as H;
             destruct (umat_col m j); [clear H | exact H]
         | |- context [vector_at ?v ?i] =>
             let H := fresh in
             pose proof (vector_at_throws v i) as H;
             destruct (vector_at v i); [clear H | exact H]
         | |- context [if ?b then _ else _] => destruct b
         end; done.
Qed.

Lemma store_slices_throws sh f (rf ra rb : cube scalar) :
  throws_only (store_slices sh f rf ra rb).
Proof.
  unfold store_slices.
  repeat match goal with
         | |- context [cube_slice ?c ?k] =>
             let H := fresh in
             pose proof (cube_slice_throws c k) as H;
             destruct (cube_slice c k); [clear H | exact H]
         | |- context [cube_set_slice ?c ?k ?m] =>
             let H := fresh in
             pose proof (cube_set_slice_throws c k m) as H;
             destruct (cube_set_slice c k m); [clear H | exact H]
         | |- context [if ?b then _ else _] => destruct b
         end; done.
Qed.

Lemma never_each {A B} e (body : A → M B) l :
  (∀ x, never e (body x)) → never e (each body l).
Proof.
  intros H. induction l as [|x l IH]; simpl.
  - apply never_ret.
  - apply never_bind; [apply H | intros y].
    apply never_bind; [apply IH | intros ys]. apply never_ret.
Qed.

Lemma never_for_operators e body :
  (∀ op, never e (body op)) → never e (for_operators body).
Proof.
  intros H. unfold for_operators.
  apply never_bind; [by apply never_total; eauto | intros ops].
  apply never_bind; [by apply never_each | intros ops'].
  apply never_total; eauto.
Qed.

(** One step of a proof that a computation never asserts. *)
Ltac never_step :=
  lazymatch goal with
  | |- never _ (_ ≫= _) => apply never_bind; [|intros ?]
  | |- never _ (mret _) => apply never_ret
  | |- never _ (when _ _) => apply never_when
  | |- never _ (throw _) => apply never_throw; discriminate
  | |- never _ (for_operators _) => apply never_for_operators; intros ?
  | |- never _ (lift (cube_slice _ _)) =>
      apply never_lift_exception, cube_slice_throws
  | |- never _ (lift (slice_coefficients _ _)) =>
      apply never_lift_exception, slice_coefficients_throws
  | |- never _ (lift (restricted_indices _ _)) =>
      apply never_lift_exception, restricted_indices_throws
  | |- never _ (lift (store_slices _ _ _ _ _)) =>
      apply never_lift_exception, store_slices_throws
  | |- never _ (print _) => apply never_total; eauto
  | |- never _ (opened _) => apply never_total; eauto
  | |- never _ (with_disk _) => apply never_total; eauto
  | |- never _ (with_solver _) => apply never_total; eauto
  | |- never _ get_operators => apply never_total; eauto
  | |- never _ get_results => apply never_total; eauto
  | |- never _ (set_results _) => apply never_total; eauto
  | |- never _ (file_cube _) => apply never_total; eauto
  | |- never _ (if ?b then _ else _) => destruct b
  | |- never _ (match ?x with _ => _ end) => destruct x
  | |- never _ (let '(_, _) := ?x in _) => destruct x
  end.

Lemma prepare_never_asserts expr (C : cube scalar) fo F S omega cfg sh :
  never (assertion_failed expr) (prepare C fo F S omega cfg sh).
Proof.
  unfold prepare, transform_to_mo, orthogonalize_canonical, restrict_and_build,
    save_mat.
  repeat never_step.
Qed.

Lemma start_operators_never_asserts expr (C : cube scalar) fo occ cfg sh pr :
  never (assertion_failed expr) (start_operators C fo occ cfg sh pr).
Proof.
  unfold start_operators, read_rspvecs, load_cube. repeat never_step.
Qed.

Lemma run_solver_total mv (C : cube scalar) cfg pr frequency (w : world) :
  ∃ w', run_solver mv C cfg pr frequency w = (Ok tt, w').
Proof. unfold run_solver. destruct (solver_run _ _). eauto. Qed.

Lemma run_solver_never e mv (C : cube scalar) cfg pr frequency :
  never e (run_solver mv C cfg pr frequency).
Proof.
  apply never_total. intros w.
  destruct (run_solver_total mv C cfg pr frequency w) as [w' ->]. eauto.
Qed.

Lemma frequency_step_never_asserts expr mv (C : cube scalar) cfg sh pr f
    frequency ra rb :
  never (assertion_failed expr) (frequency_step mv C cfg sh pr f frequency ra rb).
Proof.
  unfold frequency_step, frequency_results, form_guesses, guess_operator,
    print_uncoupled, save_operators.
  repeat first [ apply run_solver_never | never_step ].
Qed.

Lemma frequency_loop_never_asserts expr mv (C : cube scalar) cfg sh pr omega :
  ∀ f ra rb,
    never (assertion_failed expr) (frequency_loop mv C cfg sh pr f omega ra rb).
Proof.
  induction omega as [|frequency rest IH]; intros f ra rb; simpl.
  - apply never_ret.
  - apply never_bind; [apply frequency_step_never_asserts | intros [ra' rb']].
    apply IH.
Qed.

(** ** C9: the closed-shell assertion *)

Lemma solve_never_fails_closed_shell mv (C : cube scalar) fo occupations F S
    (omega : list scalar) cfg :
  never closed_shell_assertion
        (solve_linear_response mv C fo occupations F S omega cfg).
Proof.
  unfold solve_linear_response, channel_tensors.
  apply never_bind.
  - apply never_bind; [apply check_inputs_closed_shell | intros sh].
    apply never_bind; [apply prepare_never_asserts | intros pr].
    apply never_bind; [apply start_operators_never_asserts | intros _].
    apply never_bind; [apply frequency_loop_never_asserts | intros r].
    apply never_ret.
  - intros [[sh pr] [ra rb]]. repeat never_step.
Qed.

(** C9.  With four non-negative occupation numbers and
    [norb = nocc + nvirt] in both channels, equal occupied counts give
    equal rotation-space sizes, in exact arithmetic and in the 64-bit
    arithmetic of the driver; and no call stops on the closed-shell
    assertion of line 61. *)
Theorem closed_shell_assertion_unreachable mv (C : cube scalar) fo F S
    (omega : list scalar) cfg (w : world) (na va nb vb : Z) :
  0 ≤ na → 0 ≤ va → 0 ≤ nb → 0 ≤ vb →
  Z.of_nat (cube_n_cols C) = na + va →
  Z.of_nat (cube_n_cols C) = nb + vb →
  (na = nb → na * va = nb * vb ∧ umul na va = umul nb vb)
  ∧ failure_of (solve_linear_response mv C fo [na; va; nb; vb] F S omega cfg w).1
    ≠ Some closed_shell_assertion.
Proof.
  intros _ _ _ _ Ha Hb. split.
  - intros ->. assert (va = vb) as -> by lia. done.
  - apply solve_never_fails_closed_shell.
Qed.

(** ** C3: empty frequency or operator list *)

(** C3.  With an empty frequency list or an empty operator list the call
    throws the run-time error of lines 28-31 and leaves the caller's
    results tensor, and everything else, as it was.  The occupation
    vector has its four entries: line 26 asserts so before the lists are
    looked at. *)
Theorem empty_input_rejected mv (C : cube scalar) fo occupations F S
    (omega : list scalar) cfg (w : world) :
  length occupations = 4%nat →
  omega = [] ∨ w_operators w = [] →
  solve_linear_response mv C fo occupations F S omega cfg w =
  (Fail (runtime_error match omega with
                       | [] => "Supply one or more frequencies."
                       | _ => "Supply one or more operators."
                       end), w).
Proof.
  intros Hocc Hempty.
  cbv beta delta [solve_linear_response channel_tensors check_inputs
                  mbind M_bind mret M_ret assert when throw get_operators].
  rewrite (bool_decide_eq_true_2 (length occupations = 4%nat)) by exact Hocc.
  cbv beta iota.
  destruct omega as [|frequency rest]; [reflexivity|].
  destruct Hempty as [?| ->]; [discriminate|]. reflexivity.
Qed.

(** ** The frequency loop (lines 273-344) *)

Ltac bind_ok_in H :=
  let a := fresh "a" in
  let w := fresh "w" in
  let Ha := fresh "H" in
  apply bind_inv_ok in H as (a & w & Ha & H).

Lemma lift_inv {A} (r : result A) (w w' : world) a :
  lift r w = (Ok a, w') → r = Ok a ∧ w' = w.
Proof. unfold lift. intros H. by inversion H. Qed.

Lemma ret_inv {A} (a b : A) (w w' : world) :
  (mret a : M A) w = (Ok b, w') → b = a ∧ w' = w.
Proof. intros H. by inversion H. Qed.

Lemma cube_slice_ok (c : cube scalar) k m :
  cube_slice c k = Ok m → c !! k = Some m.
Proof. unfold cube_slice. destruct (c !! k); intros H; by inversion H. Qed.

Lemma cube_set_slice_ok (c c' : cube scalar) f m :
  cube_set_slice c f m = Ok c' →
  (∃ old, c !! f = Some old ∧ same_size old m = true) ∧ c' = <[f := m]> c.
Proof.
  unfold cube_set_slice. destruct (c !! f) as [old|] eqn:Hf; [|discriminate].
  destruct (same_size old m) eqn:Hsize; [|discriminate]. intros H. inversion H.
  eauto.
Qed.

Lemma cube_set_slice_fits (c : cube scalar) f m :
  fits c f m → cube_set_slice c f m = Ok (<[f := m]> c).
Proof. intros (old & Hold & Hsize). unfold cube_set_slice. by rewrite Hold, Hsize. Qed.

Lemma store_slices_ok sh f (rf ra rb ra' rb' : cube scalar) :
  store_slices sh f rf ra rb = Ok (ra', rb') →
  (∃ m0, rf !! 0%nat = Some m0 ∧ fits ra f m0 ∧ ra' = <[f := m0]> ra)
  ∧ if two_channels sh
    then ∃ m1, rf !! 1%nat = Some m1 ∧ fits rb f m1 ∧ rb' = <[f := m1]> rb
    else rb' = rb.
Proof.
  unfold store_slices.
  destruct (cube_slice rf 0) as [m0|] eqn:H0; [|discriminate].
  destruct (cube_set_slice ra f m0) as [ra1|] eqn:Ha; [|discriminate].
  apply cube_slice_ok in H0. apply cube_set_slice_ok in Ha as [Hfit ->].
  destruct (two_channels sh).
  - destruct (cube_slice rf 1) as [m1|] eqn:H1; [|discriminate].
    destruct (cube_set_slice rb f m1) as [rb1|] eqn:Hb; [|discriminate].
    apply cube_slice_ok in H1. apply cube_set_slice_ok in Hb as [Hfit' ->].
    intros H. inversion H. subst. eauto 10.
  - intros H. inversion H. subst. eauto 10.
Qed.

Lemma stored_nil s f (acc : cube scalar) : stored s f acc acc [].
Proof.
  exists []. split_and!; [constructor | done |]. simpl.
  by rewrite Nat.add_0_r, take_drop.
Qed.

Lemma stored_cons s f (acc acc' : cube scalar) m rf rfs :
  rf !! s = Some m → fits acc f m →
  stored s (S f) (<[f := m]> acc) acc' rfs →
  stored s f acc acc' (rf :: rfs).
Proof.
  intros Hm Hfit (slices & Hall & Hfits & ->). unfold fits, cube in *.
  assert (Hf : (f < length acc)%nat).
  { destruct Hfit as (old & Hold & _). by eapply lookup_lt_Some. }
  exists (m :: slices). split_and!.
  - by constructor.
  - intros [|j] m' Hj; simpl in Hj.
    + inversion Hj; subst. by rewrite Nat.add_0_r.
    + destruct (Hfits j m' Hj) as (old & Hold & Hsize).
      rewrite list_lookup_insert_ne in Hold by lia.
      exists old. split; [|done]. by replace (f + S j)%nat with (S f + j)%nat by lia.
  - rewrite (take_S_r _ f m) by (by apply list_lookup_insert_eq).
    rewrite take_insert_ge by lia.
    rewrite drop_insert_lt by lia.
    simpl. rewrite <- app_assoc. simpl.
    by replace (f + S (length slices))%nat with (S (f + length slices))%nat by lia.
Qed.

Lemma frequency_loop_tensors mv (C : cube scalar) cfg sh pr omega :
  ∀ f ra rb (w : world) ra' rb' w',
    frequency_loop mv C cfg sh pr f omega ra rb w = (Ok (ra', rb'), w') →
    ∃ rfs,
      frequency_tensors mv C cfg sh pr omega w = (Ok rfs, w')
      ∧ length rfs = length omega
      ∧ stored 0 f ra ra' rfs
      ∧ if two_channels sh then stored 1 f rb rb' rfs else rb' = rb.
Proof.
  induction omega as [|frequency rest IH]; intros f ra rb w ra' rb' w' H.
  - simpl in H. apply ret_inv in H as [Heq ->]. inversion Heq; subst.
    exists []. repeat split; try apply stored_nil.
    destruct (two_channels sh); [apply stored_nil | done].
  - simpl in H. apply bind_inv_ok in H as ([ra1 rb1] & w1 & Hstep & Hloop).
    unfold frequency_step in Hstep.
    apply bind_inv_ok in Hstep as (rf & w2 & Hrf & Hstep).
    apply bind_inv_ok in Hstep as (r & w3 & Hstore & Hstep).
    apply lift_inv in Hstore as [Hstore ->].
    apply bind_inv_ok in Hstep as ([] & w4 & Hsave & Hstep).
    apply ret_inv in Hstep as [<- ->].
    apply IH in Hloop as (rfs & Hrfs & Hlen & Ha & Hb).
    apply store_slices_ok in Hstore as [(m0 & Hm0 & Hf & ->) Hbeta].
    exists (rf :: rfs). repeat split.
    + unfold frequency_tensors. simpl.
      rewrite (bind_ok _ _ _ _ _ (eq_trans (bind_ok _ _ _ _ _ Hrf)
                                           (bind_ok _ _ _ _ _ Hsave))).
      change (each _ rest) with (frequency_tensors mv C cfg sh pr rest).
      by rewrite (bind_ok _ _ _ _ _ Hrfs).
    + simpl. by rewrite Hlen.
    + by eapply stored_cons.
    + destruct (two_channels sh).
      * destruct Hbeta as (m1 & Hm1 & Hf' & ->). by eapply stored_cons.
      * by subst.
Qed.

Lemma check_inputs_ok (C : cube scalar) occupations (omega : list scalar)
    (w w' : world) sh :
  check_inputs C occupations omega w = (Ok sh, w') →
  w' = w
  ∧ nden sh = length C
  ∧ (length C = 1%nat ∨ length C = 2%nat)
  ∧ omega ≠ [] ∧ w_operators w ≠ []
  ∧ norb sh = cube_n_cols C
  ∧ tot_n_slices sh
    = sum_list_with (λ op, cube_n_slices (integrals_ao op)) (w_operators w)
  ∧ occupations = [nocc_alph sh; nvirt_alph sh; nocc_beta sh; nvirt_beta sh]
  ∧ nov_alph sh = umul (nocc_alph sh) (nvirt_alph sh)
  ∧ nov_beta sh = umul (nocc_beta sh) (nvirt_beta sh).
Proof.
  cbv beta delta [check_inputs mbind M_bind mret M_ret assert when throw lift
                  get_operators uvec_at].
  intros H.
  destruct (bool_decide_reflect (length occupations = 4%nat)) as [Hocc|];
    [|discriminate].
  destruct occupations as [|na [|va [|nb [|vb [|]]]]]; try discriminate.
  cbn beta iota in H. simpl lookup in H. cbn beta iota in H.
  destruct omega as [|frequency rest]; [discriminate|].
  destruct (w_operators w) as [|op ops] eqn:Hops; [discriminate|].
  simpl in H.
  destruct (bool_decide_reflect (cube_n_slices C = 1%nat)) as [H1|H1];
  destruct (bool_decide_reflect (cube_n_slices C = 2%nat)) as [H2|H2];
    simpl in H; try discriminate;
  destruct (Z.of_nat (cube_n_cols C) =? uadd na va); try discriminate;
  destruct (Z.of_nat (cube_n_cols C) =? uadd nb vb); try discriminate;
  destruct (na =? nb); try discriminate;
  try (destruct (umul na va =? umul nb vb); try discriminate);
  inversion H; subst; simpl; unfold cube_n_slices in *;
  repeat split; auto; try discriminate.
Qed.

(** ** C2: combination of the spin channels (lines 346-351) *)

Lemma stored_all s (acc acc' : cube scalar) rfs :
  length acc = length rfs → stored s 0 acc acc' rfs →
  Forall2 (λ m rf, rf !! s = Some m) acc' rfs.
Proof.
  intros Hlen (slices & Hall & _ & ->). simpl.
  rewrite drop_ge, app_nil_r; [done|].
  apply Forall2_length in Hall. lia.
Qed.

Lemma channel_tensors_by_frequency mv (C : cube scalar) fo occupations F S
    omega cfg (w w1 : world) sh pr ra rb :
  channel_tensors mv C fo occupations F S omega cfg w = (Ok (sh, pr, (ra, rb)), w1) →
  ∃ rfs,
    tensors_by_frequency mv C fo occupations F S omega cfg w = (Ok (sh, rfs), w1)
    ∧ length rfs = length omega
    ∧ Forall2 (λ m rf, rf !! 0%nat = Some m) ra rfs
    ∧ if two_channels sh
      then Forall2 (λ m rf, rf !! 1%nat = Some m) rb rfs
      else rb = [].
Proof.
  unfold channel_tensors, tensors_by_frequency. intros H.
  apply bind_inv_ok in H as (sh' & w2 & Hcheck & H).
  apply bind_inv_ok in H as (pr' & w3 & Hprep & H).
  apply bind_inv_ok in H as ([] & w4 & Hstart & H).
  apply bind_inv_ok in H as ([ra' rb'] & w5 & Hloop & H).
  apply ret_inv in H as [Heq ->]. injection Heq as <- <- <- <-.
  apply frequency_loop_tensors in Hloop as (rfs & Hrfs & Hlen & Ha & Hb).
  exists rfs.
  rewrite (bind_ok _ _ _ _ _ Hcheck), (bind_ok _ _ _ _ _ Hprep),
    (bind_ok _ _ _ _ _ Hstart), (bind_ok _ _ _ _ _ Hrfs).
  repeat split; [done| |].
  - apply stored_all in Ha; [done|].
    unfold cube_new. by rewrite length_replicate.
  - destruct (two_channels sh); [|done].
    apply stored_all in Hb; [done|].
    unfold cube_new. by rewrite length_replicate.
Qed.

(** C2.  When the call returns, the frequency loop has produced one
    tensor per frequency, in order; with one coefficient slice the result
    is the sequence of their alpha slices, with two it is twice the sum
    of the alpha and the beta slices, element by element. *)
Theorem results_combine_channels mv (C : cube scalar) fo occupations F S
    omega cfg (w w' : world) :
  solve_linear_response mv C fo occupations F S omega cfg w = (Ok tt, w') →
  ∃ sh rfs w1 results_alph results_beta,
    tensors_by_frequency mv C fo occupations F S omega cfg w = (Ok (sh, rfs), w1)
    ∧ length rfs = length omega
    ∧ Forall2 (λ m rf, rf !! 0%nat = Some m) results_alph rfs
    ∧ (length C = 1%nat ∨ length C = 2%nat)
    ∧ (length C = 1%nat → w_results w' = results_alph)
    ∧ (length C = 2%nat →
       Forall2 (λ m rf, rf !! 1%nat = Some m) results_beta rfs
       ∧ w_results w'
         = cube_scale smul stwo (cube_add sadd results_alph results_beta)).
Proof.
  unfold solve_linear_response. intros H.
  apply bind_inv_ok in H as ([[sh pr] [ra rb]] & w1 & Hct & H).
  pose proof Hct as Hct'.
  apply channel_tensors_by_frequency in Hct as (rfs & Htf & Hlen & Ha & Hb).
  unfold channel_tensors in Hct'.
  apply bind_inv_ok in Hct' as (sh' & w2 & Hcheck & Hct').
  assert (sh' = sh) as ->.
  { apply bind_inv_ok in Hct' as (? & ? & _ & Hct').
    apply bind_inv_ok in Hct' as (? & ? & _ & Hct').
    apply bind_inv_ok in Hct' as (? & ? & _ & Hct').
    apply ret_inv in Hct' as [Heq _]. by inversion Heq. }
  apply check_inputs_ok in Hcheck as (_ & Hnden & Hchan & _).
  cbv beta delta [mbind M_bind get_results set_results when print mret M_ret] in H.
  exists sh, rfs, w1, ra, rb. repeat split; try done.
  - intros H1. unfold combine_channels in H. rewrite Hnden in H.
    rewrite (bool_decide_eq_true_2 _ H1) in H.
    rewrite bool_decide_eq_false_2 in H by lia.
    destruct (1 <=? cfg_print_level cfg); by inversion H.
  - unfold two_channels in Hb. rewrite Hnden in Hb.
    by rewrite (bool_decide_eq_true_2 _ H0) in Hb.
  - unfold combine_channels in H. rewrite Hnden in H.
    rewrite (bool_decide_eq_true_2 (length C = 2%nat)) in H by done.
    destruct (1 <=? cfg_print_level cfg); by inversion H.
Qed.

(** ** What a computation does to the world

    [effect R m]: whenever [m] stops, normally or not, the worlds before
    and after are related by [R]. *)

Section Effects.

Context (R : relation world) `{!PreOrder R}.

Lemma effect_ret {A} (a : A) : effect R (mret a).
Proof. intros w r w' H. inversion H. reflexivity. Qed.

Lemma effect_throw {A} e : effect R (throw (A := A) e).
Proof. intros w r w' H. inversion H. reflexivity. Qed.

Lemma effect_lift {A} (x : result A) : effect R (lift x).
Proof. intros w r w' H. inversion H. reflexivity. Qed.

Lemma effect_bind {A B} (m : M A) (k : A → M B) :
  effect R m → (∀ a, effect R (k a)) → effect R (m ≫= k).
Proof.
  intros Hm Hk w r w' H. apply bind_inv in H as [(e & H & _)|(a & w1 & H1 & H2)].
  - by eapply Hm.
  - etrans; [by eapply Hm | by eapply Hk].
Qed.

Lemma effect_assert b expr : effect R (assert b expr).
Proof. unfold assert. destruct b; [apply effect_ret | apply effect_throw]. Qed.

Lemma effect_when b m : effect R m → effect R (when b m).
Proof. intros H. unfold when. destruct b; [exact H | apply effect_ret]. Qed.

Lemma effect_each {A B} (body : A → M B) l :
  (∀ x, x ∈ l → effect R (body x)) → effect R (each body l).
Proof.
  induction l as [|x l IH]; intros H; simpl.
  - apply effect_ret.
  - apply effect_bind; [apply H; left | intros y].
    apply effect_bind; [apply IH; intros; apply H; by right | intros ys].
    apply effect_ret.
Qed.

Lemma effect_get_operators : effect R get_operators.
Proof. intros w r w' H. inversion H. reflexivity. Qed.

Lemma effect_get_results : effect R get_results.
Proof. intros w r w' H. inversion H. reflexivity. Qed.

Lemma effect_file_cube name : effect R (file_cube name).
Proof. intros w r w' H. inversion H. reflexivity. Qed.

End Effects.

(** *** The files the driver opens *)

#[local] Instance opens_preorder P : PreOrder (opens P).
Proof.
  split.
  - intros w. exists []. by rewrite app_nil_r.
  - intros w1 w2 w3 (l1 & H1 & Hl1) (l2 & H2 & Hl2). exists (l1 ++ l2)%list.
    split; [by rewrite H2, H1, app_assoc | by apply Forall_app].
Qed.

Lemma opens_same_io P (w w' : world) : w_io w' = w_io w → opens P w w'.
Proof. intros H. exists []. by rewrite app_nil_r. Qed.

Lemma opens_opened P a : P a → effect (opens P) (opened a).
Proof.
  intros Ha w r w' H. inversion H. exists [a]. split; [done | by constructor].
Qed.

Lemma opens_quiet {A} P (m : M A) :
  (∀ w r w', m w = (r, w') → w_io w' = w_io w) → effect (opens P) m.
Proof. intros H w r w' Hm. apply opens_same_io. by eapply H. Qed.

Lemma opens_print P p : effect (opens P) (print p).
Proof. apply opens_quiet. intros w r w' H. by inversion H. Qed.

Lemma opens_with_disk P f : effect (opens P) (with_disk f).
Proof. apply opens_quiet. intros w r w' H. by inversion H. Qed.

Lemma opens_with_solver P f : effect (opens P) (with_solver f).
Proof. apply opens_quiet. intros w r w' H. by inversion H. Qed.

Lemma opens_set_operators P ops : effect (opens P) (set_operators ops).
Proof. apply opens_quiet. intros w r w' H. by inversion H. Qed.

Lemma opens_set_results P c : effect (opens P) (set_results c).
Proof. apply opens_quiet. intros w r w' H. by inversion H. Qed.

Lemma opens_run_solver P mv (C : cube scalar) cfg pr frequency :
  effect (opens P) (run_solver mv C cfg pr frequency).
Proof.
  apply opens_quiet. intros w r w' H. unfold run_solver in H.
  destruct (solver_run _ _). by inversion H.
Qed.

#[local] Instance keeps_preorder {X} (part : world → X) : PreOrder (keeps part).
Proof. split; [by intros w | intros w1 w2 w3 H1 H2; unfold keeps in *; congruence]. Qed.

Lemma run_solver_keeps {X} (part : world → X) mv (C : cube scalar) cfg pr frequency :
  (∀ w ops s, part {| w_results := w_results w; w_operators := ops; w_solver := s;
                      w_disk := w_disk w; w_io := w_io w;
                      w_console := w_console w |} = part w) →
  effect (keeps part) (run_solver mv C cfg pr frequency).
Proof.
  intros Hpart w r w' H. unfold run_solver in H.
  destruct (solver_run _ _). inversion H. apply Hpart.
Qed.

(** One step of a proof of [effect R m], [prim] closing the primitives. *)
Ltac effect_step prim :=
  lazymatch goal with
  | |- effect _ (_ ≫= _) => apply effect_bind; [apply _ | | intros ?]
  | |- effect _ (mret _) => apply effect_ret; apply _
  | |- effect _ (when false _) => apply effect_ret; apply _
  | |- effect _ (when _ _) => apply effect_when; [apply _ |]
  | |- effect _ (throw _) => apply effect_throw; apply _
  | |- effect _ (assert _ _) => apply effect_assert; apply _
  | |- effect _ (lift _) => apply effect_lift; apply _
  | |- effect _ get_operators => apply effect_get_operators; apply _
  | |- effect _ get_results => apply effect_get_results; apply _
  | |- effect _ (file_cube _) => apply effect_file_cube; apply _
  | |- effect _ (for_operators _) =>
      unfold for_operators;
      apply effect_bind; [apply _ | apply effect_get_operators; apply _ | intros ?];
      apply effect_bind; [apply _ | apply effect_each; [apply _ | intros ? _] | intros ?]
  | |- effect _ (if ?b then _ else _) => destruct b
  | |- effect _ (match ?x with _ => _ end) => destruct x
  | |- effect _ (let '(_, _) := ?x in _) => destruct x
  | |- effect _ _ => prim
  end.

Ltac opens_prim :=
  idtac;
  lazymatch goal with
  | |- effect _ (run_solver _ _ _ _ _) => apply opens_run_solver
  | |- effect _ _ =>
      let H := fresh in
      intros ? ? ? H; inversion H; apply opens_same_io; reflexivity
  end.

Ltac keeps_prim :=
  idtac;
  lazymatch goal with
  | |- effect _ (run_solver _ _ _ _ _) => apply run_solver_keeps; reflexivity
  | |- effect _ _ =>
      let H := fresh in
      intros ? ? ? H; inversion H; reflexivity
  end.

Lemma check_inputs_opens P (C : cube scalar) occupations omega :
  effect (opens P) (check_inputs C occupations omega).
Proof. unfold check_inputs. repeat effect_step opens_prim. Qed.

Lemma frequency_loop_opens P mv (C : cube scalar) cfg sh pr omega :
  ∀ f ra rb, effect (opens P) (frequency_loop mv C cfg sh pr f omega ra rb).
Proof.
  induction omega as [|frequency rest IH]; intros f ra rb; simpl.
  - effect_step opens_prim.
  - effect_step opens_prim; [|destruct a; apply IH].
    unfold frequency_step, frequency_results, form_guesses, print_uncoupled,
      save_operators.
    repeat effect_step opens_prim.
Qed.

Lemma prepare_keeps_operators (C : cube scalar) fo F S omega cfg sh :
  effect (keeps w_operators) (prepare C fo F S omega cfg sh).
Proof.
  unfold prepare, transform_to_mo, orthogonalize_canonical, restrict_and_build,
    save_mat.
  repeat effect_step keeps_prim.
Qed.

Lemma check_inputs_keeps {X} (part : world → X) (C : cube scalar) occupations omega :
  effect (keeps part) (check_inputs C occupations omega).
Proof. unfold check_inputs. repeat effect_step keeps_prim. Qed.

(** ** C6: names of the checkpoint files (lines 210-220, 236-258) *)

Lemma prepare_opens (C : cube scalar) fo F S omega cfg sh labels :
  effect (opens (checkpoint_access cfg labels)) (prepare C fo F S omega cfg sh).
Proof.
  unfold prepare, transform_to_mo, orthogonalize_canonical, restrict_and_build,
    save_mat.
  destruct (Z.ltb_spec 0 (cfg_save cfg)) as [Hsave|Hsave].
  - repeat effect_step ltac:(idtac;
      first [ apply opens_opened; split; [exact Hsave|];
              first [ exists "alph"; split; [set_solver | reflexivity]
                    | exists "beta"; split; [set_solver | reflexivity] ]
            | opens_prim ]).
  - repeat effect_step opens_prim.
Qed.

Lemma read_rspvecs_opens cfg sh pr labels (op : operator_spec scalar) :
  operator_label (metadata op) ∈ labels →
  effect (opens (checkpoint_access cfg labels)) (read_rspvecs cfg sh pr op).
Proof.
  intros Hlabel. unfold read_rspvecs, load_cube.
  assert (Hmo : cfg_read cfg = 1 → ∀ spin, spin ∈ ["alph"; "beta"] →
            checkpoint_access cfg labels
              (file_read (rspvecs_file (operator_label (metadata op)) "mo" spin))).
  { intros ? spin ?. exists (operator_label (metadata op)), "mo", spin. split_and!; auto. }
  assert (Hao : cfg_read cfg = 2 → ∀ spin, spin ∈ ["alph"; "beta"] →
            checkpoint_access cfg labels
              (file_read (rspvecs_file (operator_label (metadata op)) "ao" spin))).
  { intros ? spin ?. exists (operator_label (metadata op)), "ao", spin. split_and!; auto. }
  destruct (Z.eqb_spec (cfg_read cfg) 1) as [H1|H1];
    destruct (Z.eqb_spec (cfg_read cfg) 2) as [H2|H2];
    repeat effect_step ltac:(idtac;
      first [ apply opens_opened;
              first [ apply Hmo; [exact H1 | set_solver]
                    | apply Hao; [exact H2 | set_solver] ]
            | opens_prim ]).
Qed.

Lemma each_pure {A B} (g : A → B) (l : list A) (w : world) :
  each (λ x, mret (g x)) l w = (Ok (map g l), w).
Proof.
  induction l as [|x l IH]; [reflexivity|]. simpl.
  rewrite bind_unfold. simpl. rewrite bind_unfold, IH. reflexivity.
Qed.

Lemma for_operators_pure (g : operator_spec scalar → operator_spec scalar)
    (w : world) :
  for_operators (λ op, mret (g op)) w =
  (Ok tt, {| w_results := w_results w; w_operators := map g (w_operators w);
             w_solver := w_solver w; w_disk := w_disk w; w_io := w_io w;
             w_console := w_console w |}).
Proof.
  unfold for_operators. rewrite bind_unfold. simpl.
  rewrite bind_unfold, each_pure. reflexivity.
Qed.

Lemma for_operators_opens P body (w w' : world) r :
  (∀ op, op ∈ w_operators w → effect (opens P) (body op)) →
  for_operators body w = (r, w') → opens P w w'.
Proof.
  intros Hbody. unfold for_operators. rewrite bind_unfold. simpl.
  intros H. revert H.
  generalize (effect_each (opens P) body (w_operators w) Hbody).
  intros Heach H. apply bind_inv in H as [(e & H & _)|(ops' & w1 & H1 & H)].
  - by eapply Heach.
  - etrans; [by eapply Heach|]. inversion H. by apply opens_same_io.
Qed.

Lemma start_operators_opens (C : cube scalar) fo occupations cfg sh pr
    (w w' : world) r :
  start_operators C fo occupations cfg sh pr w = (r, w') →
  opens (checkpoint_access cfg (started_labels C fo occupations cfg (w_operators w)))
        w w'.
Proof.
  unfold start_operators. intros H.
  rewrite bind_unfold, for_operators_pure in H.
  apply bind_inv in H as [(e & H & _)|([] & w1 & H1 & H)].
  - eapply for_operators_opens in H.
    + destruct H as (l & Hio & Hl). exists l. split; [exact Hio | exact Hl].
    + intros op Hop. apply read_rspvecs_opens. simpl in Hop.
      unfold started_labels. set_solver.
  - eapply for_operators_opens in H1.
    + etrans; [destruct H1 as (l & Hio & Hl); exists l; split;
               [exact Hio | exact Hl]|].
      revert H. apply effect_bind; [apply _ | opens_prim | intros ?; opens_prim].
    + intros op Hop. apply read_rspvecs_opens. simpl in Hop.
      unfold started_labels. set_solver.
Qed.

(** C6, as the code has it.  Every file the driver opens in a call is
    one of: an energy-difference file [prefix + "ediff_" + spin + ".dat"],
    written only when [save > 0]; a response-vector file
    ["rspvecs_" + label + "_" + basis + "_" + spin + ".dat"], without the
    prefix, read with basis ["mo"] in mode 1 and ["ao"] in mode 2, for the
    label of one of the operators. *)
Theorem checkpoint_file_names mv (C : cube scalar) fo occupations F S omega cfg
    (w : world) :
  opens (checkpoint_access cfg (started_labels C fo occupations cfg (w_operators w)))
        w (solve_linear_response mv C fo occupations F S omega cfg w).2.
Proof.
  set (P := checkpoint_access cfg _).
  destruct (solve_linear_response _ _ _ _ _ _ _ _ w) as [r w'] eqn:H. simpl.
  unfold solve_linear_response in H.
  assert (Htensors : ∀ x w1,
            channel_tensors mv C fo occupations F S omega cfg w = (x, w1) →
            opens P w w1).
  { clear H. intros x w1 H. unfold channel_tensors in H.
    apply bind_inv in H as [(e & H & _)|(sh & w2 & H2 & H)];
      [by eapply check_inputs_opens|].
    apply (check_inputs_keeps id) in H2 as Hw. unfold keeps in Hw. simpl in Hw.
    subst w2. clear H2.
    apply bind_inv in H as [(e & H & _)|(pr & w3 & H3 & H)];
      [by eapply prepare_opens|].
    pose proof (prepare_keeps_operators _ _ _ _ _ _ _ _ _ _ H3) as Hops.
    unfold keeps in Hops.
    etrans; [by eapply prepare_opens|].
    apply bind_inv in H as [(e & H & _)|([] & w4 & H4 & H)].
    { apply start_operators_opens in H. by rewrite Hops in H. }
    apply start_operators_opens in H4. rewrite Hops in H4.
    etrans; [exact H4|].
    apply bind_inv in H as [(e & H & _)|(rr & w5 & H5 & H)];
      [by eapply frequency_loop_opens|].
    etrans; [by eapply frequency_loop_opens|]. inversion H. reflexivity. }
  apply bind_inv in H as [(e & H & _)|(x & w1 & H1 & H)].
  - by eapply Htensors.
  - etrans; [by eapply Htensors|].
    destruct x as [[sh pr] [ra rb]].
    match type of H with
    | ?m _ = _ =>
        assert (Hm : effect (opens P) m) by (repeat effect_step opens_prim)
    end.
    by eapply Hm.
Qed.

(** ** Two runs side by side

    [agree b w1 w2]: two worlds that differ at most in what was printed,
    and in the solver object unless [b]. *)

Lemma agree_refl b (w : world) : agree b w w.
Proof. by repeat split. Qed.

Section Simulation.

Context (W : relation world).

Lemma sim_ret {A} (RA : relation A) a1 a2 : RA a1 a2 → sim W RA (mret a1) (mret a2).
Proof. intros H w1 w2 Hw. by split. Qed.

Lemma sim_throw {A} (RA : relation A) e : sim W RA (throw e) (throw e).
Proof. intros w1 w2 Hw. by split. Qed.

Lemma sim_lift {A} (RA : relation A) (r : result A) :
  (∀ a, r = Ok a → RA a a) → sim W RA (lift r) (lift r).
Proof. intros H w1 w2 Hw. unfold lift. destruct r; split; auto. Qed.

Lemma sim_bind {A B} (RA : relation A) (RB : relation B)
    (m1 m2 : M A) (k1 k2 : A → M B) :
  sim W RA m1 m2 → (∀ a1 a2, RA a1 a2 → sim W RB (k1 a1) (k2 a2)) →
  sim W RB (m1 ≫= k1) (m2 ≫= k2).
Proof.
  intros Hm Hk w1 w2 Hw. rewrite !bind_unfold. specialize (Hm w1 w2 Hw).
  destruct (m1 w1) as [[a1|e1] w1'], (m2 w2) as [[a2|e2] w2']; try done.
  destruct Hm as [Ha Hw']. by apply Hk.
Qed.

Lemma sim_assert b expr : sim W eq (assert b expr) (assert b expr).
Proof. unfold assert. destruct b; [by apply sim_ret | apply sim_throw]. Qed.

Lemma sim_when b (m1 m2 : M unit) :
  sim W eq m1 m2 → sim W eq (when b m1) (when b m2).
Proof. intros H. unfold when. destruct b; [exact H | by apply sim_ret]. Qed.

Lemma sim_each {A B} (body1 body2 : A → M B) l :
  (∀ x, sim W eq (body1 x) (body2 x)) → sim W eq (each body1 l) (each body2 l).
Proof.
  intros H. induction l as [|x l IH]; simpl.
  - by apply sim_ret.
  - eapply sim_bind; [apply H | intros y ? <-].
    eapply sim_bind; [apply IH | intros ys ? <-]. by apply sim_ret.
Qed.

End Simulation.

Section Agreement.

Context (b : bool).

Lemma sim_get_operators : sim (agree b) eq get_operators get_operators.
Proof. intros w1 w2 Hw. split; [apply Hw | exact Hw]. Qed.

Lemma sim_get_results : sim (agree b) eq get_results get_results.
Proof. intros w1 w2 Hw. split; [apply Hw | exact Hw]. Qed.

Lemma sim_set_operators ops :
  sim (agree b) eq (set_operators ops) (set_operators ops).
Proof. intros w1 w2 (? & ? & ? & ? & ?). by repeat split. Qed.

Lemma sim_set_results c : sim (agree b) eq (set_results c) (set_results c).
Proof. intros w1 w2 (? & ? & ? & ? & ?). by repeat split. Qed.

Lemma sim_with_disk f : sim (agree b) eq (with_disk f) (with_disk f).
Proof.
  intros w1 w2 (? & ? & Hd & ? & ?). repeat split; simpl; try done.
  by rewrite Hd.
Qed.

Lemma sim_with_solver f : sim (agree b) eq (with_solver f) (with_solver f).
Proof.
  intros w1 w2 (? & ? & ? & ? & Hs). repeat split; simpl; try done.
  intros Hb. by rewrite (Hs Hb).
Qed.

Lemma sim_opened a : sim (agree b) eq (opened a) (opened a).
Proof.
  intros w1 w2 (? & ? & ? & Hio & ?). repeat split; simpl; try done.
  by rewrite Hio.
Qed.

Lemma sim_file_cube name : sim (agree b) eq (file_cube name) (file_cube name).
Proof.
  intros w1 w2 Hw. unfold file_cube. pose proof Hw as (? & ? & Hd & ? & ?).
  rewrite Hd. by split.
Qed.

Lemma sim_silent (m1 m2 : M unit) :
  silent m1 → silent m2 → sim (agree b) eq m1 m2.
Proof.
  intros H1 H2 w1 w2 Hw. destruct (H1 w1) as [c1 ->], (H2 w2) as [c2 ->].
  split; [done | exact Hw].
Qed.

End Agreement.

Lemma silent_ret : silent (mret tt).
Proof. intros w. exists (w_console w). by destruct w. Qed.

Lemma silent_print p : silent (print p).
Proof. intros w. by eexists. Qed.

Lemma silent_bind (m : M unit) (k : unit → M unit) :
  silent m → (∀ u, silent (k u)) → silent (m ≫= k).
Proof.
  intros Hm Hk w. destruct (Hm w) as [c Hc]. rewrite bind_unfold, Hc.
  destruct (Hk tt {| w_results := w_results w; w_operators := w_operators w;
                     w_solver := w_solver w; w_disk := w_disk w;
                     w_io := w_io w; w_console := c |}) as [c' Hc'].
  exists c'. exact Hc'.
Qed.

Lemma silent_when b m : silent m → silent (when b m).
Proof. intros H. unfold when. destruct b; [exact H | apply silent_ret]. Qed.

Ltac silent_tac :=
  repeat first
    [ apply silent_ret | apply silent_print
    | apply silent_when | apply silent_bind; [|intros ?] ].

(** One step of a proof that two runs of the same code agree. *)
Ltac sim_step :=
  lazymatch goal with
  | |- sim _ _ (when _ (print _)) (when _ (print _)) =>
      apply sim_silent; silent_tac
  | |- sim _ _ (when _ (print _ ≫= _)) (when _ (print _ ≫= _)) =>
      apply sim_silent; silent_tac
  | |- sim _ _ (_ ≫= _) (_ ≫= _) => apply (sim_bind _ eq); [|intros ? ? <-]
  | |- sim _ _ (mret _) (mret _) => apply sim_ret; try reflexivity
  | |- sim _ _ (when _ _) (when _ _) => apply sim_when
  | |- sim _ _ (throw _) (throw _) => apply sim_throw
  | |- sim _ _ (assert _ _) (assert _ _) => apply sim_assert
  | |- sim _ _ (lift _) (lift _) => apply sim_lift; intros; reflexivity
  | |- sim _ _ get_operators get_operators => apply sim_get_operators
  | |- sim _ _ get_results get_results => apply sim_get_results
  | |- sim _ _ (set_operators _) (set_operators _) => apply sim_set_operators
  | |- sim _ _ (set_results _) (set_results _) => apply sim_set_results
  | |- sim _ _ (with_disk _) (with_disk _) => apply sim_with_disk
  | |- sim _ _ (with_solver _) (with_solver _) => apply sim_with_solver
  | |- sim _ _ (opened _) (opened _) => apply sim_opened
  | |- sim _ _ (file_cube _) (file_cube _) => apply sim_file_cube
  | |- sim _ _ (for_operators _) (for_operators _) =>
      unfold for_operators;
      apply (sim_bind _ eq); [apply sim_get_operators | intros ? ? <-];
      apply (sim_bind _ eq); [apply sim_each; intros ? | intros ? ? <-]
  | |- sim _ _ (if ?b then _ else _) (if ?b then _ else _) => destruct b
  | |- sim _ _ (match ?x with _ => _ end) (match ?x with _ => _ end) => destruct x
  | |- sim _ _ (let '(_, _) := ?x in _) (let '(_, _) := ?x in _) => destruct x
  end.

Lemma check_inputs_sim b (C : cube scalar) occupations omega :
  sim (agree b) eq (check_inputs C occupations omega)
                   (check_inputs C occupations omega).
Proof. unfold check_inputs. repeat sim_step. Qed.

Lemma restrict_and_build_sim b fo cfg sh mo :
  sim (agree b) eq (restrict_and_build fo cfg sh mo)
                   (restrict_and_build fo cfg sh mo).
Proof. unfold restrict_and_build, save_mat. repeat sim_step. Qed.

(** ** C8: the pseudo-inverses (lines 132-147, 180-186) *)

#[local] Instance agree_preorder b : PreOrder (agree b).
Proof.
  split; [intros w; apply agree_refl|].
  intros w1 w2 w3 (? & ? & ? & ? & Hs) (? & ? & ? & ? & Hs').
  repeat split; try congruence. intros Hb. by rewrite (Hs Hb), (Hs' Hb).
Qed.

#[local] Instance agree_symmetric b : Symmetric (agree b).
Proof.
  intros w1 w2 (? & ? & ? & ? & Hs). repeat split; try done.
  intros Hb. by rewrite (Hs Hb).
Qed.

Ltac agree_prim :=
  idtac;
  lazymatch goal with
  | |- effect _ _ =>
      let H := fresh in
      intros ? ? ? H; inversion H; repeat split
  end.

Lemma orthogonalize_canonical_prints S cfg sh mo :
  effect (agree true) (orthogonalize_canonical S cfg sh mo).
Proof. unfold orthogonalize_canonical. repeat effect_step agree_prim. Qed.

Lemma orthogonalize_canonical_computes S cfg sh mo (w w' : world) :
  cfg_do_orthogonalization_canonical cfg = true →
  orthogonalize_canonical S cfg sh mo w = (Ok tt, w') →
  is_Some (pinv S) ∧ is_Some (pinv (sigma_alph mo))
  ∧ (two_channels sh = true → is_Some (pinv (sigma_beta mo))).
Proof.
  unfold orthogonalize_canonical. intros ->. unfold when at 1.
  destruct (pinv S) as [S_inv|]; [|discriminate].
  destruct (pinv (sigma_alph mo)) as [sigma_inv|]; [|discriminate].
  destruct (two_channels sh); [|by eauto].
  destruct (pinv (sigma_beta mo)); [by eauto | discriminate].
Qed.

Lemma transform_to_mo_overlaps (C F : cube scalar) S omega cfg sh
    (w wa : world) mo :
  transform_to_mo C F S omega cfg sh w = (Ok mo, wa) →
  (∃ C0, C !! 0%nat = Some C0 ∧ sigma_alph mo = mo_transform C0 S)
  ∧ (two_channels sh = true →
     ∃ C1, C !! 1%nat = Some C1 ∧ sigma_beta mo = mo_transform C1 S).
Proof.
  intros H. unfold transform_to_mo in H. cbv zeta in H.
  apply bind_inv_ok in H as (ops & ? & _ & H).
  apply bind_inv_ok in H as (? & ? & _ & H).
  apply bind_inv_ok in H as ([[[? ?] ?] ?] & ? & _ & H).
  apply bind_inv_ok in H as (C0 & ? & HC0 & H).
  apply lift_inv in HC0 as [HC0 _]. apply cube_slice_ok in HC0.
  apply bind_inv_ok in H as (sb & ? & Hsb & H).
  do 3 apply bind_inv_ok in H as (? & ? & _ & H).
  apply ret_inv in H as [-> _]. simpl. split; [by exists C0|].
  intros Htwo. rewrite Htwo in Hsb.
  apply bind_inv_ok in Hsb as (C1 & ? & HC1 & Hsb).
  apply lift_inv in HC1 as [HC1 _]. apply cube_slice_ok in HC1.
  apply ret_inv in Hsb as [-> _]. by exists C1.
Qed.

(** C8, as the code has it.  With the flag set, a preparation that
    succeeds has computed the pseudo-inverses of [S] and of the MO
    overlap of each channel ([pinv] did not throw); its outcome
    (coefficient blocks, index sets, energy differences) and what it
    leaves behind, printing apart, are those of the preparation with the
    flag cleared and any function [p] whatever in place of [pinv]. *)
Theorem pseudo_inverses_not_consumed (p : mat scalar → option (mat scalar))
    (C : cube scalar) fo F S omega cfg sh (w w1 : world) pr :
  cfg_do_orthogonalization_canonical cfg = true →
  prepare C fo F S omega cfg sh w = (Ok pr, w1) →
  is_Some (pinv S)
  ∧ (∃ C0, C !! 0%nat = Some C0 ∧ is_Some (pinv (mo_transform C0 S)))
  ∧ (two_channels sh = true →
     ∃ C1, C !! 1%nat = Some C1 ∧ is_Some (pinv (mo_transform C1 S)))
  ∧ ∃ w2 : world,
      prepare (E := with_pinv p E) C fo F S omega
              (with_orthogonalization_canonical false cfg) sh w = (Ok pr, w2)
      ∧ agree true w1 w2.
Proof.
  intros Hflag H. unfold prepare in H.
  apply bind_inv_ok in H as (mo & wa & Hmo & H).
  apply bind_inv_ok in H as ([] & wb & Horth & Hbuild).
  pose proof (orthogonalize_canonical_computes _ _ _ _ _ _ Hflag Horth)
    as (HS & Ha & Hb).
  pose proof (transform_to_mo_overlaps _ _ _ _ _ _ _ _ _ Hmo)
    as [(C0 & HC0 & Hsa) Hsb].
  split; [exact HS|]. split; [exists C0; by rewrite <- Hsa|].
  split.
  { intros Htwo. destruct (Hsb Htwo) as (C1 & HC1 & Hs1).
    exists C1. rewrite <- Hs1. by auto. }
  apply orthogonalize_canonical_prints in Horth as Hprint.
  pose proof (restrict_and_build_sim true fo cfg sh mo wb wa) as Hsim.
  rewrite Hbuild in Hsim.
  destruct (restrict_and_build fo cfg sh mo wa) as [[pr'|e] w2] eqn:Hbuild';
    [|by exfalso; apply Hsim; symmetry].
  destruct Hsim as [<- Hw]; [by symmetry|].
  exists w2. split; [|exact Hw].
  unfold prepare.
  rewrite (bind_ok _ _ _ _ _
             (Hmo : transform_to_mo (E := with_pinv p E) C F S omega
                      (with_orthogonalization_canonical false cfg) sh w = _)).
  rewrite bind_unfold. exact Hbuild'.
Qed.

(** ** C10: the verbosity does not reach the results *)

Lemma shape_length (c : cube scalar) : length (shape c) = length c.
Proof. unfold shape. by rewrite length_map. Qed.

Lemma shape_cube_scale k (c : cube scalar) : shape (cube_scale smul k c) = shape c.
Proof.
  unfold shape, cube_scale, mat_scale. rewrite map_map. apply map_ext. intros m.
  rewrite map_map. apply map_ext. intros col. by rewrite length_map.
Qed.

Lemma shape_slice (c c' : cube scalar) k :
  shape c = shape c' → is_Some (c !! k) → is_Some (c' !! k).
Proof.
  intros Hs H. apply lookup_lt_is_Some. apply lookup_lt_is_Some in H.
  by rewrite <- (shape_length c'), <- Hs, shape_length.
Qed.

Lemma sim_strengthen {A} W (RA : relation A) (P : A → Prop) (m1 m2 : M A) :
  sim W RA m1 m2 → (∀ w a w', m1 w = (Ok a, w') → P a) →
  sim W (λ a b, RA a b ∧ P a) m1 m2.
Proof.
  intros Hsim HP w1 w2 Hw. specialize (Hsim w1 w2 Hw). specialize (HP w1).
  destruct (m1 w1) as [[a1|e1] w1'], (m2 w2) as [[a2|e2] w2']; try done.
  destruct Hsim. repeat split; eauto.
Qed.

Section Verbosity.

Hypothesis init_indices_quiet : ∀ fo pl cfg op,
  init_indices fo (with_print_level pl cfg) op = init_indices fo cfg op.
Hypothesis form_rhs_quiet : ∀ (C : cube scalar) occ pl cfg op,
  form_rhs C occ (with_print_level pl cfg) op = form_rhs C occ cfg op.
Hypothesis form_guess_rspvec_quiet : ∀ e frequency is_beta nov pl cfg op,
  form_guess_rspvec e frequency is_beta nov (with_print_level pl cfg) op
  = form_guess_rspvec e frequency is_beta nov cfg op.
Hypothesis solver_quiet : ∀ ops pl cfg mv (C : cube scalar) ea eb frequency mi cv s s',
  (solver_run (solver_init ops (with_print_level pl cfg) mv C ea eb frequency mi cv s) ops).2
  = (solver_run (solver_init ops cfg mv C ea eb frequency mi cv s') ops).2.
Hypothesis form_results_shape : ∀ buf ops mask,
  shape (form_results buf ops mask) = shape buf.
Hypothesis form_results_overwrites : ∀ buf buf' ops mask,
  shape buf = shape buf' → form_results buf ops mask = form_results buf' ops mask.

Context (pl1 pl2 : Z) (cfg : configurable).

Local Abbreviation cfg1 := (with_print_level pl1 cfg).
Local Abbreviation cfg2 := (with_print_level pl2 cfg).

Lemma energy_differences_verbosity pl sh Fa sa Fb sb ia ib :
  energy_differences sh (with_print_level pl cfg) Fa sa Fb sb ia ib
  = energy_differences sh cfg Fa sa Fb sb ia ib.
Proof. reflexivity. Qed.

Lemma prepare_verbosity (C : cube scalar) fo F S omega sh :
  sim (agree false) eq (prepare C fo F S omega cfg1 sh)
                       (prepare C fo F S omega cfg2 sh).
Proof.
  unfold prepare, transform_to_mo, orthogonalize_canonical, restrict_and_build,
    save_mat.
  cbn [with_print_level cfg_print_level cfg_solver cfg_maxiter cfg_conv
       cfg_hamiltonian cfg_spin cfg_do_orthogonalization_canonical
       cfg_frgm_response_idx cfg_mask_ediff_mo cfg_mask_form_results_mo
       cfg_save cfg_read cfg_prefix].
  repeat first [ rewrite !energy_differences_verbosity | sim_step ].
Qed.

Lemma start_operators_verbosity (C : cube scalar) fo occupations sh pr :
  sim (agree false) eq (start_operators C fo occupations cfg1 sh pr)
                       (start_operators C fo occupations cfg2 sh pr).
Proof.
  unfold start_operators, read_rspvecs, load_cube.
  cbn [with_print_level cfg_read].
  repeat first
    [ sim_step
    | by rewrite !form_rhs_quiet, !init_indices_quiet ].
Qed.

Lemma form_guesses_verbosity sh pr frequency :
  sim (agree false) eq (form_guesses cfg1 sh pr frequency)
                       (form_guesses cfg2 sh pr frequency).
Proof.
  unfold form_guesses, guess_operator.
  cbn [with_print_level cfg_read cfg_save].
  repeat first [ progress (cbv zeta; rewrite !form_guess_rspvec_quiet) | sim_step ].
Qed.

(** The diagnostic returns a buffer of the shape it was given and
    changes nothing but the console. *)
Lemma print_uncoupled_prints cfg' sh pr (rf : cube scalar) (w : world) :
  length rf = nden sh → (nden sh = 1%nat ∨ nden sh = 2%nat) →
  ∃ rf' c,
    print_uncoupled cfg' sh pr rf w
    = (Ok rf', {| w_results := w_results w; w_operators := w_operators w;
                  w_solver := w_solver w; w_disk := w_disk w;
                  w_io := w_io w; w_console := c |})
    ∧ shape rf' = shape rf.
Proof.
  intros Hlen Hnden. unfold print_uncoupled.
  destruct (1 <=? cfg_print_level cfg').
  2:{ exists rf, (w_console w). by destruct w. }
  rewrite bind_unfold. simpl.
  set (rf1 := form_results rf (w_operators w) (results_mask cfg' pr)).
  assert (Hshape : shape rf1 = shape rf) by apply form_results_shape.
  assert (Hlen1 : length rf1 = nden sh).
  { by rewrite <- shape_length, Hshape, shape_length. }
  destruct (rf1 !! 0%nat) as [m0|] eqn:H0.
  2:{ apply lookup_ge_None in H0. lia. }
  rewrite bind_unfold. unfold lift, cube_slice. rewrite H0.
  unfold two_channels. destruct (bool_decide_reflect (nden sh = 2%nat)) as [H2|H2].
  - destruct (rf1 !! 1%nat) as [m1|] eqn:H1.
    2:{ apply lookup_ge_None in H1. lia. }
    rewrite !bind_unfold. simpl.
    eexists _, _. split; [reflexivity|].
    by rewrite shape_cube_scale.
  - rewrite !bind_unfold. simpl. eexists _, _. split; [reflexivity | done].
Qed.

Lemma print_uncoupled_verbosity sh pr (rf : cube scalar) :
  length rf = nden sh → (nden sh = 1%nat ∨ nden sh = 2%nat) →
  sim (agree false) (λ a b, shape a = shape b)
      (print_uncoupled cfg1 sh pr rf) (print_uncoupled cfg2 sh pr rf).
Proof.
  intros Hlen Hnden w1 w2 Hw.
  destruct (print_uncoupled_prints cfg1 sh pr rf w1 Hlen Hnden)
    as (rf1 & c1 & -> & Hs1).
  destruct (print_uncoupled_prints cfg2 sh pr rf w2 Hlen Hnden)
    as (rf2 & c2 & -> & Hs2).
  split; [congruence | exact Hw].
Qed.

Lemma run_solver_verbosity mv (C : cube scalar) pr frequency :
  sim (agree false) eq (run_solver mv C cfg1 pr frequency)
                       (run_solver mv C cfg2 pr frequency).
Proof.
  intros w1 w2 (Hr & Hops & Hd & Hio & _). unfold run_solver.
  cbn [with_print_level cfg_maxiter cfg_conv].
  pose proof (solver_quiet (w_operators w1) pl1 cfg mv C (ediff_alph pr)
                (ediff_beta pr) frequency (cfg_maxiter cfg)
                (pow10_neg (cfg_conv cfg)) (w_solver w1) (w_solver w1)) as H1.
  pose proof (solver_quiet (w_operators w2) pl2 cfg mv C (ediff_alph pr)
                (ediff_beta pr) frequency (cfg_maxiter cfg)
                (pow10_neg (cfg_conv cfg)) (w_solver w2) (w_solver w1)) as H2.
  rewrite <- Hops in H2.
  destruct (solver_run (solver_init (w_operators w1) (with_print_level pl1 cfg) _ _ _ _ _ _ _ _) _)
    as [s1 ops1].
  rewrite <- Hops.
  destruct (solver_run (solver_init (w_operators w1) (with_print_level pl2 cfg) _ _ _ _ _ _ _ _) _)
    as [s2 ops2].
  simpl in *. split; [done|]. unfold agree. simpl.
  repeat split; try done. congruence.
Qed.

Lemma frequency_step_verbosity mv (C : cube scalar) sh pr f frequency ra rb :
  (nden sh = 1%nat ∨ nden sh = 2%nat) →
  sim (agree false) eq (frequency_step mv C cfg1 sh pr f frequency ra rb)
                       (frequency_step mv C cfg2 sh pr f frequency ra rb).
Proof.
  intros Hnden. unfold frequency_step, frequency_results, save_operators.
  apply (sim_bind _ eq); [|intros rf ? <-;
                           cbn [with_print_level cfg_save]; repeat sim_step].
  apply (sim_bind _ eq); [apply form_guesses_verbosity | intros [] ? <-].
  apply (sim_bind _ (λ a b, shape a = shape b)).
  { apply print_uncoupled_verbosity; [|done].
    unfold cube_new. by rewrite length_replicate. }
  intros rf1 rf2 Hshape.
  apply (sim_bind _ eq); [apply run_solver_verbosity | intros [] ? <-].
  apply (sim_bind _ eq); [apply sim_get_operators | intros ops ? <-].
  apply sim_ret. unfold results_mask.
  cbn [with_print_level cfg_mask_form_results_mo].
  by apply form_results_overwrites.
Qed.

Lemma frequency_loop_verbosity mv (C : cube scalar) sh pr omega :
  (nden sh = 1%nat ∨ nden sh = 2%nat) →
  ∀ f ra rb,
    sim (agree false) eq (frequency_loop mv C cfg1 sh pr f omega ra rb)
                         (frequency_loop mv C cfg2 sh pr f omega ra rb).
Proof.
  intros Hnden. induction omega as [|frequency rest IH]; intros f ra rb; simpl.
  - by apply sim_ret.
  - apply (sim_bind _ eq); [by apply frequency_step_verbosity|].
    intros [ra' rb'] ? <-. apply IH.
Qed.

Lemma solve_verbosity mv (C : cube scalar) fo occupations F S omega :
  sim (agree false) eq
      (solve_linear_response mv C fo occupations F S omega cfg1)
      (solve_linear_response mv C fo occupations F S omega cfg2).
Proof.
  unfold solve_linear_response, channel_tensors.
  apply (sim_bind _ eq).
  - apply (sim_bind _ (λ a b, a = b ∧ (nden a = 1%nat ∨ nden a = 2%nat))).
    { apply sim_strengthen; [apply check_inputs_sim|].
      intros w sh w' H. apply check_inputs_ok in H as (_ & -> & ? & _). done. }
    intros sh ? [<- Hnden].
    apply (sim_bind _ eq); [apply prepare_verbosity | intros pr ? <-].
    apply (sim_bind _ eq); [apply start_operators_verbosity | intros [] ? <-].
    apply (sim_bind _ eq); [by apply frequency_loop_verbosity | intros r ? <-].
    by apply sim_ret.
  - intros [[sh pr] [ra rb]] ? <-.
    cbn [with_print_level cfg_print_level]. repeat sim_step.
Qed.

End Verbosity.

(** Two calls that differ in the print level stop alike and leave the
    same results tensor, operators and files, whatever the collaborators
    are, provided they do not look at the print level, the solver's
    result does not depend on the solver object it starts on, and
    [form_results] assigns every entry of the cube it is given without
    changing its size. *)
Lemma verbosity_with_quiet_collaborators :
  (∀ fo pl cfg op,
     init_indices fo (with_print_level pl cfg) op = init_indices fo cfg op) →
  (∀ (C : cube scalar) occ pl cfg op,
     form_rhs C occ (with_print_level pl cfg) op = form_rhs C occ cfg op) →
  (∀ e frequency is_beta nov pl cfg op,
     form_guess_rspvec e frequency is_beta nov (with_print_level pl cfg) op
     = form_guess_rspvec e frequency is_beta nov cfg op) →
  (∀ ops pl cfg mv (C : cube scalar) ea eb frequency mi cv s s',
     (solver_run (solver_init ops (with_print_level pl cfg) mv C ea eb
                              frequency mi cv s) ops).2
     = (solver_run (solver_init ops cfg mv C ea eb frequency mi cv s') ops).2) →
  (∀ buf ops mask, shape (form_results buf ops mask) = shape buf) →
  (∀ buf buf' ops mask,
     shape buf = shape buf' → form_results buf ops mask = form_results buf' ops mask) →
  ∀ pl1 pl2 mv (C : cube scalar) fo occupations F S omega cfg (w : world),
    let run pl :=
      solve_linear_response mv C fo occupations F S omega
                            (with_print_level pl cfg) w in
    (run pl1).1 = (run pl2).1
    ∧ w_results (run pl1).2 = w_results (run pl2).2
    ∧ w_operators (run pl1).2 = w_operators (run pl2).2
    ∧ w_disk (run pl1).2 = w_disk (run pl2).2.
Proof.
  intros H1 H2 H3 H4 H5 H6 pl1 pl2 mv C fo occupations F S omega cfg w run.
  pose proof (solve_verbosity H1 H2 H3 H4 H5 H6 pl1 pl2 cfg mv C fo occupations
                F S omega w w (agree_refl false w)) as Hsim.
  fold (run pl1) (run pl2) in Hsim.
  destruct (run pl1) as [[[]|e1] w1], (run pl2) as [[[]|e2] w2]; try done;
    destruct Hsim as (Heq & Hr & Hops & Hd & _); simpl; by subst.
Qed.

(** ** The checkpoint read modes (lines 233-296) *)

Lemma logged_nil (w : world) : logged [] w = w.
Proof. unfold logged. rewrite app_nil_r. by destruct w. Qed.

Lemma logged_logged l1 l2 (w : world) :
  logged l2 (logged l1 w) = logged (l1 ++ l2) w.
Proof. unfold logged. simpl. by rewrite app_assoc. Qed.

Lemma load_cube_logged name (w : world) :
  load_cube name w = (Ok (disk_cube (w_disk w) name), logged [file_read name] w).
Proof. reflexivity. Qed.

Lemma read_rspvecs_by_mode cfg sh pr (op : operator_spec scalar) (w : world) :
  ∃ log,
    read_rspvecs cfg sh pr op w
    = (Ok (start_vectors cfg sh pr (w_disk w) op), logged log w).
Proof.
  unfold read_rspvecs, start_vectors, read_from_mo, read_from_ao.
  destruct (do_response op); [|exists []; by rewrite logged_nil].
  destruct (cfg_read cfg =? 1).
  - rewrite bind_unfold, bind_unfold, load_cube_logged. simpl.
    destruct (two_channels sh).
    + rewrite bind_unfold, load_cube_logged. simpl. rewrite logged_logged. by eexists.
    + by eexists.
  - destruct (cfg_read cfg =? 2).
    + rewrite bind_unfold, bind_unfold, load_cube_logged. simpl.
      destruct (two_channels sh).
      * rewrite bind_unfold, load_cube_logged. simpl. rewrite logged_logged. by eexists.
      * by eexists.
    + rewrite bind_unfold. simpl. destruct (two_channels sh);
        exists []; by rewrite logged_nil.
Qed.

Lemma each_read_rspvecs cfg sh pr (ops : list (operator_spec scalar)) (w : world) :
  ∃ log,
    each (read_rspvecs cfg sh pr) ops w
    = (Ok (map (start_vectors cfg sh pr (w_disk w)) ops), logged log w).
Proof.
  revert w. induction ops as [|op ops IH]; intros w; simpl.
  - exists []. by rewrite logged_nil.
  - destruct (read_rspvecs_by_mode cfg sh pr op w) as [l1 H1].
    rewrite bind_unfold, H1.
    destruct (IH (logged l1 w)) as [l2 H2].
    rewrite bind_unfold, H2. simpl. exists (l1 ++ l2)%list.
    by rewrite logged_logged.
Qed.

Lemma each_guess cfg sh pr frequency (ops : list (operator_spec scalar)) (w : world) :
  ∃ d,
    each (λ op, let op := guess_operator cfg sh pr frequency op in
                with_disk (save_to_disk (cfg_save cfg) true op);; mret op) ops w
    = (Ok (map (guess_operator cfg sh pr frequency) ops),
       {| w_results := w_results w; w_operators := w_operators w;
          w_solver := w_solver w; w_disk := d; w_io := w_io w;
          w_console := w_console w |}).
Proof.
  revert w. induction ops as [|op ops IH]; intros w; simpl.
  - exists (w_disk w). by destruct w.
  - rewrite !bind_unfold. simpl.
    match goal with
    | |- context [(_ ≫= _) ?w1] => destruct (IH w1) as [d Hd]
    end.
    cbv zeta in Hd. rewrite bind_unfold, Hd. simpl. by exists d.
Qed.

Lemma print_uncoupled_keeps_operators cfg sh pr (rf : cube scalar) :
  effect (keeps (λ w, (w_operators w, w_solver w))) (print_uncoupled cfg sh pr rf).
Proof. unfold print_uncoupled. repeat effect_step keeps_prim. Qed.

(** The steps of the read modes, one by one: what is read before the
    loop, the guess step in mode 0 and in any other mode, and the
    diagnostic, which leaves the operators alone. *)
Lemma read_mode_steps cfg sh pr (w : world) :
  (* what is read, by mode, before the loop *)
  (∀ (C : cube scalar) fo occupations, ∃ log s,
     start_operators C fo occupations cfg sh pr w
     = (Ok tt,
        {| w_results := w_results w;
           w_operators :=
             map (λ op, start_vectors cfg sh pr (w_disk w)
                          (form_rhs C occupations cfg (init_indices fo cfg op)))
                 (w_operators w);
           w_solver := s; w_disk := w_disk w;
           w_io := (w_io w ++ log)%list; w_console := w_console w |}))
  (* mode 0: the guess of every operator, at each frequency *)
  ∧ (cfg_read cfg = 0 → ∀ frequency, ∃ d,
       form_guesses cfg sh pr frequency w
       = (Ok tt,
          {| w_results := w_results w;
             w_operators := map (guess_operator cfg sh pr frequency) (w_operators w);
             w_solver := w_solver w; w_disk := d; w_io := w_io w;
             w_console := w_console w |}))
  (* any other mode: no guess *)
  ∧ (cfg_read cfg ≠ 0 → ∀ frequency,
       form_guesses cfg sh pr frequency w = (Ok tt, w))
  (* the solver is started on the operators as they then are *)
  ∧ (∀ (rf : cube scalar) r w',
       print_uncoupled cfg sh pr rf w = (r, w') →
       w_operators w' = w_operators w ∧ w_solver w' = w_solver w).
Proof.
  split_and!.
  - intros C fo occupations. unfold start_operators.
    rewrite bind_unfold, for_operators_pure.
    cbv beta delta [for_operators mbind M_bind get_operators set_operators
                    with_solver].
    cbn [w_operators w_disk w_results w_solver w_io w_console].
    match goal with
    | |- context [each _ ?ops ?w1] =>
        destruct (each_read_rspvecs cfg sh pr ops w1) as [log Hlog]; rewrite Hlog
    end.
    cbn. rewrite map_map. by eexists log, _.
  - intros Hread frequency. unfold form_guesses. rewrite Hread.
    change (0 =? 0) with true. unfold when, for_operators.
    rewrite bind_unfold. unfold get_operators at 1. rewrite bind_unfold.
    destruct (each_guess cfg sh pr frequency (w_operators w) w) as [d Hd].
    cbv zeta in Hd. rewrite Hd. cbn. by exists d.
  - intros Hread frequency. unfold form_guesses.
    destruct (Z.eqb_spec (cfg_read cfg) 0); [done | reflexivity].
  - intros rf r w' H. apply print_uncoupled_keeps_operators in H.
    unfold keeps in H. by inversion H.
Qed.

(** ** C5: the frequencies one after the other (lines 273-344) *)

Lemma sim_same_get_operators : sim same_operators eq get_operators get_operators.
Proof. intros w1 w2 Hw. split; [exact Hw | exact Hw]. Qed.

Lemma sim_same_print p1 p2 : sim same_operators eq (print p1) (print p2).
Proof. intros w1 w2 Hw. by split. Qed.

Lemma check_inputs_frequencies (C : cube scalar) occupations
    (omega1 omega2 : list scalar) (w : world) :
  omega1 ≠ [] → omega2 ≠ [] →
  check_inputs C occupations omega1 w = check_inputs C occupations omega2 w.
Proof.
  intros H1 H2. unfold check_inputs.
  destruct omega1 as [|x1 l1]; [done|]. destruct omega2 as [|x2 l2]; [done|].
  reflexivity.
Qed.

Lemma prepare_frequencies (C : cube scalar) fo F S omega1 omega2 cfg sh :
  sim (agree true) eq (prepare C fo F S omega1 cfg sh)
                      (prepare C fo F S omega2 cfg sh).
Proof.
  unfold prepare, transform_to_mo, orthogonalize_canonical, restrict_and_build,
    save_mat.
  repeat sim_step.
Qed.

Lemma start_operators_sim b (C : cube scalar) fo occupations cfg sh pr :
  sim (agree b) eq (start_operators C fo occupations cfg sh pr)
                   (start_operators C fo occupations cfg sh pr).
Proof. unfold start_operators, read_rspvecs, load_cube. repeat sim_step. Qed.

Lemma save_operators_keeps_operators cfg (w w' : world) r :
  save_operators cfg w = (r, w') → r = Ok tt ∧ w_operators w' = w_operators w.
Proof.
  unfold save_operators, for_operators. rewrite bind_unfold.
  unfold get_operators at 1. rewrite bind_unfold.
  assert (Heach : ∀ ops (w0 : world), ∃ d,
            each (λ op, with_disk (save_to_disk (cfg_save cfg) false op);; mret op)
                 ops w0
            = (Ok ops, {| w_results := w_results w0; w_operators := w_operators w0;
                          w_solver := w_solver w0; w_disk := d; w_io := w_io w0;
                          w_console := w_console w0 |})).
  { induction ops as [|op ops IH]; intros w0; simpl.
    - exists (w_disk w0). by destruct w0.
    - rewrite !bind_unfold. simpl.
      match goal with
      | |- context [(_ ≫= _) ?w1] => destruct (IH w1) as [d Hd]
      end.
      rewrite bind_unfold, Hd. simpl. by exists d. }
  destruct (Heach (w_operators w) w) as [d ->]. simpl.
  intros H. by inversion H.
Qed.

Section Frequencies.

Context (mv : matvec_i) (C : cube scalar) (cfg : configurable)
        (sh : shapes) (pr : @prepared scalar).

Hypothesis read_level_0 : cfg_read cfg = 0.

Hypothesis solver_stateless : ∀ ops frequency s s',
  (solver_run (solver_init ops cfg mv C (ediff_alph pr) (ediff_beta pr) frequency
                           (cfg_maxiter cfg) (pow10_neg (cfg_conv cfg)) s) ops).2
  = (solver_run (solver_init ops cfg mv C (ediff_alph pr) (ediff_beta pr) frequency
                             (cfg_maxiter cfg) (pow10_neg (cfg_conv cfg)) s') ops).2.

Hypothesis guess_overwrites_guess : ∀ frequency frequency' op,
  guess_operator cfg sh pr frequency' (guess_operator cfg sh pr frequency op)
  = guess_operator cfg sh pr frequency' op.

Hypothesis guess_overwrites_solver : ∀ frequency frequency' ops s,
  map (guess_operator cfg sh pr frequency')
      (solver_run (solver_init ops cfg mv C (ediff_alph pr) (ediff_beta pr) frequency
                               (cfg_maxiter cfg) (pow10_neg (cfg_conv cfg)) s) ops).2
  = map (guess_operator cfg sh pr frequency') ops.

Lemma print_uncoupled_same (rf : cube scalar) :
  sim same_operators eq (print_uncoupled cfg sh pr rf) (print_uncoupled cfg sh pr rf).
Proof.
  unfold print_uncoupled. destruct (1 <=? cfg_print_level cfg); [|by apply sim_ret].
  apply (sim_bind _ eq); [apply sim_same_get_operators | intros ops ? <-].
  apply (sim_bind _ eq); [apply sim_lift; by intros | intros m0 ? <-].
  apply (sim_bind _ eq).
  { destruct (two_channels sh); [|by apply sim_ret].
    apply (sim_bind _ eq); [apply sim_lift; by intros | intros m1 ? <-].
    by apply sim_ret. }
  intros [m rf'] ? <-.
  apply (sim_bind _ eq); [apply sim_same_print | intros [] ? <-]. by apply sim_ret.
Qed.

Lemma run_solver_same frequency :
  sim same_operators eq (run_solver mv C cfg pr frequency)
                        (run_solver mv C cfg pr frequency).
Proof.
  intros w1 w2 Hw. unfold run_solver, same_operators in *. rewrite <- Hw.
  pose proof (solver_stateless (w_operators w1) frequency (w_solver w1) (w_solver w2))
    as Hs.
  destruct (solver_run (solver_init _ _ _ _ _ _ _ _ _ (w_solver w1)) _) as [s1 ops1].
  destruct (solver_run (solver_init _ _ _ _ _ _ _ _ _ (w_solver w2)) _) as [s2 ops2].
  simpl in *. by split.
Qed.

Lemma form_guesses_at frequency (w : world) :
  ∃ d,
    form_guesses cfg sh pr frequency w
    = (Ok tt,
       {| w_results := w_results w;
          w_operators := map (guess_operator cfg sh pr frequency) (w_operators w);
          w_solver := w_solver w; w_disk := d; w_io := w_io w;
          w_console := w_console w |}).
Proof.
  unfold form_guesses. rewrite read_level_0.
  change (0 =? 0) with true. unfold when, for_operators.
  rewrite bind_unfold. unfold get_operators at 1. rewrite bind_unfold.
  destruct (each_guess cfg sh pr frequency (w_operators w) w) as [d Hd].
  cbv zeta in Hd. rewrite Hd. cbn. by exists d.
Qed.

Lemma solved_tensor_same frequency (rf0 : cube scalar) :
  let solved : M (cube scalar) :=
    rf ← print_uncoupled cfg sh pr rf0;
    run_solver mv C cfg pr frequency;;
    operators ← get_operators;
    mret (form_results rf operators (results_mask cfg pr)) in
  sim same_operators eq solved solved.
Proof.
  intros solved. unfold solved.
  apply (sim_bind _ eq); [apply print_uncoupled_same | intros rf ? <-].
  apply (sim_bind _ eq); [apply run_solver_same | intros [] ? <-].
  apply (sim_bind _ eq); [apply sim_same_get_operators | intros ops ? <-].
  by apply sim_ret.
Qed.

(** The tensor of a frequency and the operators it leaves are decided by
    the guess of that frequency. *)
Lemma frequency_results_determined frequency (w1 w2 : world) :
  map (guess_operator cfg sh pr frequency) (w_operators w1)
  = map (guess_operator cfg sh pr frequency) (w_operators w2) →
  match frequency_results mv C cfg sh pr frequency w1,
        frequency_results mv C cfg sh pr frequency w2 with
  | (Ok rf1, w1'), (Ok rf2, w2') => rf1 = rf2 ∧ same_operators w1' w2'
  | (Fail e1, w1'), (Fail e2, w2') => e1 = e2 ∧ same_operators w1' w2'
  | _, _ => False
  end.
Proof.
  intros Hguess. unfold frequency_results.
  destruct (form_guesses_at frequency w1) as [d1 H1].
  destruct (form_guesses_at frequency w2) as [d2 H2].
  rewrite !bind_unfold, H1, H2.
  apply (solved_tensor_same frequency). exact Hguess.
Qed.

Lemma frequency_results_operators frequency (w w' : world) rf :
  frequency_results mv C cfg sh pr frequency w = (Ok rf, w') →
  ∃ s,
    w_operators w'
    = (solver_run
         (solver_init (map (guess_operator cfg sh pr frequency) (w_operators w))
                      cfg mv C (ediff_alph pr) (ediff_beta pr) frequency
                      (cfg_maxiter cfg) (pow10_neg (cfg_conv cfg)) s)
         (map (guess_operator cfg sh pr frequency) (w_operators w))).2.
Proof.
  unfold frequency_results. intros H.
  destruct (form_guesses_at frequency w) as [d Hg].
  rewrite bind_unfold, Hg in H.
  apply bind_inv_ok in H as (rf1 & w1 & Hprint & H).
  apply print_uncoupled_keeps_operators in Hprint. unfold keeps in Hprint.
  simpl in Hprint. injection Hprint as Hops Hsolver.
  apply bind_inv_ok in H as ([] & w2 & Hrun & H).
  apply bind_inv_ok in H as (ops & w3 & Hget & H).
  apply ret_inv in H as [_ ->]. inversion Hget; subst; clear Hget.
  unfold run_solver in Hrun. rewrite Hops in Hrun.
  exists (w_solver w1).
  destruct (solver_run _ _) as [s' ops'] eqn:Hs. by inversion Hrun.
Qed.

Lemma frequency_results_guess_as ops0 frequency (w w' : world) rf :
  guess_as cfg sh pr ops0 w →
  frequency_results mv C cfg sh pr frequency w = (Ok rf, w') →
  guess_as cfg sh pr ops0 w'.
Proof.
  intros Hinv H frequency'.
  apply frequency_results_operators in H as [s ->].
  rewrite guess_overwrites_solver, map_map.
  rewrite <- (Hinv frequency'). apply map_ext. intros op.
  apply guess_overwrites_guess.
Qed.

Lemma frequency_tensors_nth ops0 omega :
  ∀ (w w' : world) rfs,
    guess_as cfg sh pr ops0 w →
    frequency_tensors mv C cfg sh pr omega w = (Ok rfs, w') →
    ∀ f frequency rf (w2 : world),
      omega !! f = Some frequency → rfs !! f = Some rf → guess_as cfg sh pr ops0 w2 →
      (frequency_results mv C cfg sh pr frequency w2).1 = Ok rf.
Proof.
  induction omega as [|frequency0 rest IH];
    intros w w' rfs Hinv H f frequency rf w2 Hf Hrf Hinv2; [done|].
  unfold frequency_tensors in H. simpl in H.
  apply bind_inv_ok in H as (rf0 & w1 & Hstep & H).
  apply bind_inv_ok in Hstep as (rf0' & w0 & Hres & Hstep).
  apply bind_inv_ok in Hstep as ([] & w0' & Hsave & Hstep).
  apply ret_inv in Hstep as [<- ->].
  apply bind_inv_ok in H as (rfs' & w3 & Hrest & H).
  apply ret_inv in H as [-> ->].
  destruct f as [|f]; simpl in Hf, Hrf.
  - inversion Hf; inversion Hrf; subst.
    pose proof (frequency_results_determined frequency w w2) as Hdet.
    rewrite Hres in Hdet.
    destruct (frequency_results mv C cfg sh pr frequency w2) as [[rf2|e] w2'];
      simpl.
    + destruct Hdet as [-> _]; [|done]. by rewrite Hinv, Hinv2.
    + exfalso. apply Hdet. by rewrite Hinv, Hinv2.
  - eapply (IH w0' w3 rfs'); try done.
    apply save_operators_keeps_operators in Hsave as [_ Hops].
    intros frequency'. rewrite Hops.
    by apply (frequency_results_guess_as ops0 frequency0 w w0 rf0).
Qed.

End Frequencies.

Lemma stored_lookup s (acc acc' : cube scalar) rfs f rf :
  stored s 0 acc acc' rfs → rfs !! f = Some rf →
  ∃ m, rf !! s = Some m ∧ acc' !! f = Some m ∧ fits acc f m.
Proof.
  intros (slices & Hall & Hfits & ->) Hrf.
  destruct (Forall2_lookup_r _ _ _ _ _ Hall Hrf) as (m & Hm & Hs).
  exists m. split_and!; [done | | by apply (Hfits f m)].
  simpl. by apply lookup_app_l_Some.
Qed.

Lemma store_slices_fits sh f (rf ra rb : cube scalar) m0 :
  rf !! 0%nat = Some m0 → fits ra f m0 →
  (if two_channels sh
   then ∃ m1, rf !! 1%nat = Some m1 ∧ fits rb f m1
   else True) →
  store_slices sh f rf ra rb
  = Ok (<[f := m0]> ra,
        if two_channels sh
        then match rf !! 1%nat with Some m1 => <[f := m1]> rb | None => rb end
        else rb).
Proof.
  intros H0 Ha Hb. unfold store_slices, cube_slice. rewrite H0.
  rewrite (cube_set_slice_fits _ _ _ Ha).
  destruct (two_channels sh); [|done].
  destruct Hb as (m1 & H1 & Hb). rewrite H1. by rewrite (cube_set_slice_fits _ _ _ Hb).
Qed.

Lemma fits_first (fill : scalar) r c n f m :
  (f < n)%nat → fits (cube_new fill r c n) f m → fits (cube_new fill r c 1) 0 m.
Proof.
  intros Hf (old & Hold & Hsize). unfold cube_new in *.
  apply lookup_replicate in Hold as [-> _].
  by exists (mat_new fill r c).
Qed.

Lemma combine_lookup sh (results ra rb : cube scalar) f m0 :
  (nden sh = 1%nat ∨ nden sh = 2%nat) →
  ra !! f = Some m0 →
  (if two_channels sh then is_Some (rb !! f) else True) →
  combine_channels sh results ra rb !! f
  = Some (if two_channels sh
          then match rb !! f with
               | Some m1 => mat_scale smul stwo (mat_add sadd m0 m1)
               | None => m0
               end
          else m0).
Proof.
  intros Hnden Ha Hb. unfold combine_channels, two_channels in *.
  destruct (bool_decide_reflect (nden sh = 2%nat)) as [H2|H2].
  - destruct Hb as [m1 Hb]. rewrite Hb. unfold cube_scale, cube_add.
    change (map ?g ?l) with (g <$> l). unfold cube, mat in *.
    rewrite list_lookup_fmap, lookup_zip_with, Ha. simpl. by rewrite Hb.
  - rewrite bool_decide_eq_true_2 by lia. exact Ha.
Qed.

Lemma save_operators_total cfg (w : world) :
  ∃ w', save_operators cfg w = (Ok tt, w').
Proof.
  destruct (save_operators cfg w) as [r w'] eqn:H.
  apply save_operators_keeps_operators in H as [-> _]. eauto.
Qed.

(** C5, for read mode 0 and collaborators that keep nothing between
    frequencies: the solver's result does not depend on the solver object
    it is started on, and the guess depends neither on the response
    vectors an earlier guess left nor on those the solver left.  Then
    slice [f] of a call that returns is slice 0 of the call on the single
    frequency [omega[f]], which returns too. *)
Theorem frequencies_with_fresh_guess mv (C : cube scalar) fo occupations F S
    omega cfg (w w' : world) f frequency :
  cfg_read cfg = 0 →
  (∀ pr ops fr s s',
     (solver_run (solver_init ops cfg mv C (ediff_alph pr) (ediff_beta pr) fr
                              (cfg_maxiter cfg) (pow10_neg (cfg_conv cfg)) s) ops).2
     = (solver_run (solver_init ops cfg mv C (ediff_alph pr) (ediff_beta pr) fr
                                (cfg_maxiter cfg) (pow10_neg (cfg_conv cfg)) s') ops).2) →
  (∀ sh pr fr fr' op,
     guess_operator cfg sh pr fr' (guess_operator cfg sh pr fr op)
     = guess_operator cfg sh pr fr' op) →
  (∀ sh pr fr fr' ops s,
     nden sh = length C →
     map (guess_operator cfg sh pr fr')
         (solver_run (solver_init ops cfg mv C (ediff_alph pr) (ediff_beta pr) fr
                                  (cfg_maxiter cfg) (pow10_neg (cfg_conv cfg)) s) ops).2
     = map (guess_operator cfg sh pr fr') ops) →
  omega !! f = Some frequency →
  solve_linear_response mv C fo occupations F S omega cfg w = (Ok tt, w') →
  ∃ w'' : world,
    solve_linear_response mv C fo occupations F S [frequency] cfg w = (Ok tt, w'')
    ∧ w_results w'' !! 0%nat = w_results w' !! f.
Proof.
  intros Hread Hstateless Hgg Hgs Hf H.
  unfold solve_linear_response in H.
  apply bind_inv_ok in H as ([[sh pr] [ra rb]] & w1 & Hct & H).
  unfold channel_tensors in Hct.
  apply bind_inv_ok in Hct as (sh' & wc & Hcheck & Hct).
  apply bind_inv_ok in Hct as (pr' & wp & Hprep & Hct).
  apply bind_inv_ok in Hct as ([] & w0 & Hstart & Hct).
  apply bind_inv_ok in Hct as ([ra' rb'] & wl & Hloop & Hct).
  apply ret_inv in Hct as [Heq ->]. injection Heq as <- <- <- <-.
  pose proof (check_inputs_ok _ _ _ _ _ _ Hcheck)
    as (-> & Hnden & Hchan & Homega & _).
  assert (Hnden' : nden sh = 1%nat ∨ nden sh = 2%nat) by (rewrite Hnden; done).
  apply frequency_loop_tensors in Hloop as (rfs & Hrfs & Hlen & Ha & Hb).
  assert (Hflt : (f < length omega)%nat) by (by eapply lookup_lt_Some).
  destruct (lookup_lt_is_Some_2 rfs f) as [rf Hrf]; [lia|].
  destruct (stored_lookup _ _ _ _ _ _ Ha Hrf) as (m0 & Hm0 & Hra & Hfit0).
  (* the call on the single frequency *)
  rewrite (check_inputs_frequencies C occupations omega [frequency] w) in Hcheck
    by done.
  pose proof (prepare_frequencies C fo F S omega [frequency] cfg sh w w
                (agree_refl true w)) as Hp.
  rewrite Hprep in Hp.
  destruct (prepare C fo F S [frequency] cfg sh w) as [[pr1|e] wp'] eqn:Hprep';
    [|done].
  destruct Hp as [<- Hwp].
  pose proof (start_operators_sim true C fo occupations cfg sh pr wp wp' Hwp) as Hs.
  rewrite Hstart in Hs.
  destruct (start_operators C fo occupations cfg sh pr wp') as [[[]|e] w0'] eqn:Hstart';
    [|done].
  destruct Hs as [_ Hw0].
  assert (Hres : (frequency_results mv C cfg sh pr frequency w0').1 = Ok rf).
  { eapply (frequency_tensors_nth mv C cfg sh pr Hread (Hstateless pr)
              (Hgg sh pr) (λ fr fr' ops s, Hgs sh pr fr fr' ops s Hnden)
              (w_operators w0) omega w0 wl rfs); try done.
    intros fr. destruct Hw0 as (_ & <- & _). done. }
  destruct (frequency_results mv C cfg sh pr frequency w0') as [r1 w1'] eqn:Hres'.
  simpl in Hres. subst r1.
  destruct (save_operators_total cfg w1') as [w2' Hsave].
  assert (Hb' : if two_channels sh
                then ∃ m1, rf !! 1%nat = Some m1 ∧ rb !! f = Some m1
                           ∧ fits (cube_new uninit (tot_n_slices sh)
                                            (tot_n_slices sh) 1) 0 m1
                else True).
  { destruct (two_channels sh); [|done].
    destruct (stored_lookup _ _ _ _ _ _ Hb Hrf) as (m1 & Hm1 & Hrb & Hfit1).
    exists m1. split_and!; [done..|]. by eapply fits_first. }
  set (ra1 := cube_new uninit (tot_n_slices sh) (tot_n_slices sh) 1).
  set (rb1 := if two_channels sh
              then cube_new uninit (tot_n_slices sh) (tot_n_slices sh) 1
              else []).
  assert (Hstore : ∃ rb2,
            store_slices sh 0 rf ra1 rb1 = Ok (<[0%nat := m0]> ra1, rb2)
            ∧ if two_channels sh
              then ∃ m1, rf !! 1%nat = Some m1 ∧ rb !! f = Some m1
                         ∧ rb2 !! 0%nat = Some m1
              else True).
  { eexists. split.
    - apply store_slices_fits; [done | by eapply fits_first |].
      unfold rb1. destruct (two_channels sh); [|done].
      destruct Hb' as (m1 & H1 & _ & Hfit). eauto.
    - unfold rb1. destruct (two_channels sh); [|done].
      destruct Hb' as (m1 & H1 & Hrb & Hfit). exists m1. rewrite H1. done. }
  destruct Hstore as (rb2 & Hstore & Hrb2).
  assert (Hstep : frequency_step mv C cfg sh pr 0 frequency ra1 rb1 w0'
                  = (Ok (<[0%nat := m0]> ra1, rb2), w2')).
  { unfold frequency_step. rewrite (bind_ok _ _ _ _ _ Hres').
    unfold lift at 1. rewrite bind_unfold, Hstore. cbn beta iota.
    rewrite (bind_ok _ _ _ _ _ Hsave). reflexivity. }
  assert (Hct1 : channel_tensors mv C fo occupations F S [frequency] cfg w
                 = (Ok (sh, pr, (<[0%nat := m0]> ra1, rb2)), w2')).
  { unfold channel_tensors. rewrite (bind_ok _ _ _ _ _ Hcheck).
    rewrite (bind_ok _ _ _ _ _ Hprep'), (bind_ok _ _ _ _ _ Hstart').
    cbn [length frequency_loop]. fold ra1 rb1.
    rewrite (bind_ok _ _ _ _ _ (bind_ok _ _ _ _ _ Hstep)). reflexivity. }
  destruct (solve_linear_response mv C fo occupations F S [frequency] cfg w)
    as [r'' w''] eqn:Hsingle.
  assert (Hsingle' : r'' = Ok tt
            ∧ w_results w''
              = combine_channels sh (w_results w2') (<[0%nat := m0]> ra1) rb2).
  { unfold solve_linear_response in Hsingle.
    rewrite (bind_ok _ _ _ _ _ Hct1) in Hsingle.
    cbv beta delta [mbind M_bind get_results set_results when print mret M_ret]
      in Hsingle.
    destruct (1 <=? cfg_print_level cfg); by inversion Hsingle. }
  destruct Hsingle' as [-> Hresults]. exists w''. split; [reflexivity|].
  cbv beta delta [mbind M_bind get_results set_results when print mret M_ret] in H.
  assert (Hres2 : w_results w' !! f
            = combine_channels sh (w_results wl) ra rb !! f).
  { destruct (1 <=? cfg_print_level cfg); by inversion H. }
  rewrite Hres2, Hresults.
  assert (Hsome : if two_channels sh then is_Some (rb !! f) else True).
  { destruct (two_channels sh); [|done].
    destruct Hb' as (m1 & _ & -> & _). eauto. }
  assert (Hsome2 : if two_channels sh then is_Some (rb2 !! 0%nat) else True).
  { destruct (two_channels sh); [|done].
    destruct Hrb2 as (m1 & _ & _ & ->). eauto. }
  rewrite (combine_lookup sh _ ra rb f m0 Hnden' Hra Hsome).
  assert (Hra1 : <[0%nat := m0]> ra1 !! 0%nat = Some m0) by reflexivity.
  rewrite (combine_lookup sh _ _ rb2 0 m0 Hnden' Hra1 Hsome2).
  destruct (two_channels sh); [|done].
  destruct Hrb2 as (m1 & H1 & -> & ->). done.
Qed.

(** ** C4: the read modes through the call (lines 233-336) *)

Lemma start_operators_vectors (C : cube scalar) fo occupations cfg sh pr
    (w : world) :
  ∃ w', start_operators C fo occupations cfg sh pr w = (Ok tt, w')
        ∧ w_operators w'
          = map (λ op, start_vectors cfg sh pr (w_disk w)
                         (form_rhs C occupations cfg (init_indices fo cfg op)))
                (w_operators w).
Proof.
  unfold start_operators.
  rewrite bind_unfold, for_operators_pure.
  cbv beta delta [for_operators mbind M_bind get_operators set_operators
                  with_solver].
  cbn [w_operators w_disk w_results w_solver w_io w_console].
  match goal with
  | |- context [each _ ?ops ?w1] =>
      destruct (each_read_rspvecs cfg sh pr ops w1) as [log Hlog]; rewrite Hlog
  end.
  cbn. rewrite map_map. by eexists.
Qed.

Lemma form_guesses_by_mode cfg sh pr frequency (w : world) :
  ∃ d,
    form_guesses cfg sh pr frequency w
    = (Ok tt,
       {| w_results := w_results w;
          w_operators := solver_start cfg sh pr frequency (w_operators w);
          w_solver := w_solver w; w_disk := d; w_io := w_io w;
          w_console := w_console w |}).
Proof.
  unfold form_guesses, solver_start.
  destruct (cfg_read cfg =? 0).
  - unfold when, for_operators.
    rewrite bind_unfold. unfold get_operators at 1. rewrite bind_unfold.
    destruct (each_guess cfg sh pr frequency (w_operators w) w) as [d Hd].
    cbv zeta in Hd. rewrite Hd. cbn. by exists d.
  - exists (w_disk w). by destruct w.
Qed.

Lemma frequency_results_solved mv (C : cube scalar) cfg sh pr frequency
    (w w' : world) rf :
  frequency_results mv C cfg sh pr frequency w = (Ok rf, w') →
  (w_solver w', w_operators w')
  = solved mv C cfg pr frequency (w_solver w)
           (solver_start cfg sh pr frequency (w_operators w)).
Proof.
  unfold frequency_results. intros H.
  destruct (form_guesses_by_mode cfg sh pr frequency w) as [d Hg].
  rewrite bind_unfold, Hg in H.
  apply bind_inv_ok in H as (rf1 & w1 & Hprint & H).
  apply print_uncoupled_keeps_operators in Hprint. unfold keeps in Hprint.
  simpl in Hprint. injection Hprint as Hops Hsolver.
  apply bind_inv_ok in H as ([] & w2 & Hrun & H).
  apply bind_inv_ok in H as (ops & w3 & Hget & H).
  apply ret_inv in H as [_ ->]. inversion Hget; subst; clear Hget.
  unfold run_solver in Hrun. rewrite Hops, Hsolver in Hrun. unfold solved.
  destruct (solver_run _ _) as [s' ops'] eqn:Hs. by inversion Hrun.
Qed.

Lemma save_operators_keeps_solver cfg :
  effect (keeps w_solver) (save_operators cfg).
Proof. unfold save_operators. repeat effect_step keeps_prim. Qed.

Lemma frequency_loop_solved mv (C : cube scalar) cfg sh pr omega :
  ∀ f ra rb (w w' : world) r,
    frequency_loop mv C cfg sh pr f omega ra rb w = (Ok r, w') →
    (w_solver w', w_operators w')
    = solved_in_turn mv C cfg sh pr omega (w_solver w) (w_operators w).
Proof.
  induction omega as [|frequency rest IH]; intros f ra rb w w' r H; simpl in H.
  - apply ret_inv in H as [_ ->]. reflexivity.
  - apply bind_inv_ok in H as ([ra1 rb1] & w1 & Hstep & Hloop).
    apply IH in Hloop. rewrite Hloop. clear Hloop IH.
    unfold frequency_step in Hstep.
    apply bind_inv_ok in Hstep as (rf & wa & Hres & Hstep).
    apply frequency_results_solved in Hres.
    apply bind_inv_ok in Hstep as (? & wb & Hstore & Hstep).
    apply lift_inv in Hstore as [_ ->].
    apply bind_inv_ok in Hstep as ([] & wc & Hsave & Hstep).
    apply ret_inv in Hstep as [_ ->].
    pose proof (save_operators_keeps_solver cfg _ _ _ Hsave) as Hsolver.
    apply save_operators_keeps_operators in Hsave as [_ Hops].
    unfold keeps in Hsolver. rewrite Hsolver, Hops.
    simpl. by rewrite <- Hres.
Qed.

(** C4.  The read modes, through a call that returns.  After validation
    and preparation, every operator enters the loop with its gradients
    formed and, when it takes part in the response, with the response
    vectors of both channels loaded in the MO basis (mode 1), loaded in
    the AO basis and transformed with the occupied and virtual
    coefficient blocks (mode 2), or left as formed (any other mode).
    Then, frequency by frequency, the solver is started on these
    operators: in mode 0 on the uncoupled guess, formed for each channel
    from that channel's energy differences and the frequency; in modes 1
    and 2 on the vectors as they are, no guess being formed.  The
    operators the call leaves are what the solver returned at the last
    frequency.  The quotient of the guess itself is computed by
    [form_guess_rspvec]. *)
Theorem read_modes mv (C : cube scalar) fo occupations F S omega cfg
    (w w' : world) :
  solve_linear_response mv C fo occupations F S omega cfg w = (Ok tt, w') →
  ∃ sh pr (wp w0 : world),
    check_inputs C occupations omega w = (Ok sh, w)
    ∧ prepare C fo F S omega cfg sh w = (Ok pr, wp)
    ∧ start_operators C fo occupations cfg sh pr wp = (Ok tt, w0)
    ∧ w_operators w0
      = map (λ op, start_vectors cfg sh pr (w_disk wp)
                     (form_rhs C occupations cfg (init_indices fo cfg op)))
            (w_operators w)
    ∧ (w_solver w', w_operators w')
      = solved_in_turn mv C cfg sh pr omega (w_solver w0) (w_operators w0).
Proof.
  intros H. unfold solve_linear_response in H.
  apply bind_inv_ok in H as ([[sh pr] [ra rb]] & w1 & Hct & H).
  assert (w_operators w' = w_operators w1 ∧ w_solver w' = w_solver w1) as [-> ->].
  { revert H.
    cbv beta delta [mbind M_bind get_results set_results when print mret M_ret].
    destruct (1 <=? cfg_print_level cfg); intros [= <-]; done. }
  clear H. unfold channel_tensors in Hct.
  apply bind_inv_ok in Hct as (sh' & wc & Hcheck & Hct).
  pose proof Hcheck as Hc. apply check_inputs_ok in Hc as (-> & _).
  apply bind_inv_ok in Hct as (pr' & wp & Hprep & Hct).
  apply bind_inv_ok in Hct as ([] & w0 & Hstart & Hct).
  apply bind_inv_ok in Hct as ([ra' rb'] & wl & Hloop & Hct).
  apply ret_inv in Hct as [Heq ->]. injection Heq as <- <- <- <-.
  exists sh, pr, wp, w0. split_and!; try done.
  - destruct (start_operators_vectors C fo occupations cfg sh pr wp)
      as (w0' & Hrun & Hops).
    rewrite Hstart in Hrun. injection Hrun as <-. rewrite Hops.
    by rewrite (prepare_keeps_operators _ _ _ _ _ _ _ _ _ _ Hprep).
  - by eapply frequency_loop_solved.
Qed.

(** ** Beyond the claims: what a call leaves alone *)

Lemma frequency_loop_keeps_results mv (C : cube scalar) cfg sh pr omega :
  ∀ f ra rb, effect (keeps w_results) (frequency_loop mv C cfg sh pr f omega ra rb).
Proof.
  induction omega as [|frequency rest IH]; intros f ra rb; simpl.
  - effect_step keeps_prim.
  - effect_step keeps_prim; [|destruct a; apply IH].
    unfold frequency_step, frequency_results, form_guesses, print_uncoupled,
      save_operators.
    repeat effect_step keeps_prim.
Qed.

Lemma channel_tensors_keeps_results mv (C : cube scalar) fo occupations F S
    omega cfg :
  effect (keeps w_results) (channel_tensors mv C fo occupations F S omega cfg).
Proof.
  unfold channel_tensors.
  effect_step keeps_prim; [apply check_inputs_keeps|].
  effect_step keeps_prim.
  { unfold prepare, transform_to_mo, orthogonalize_canonical, restrict_and_build,
      save_mat.
    repeat effect_step keeps_prim. }
  effect_step keeps_prim.
  { unfold start_operators, read_rspvecs, load_cube.
    repeat effect_step keeps_prim. }
  effect_step keeps_prim; [apply frequency_loop_keeps_results|].
  effect_step keeps_prim.
Qed.

(** X1.  The results tensor is assigned once, after the loop (lines 346-351):
    a call that stops on an assertion or an exception, wherever it does,
    leaves the caller's tensor as it was. *)
Theorem failed_call_keeps_results mv (C : cube scalar) fo occupations F S
    omega cfg (w : world) e :
  (solve_linear_response mv C fo occupations F S omega cfg w).1 = Fail e →
  w_results (solve_linear_response mv C fo occupations F S omega cfg w).2
  = w_results w.
Proof.
  unfold solve_linear_response. rewrite bind_unfold.
  destruct (channel_tensors _ _ _ _ _ _ _ _ w) as [[[[sh pr] [ra rb]]|e'] w1] eqn:H.
  - cbv beta delta [mbind M_bind get_results set_results when print mret M_ret].
    destruct (1 <=? cfg_print_level cfg); discriminate.
  - intros _. by apply channel_tensors_keeps_results in H.
Qed.

(** *** Nothing printed below print level 1 *)

Section Quiet.

Context (cfg : configurable).
Hypothesis print_level_below_1 : cfg_print_level cfg < 1.

Lemma print_level_1_off : (1 <=? cfg_print_level cfg) = false.
Proof. apply Z.leb_gt. exact print_level_below_1. Qed.

Lemma print_level_10_off : (10 <=? cfg_print_level cfg) = false.
Proof. apply Z.leb_gt. lia. Qed.

Lemma prepare_quiet (C : cube scalar) fo F S omega sh :
  effect (keeps w_console) (prepare C fo F S omega cfg sh).
Proof.
  unfold prepare, transform_to_mo, orthogonalize_canonical, restrict_and_build,
    save_mat.
  cbv zeta. rewrite print_level_1_off, !print_level_10_off, andb_false_r.
  repeat effect_step keeps_prim.
Qed.

Lemma frequency_loop_quiet mv (C : cube scalar) sh pr omega :
  ∀ f ra rb, effect (keeps w_console) (frequency_loop mv C cfg sh pr f omega ra rb).
Proof.
  induction omega as [|frequency rest IH]; intros f ra rb; simpl.
  - effect_step keeps_prim.
  - effect_step keeps_prim; [|destruct a; apply IH].
    unfold frequency_step, frequency_results, form_guesses, print_uncoupled,
      save_operators.
    rewrite print_level_1_off.
    repeat effect_step keeps_prim.
Qed.

Lemma solve_quiet mv (C : cube scalar) fo occupations F S omega :
  effect (keeps w_console)
         (solve_linear_response mv C fo occupations F S omega cfg).
Proof.
  unfold solve_linear_response, channel_tensors.
  rewrite print_level_1_off.
  effect_step keeps_prim.
  { effect_step keeps_prim; [apply check_inputs_keeps|].
    effect_step keeps_prim; [apply prepare_quiet|].
    effect_step keeps_prim.
    { unfold start_operators, read_rspvecs, load_cube.
      repeat effect_step keeps_prim. }
    effect_step keeps_prim; [apply frequency_loop_quiet|].
    effect_step keeps_prim. }
  repeat effect_step keeps_prim.
Qed.

End Quiet.

(** X3.  Every statement of the driver that writes to standard output is
    guarded by [print_level >= 1] or [print_level >= 10] (lines 80, 123,
    141, 171, 188, 203, 300, 353): below level 1 it prints nothing, whether
    the call returns or fails. *)
Theorem quiet_call_prints_nothing mv (C : cube scalar) fo occupations F S
    omega cfg (w : world) :
  cfg_print_level cfg < 1 →
  w_console (solve_linear_response mv C fo occupations F S omega cfg w).2
  = w_console w.
Proof.
  intros Hpl.
  destruct (solve_linear_response _ _ _ _ _ _ _ _ w) as [r w'] eqn:H.
  by apply (solve_quiet cfg Hpl) in H.
Qed.

(** *** No file opened without checkpointing *)

Section NoCheckpoint.

Context (cfg : configurable).
Hypothesis nothing_saved : cfg_save cfg ≤ 0.
Hypothesis not_read_mo : cfg_read cfg ≠ 1.
Hypothesis not_read_ao : cfg_read cfg ≠ 2.

Lemma save_off : (0 <? cfg_save cfg) = false.
Proof. apply Z.ltb_ge. exact nothing_saved. Qed.

Lemma read_mo_off : (cfg_read cfg =? 1) = false.
Proof. by apply Z.eqb_neq. Qed.

Lemma read_ao_off : (cfg_read cfg =? 2) = false.
Proof. by apply Z.eqb_neq. Qed.

Lemma frequency_loop_keeps_io mv (C : cube scalar) sh pr omega :
  ∀ f ra rb, effect (keeps w_io) (frequency_loop mv C cfg sh pr f omega ra rb).
Proof.
  induction omega as [|frequency rest IH]; intros f ra rb; simpl.
  - effect_step keeps_prim.
  - effect_step keeps_prim; [|destruct a; apply IH].
    unfold frequency_step, frequency_results, form_guesses, print_uncoupled,
      save_operators.
    repeat effect_step keeps_prim.
Qed.

Lemma solve_keeps_io mv (C : cube scalar) fo occupations F S omega :
  effect (keeps w_io) (solve_linear_response mv C fo occupations F S omega cfg).
Proof.
  unfold solve_linear_response, channel_tensors.
  effect_step keeps_prim.
  { effect_step keeps_prim; [apply check_inputs_keeps|].
    effect_step keeps_prim.
    { unfold prepare, transform_to_mo, orthogonalize_canonical,
        restrict_and_build, save_mat.
      cbv zeta. rewrite save_off. repeat effect_step keeps_prim. }
    effect_step keeps_prim.
    { unfold start_operators, read_rspvecs, load_cube.
      cbv zeta. rewrite read_mo_off, read_ao_off.
      repeat effect_step keeps_prim. }
    effect_step keeps_prim; [apply frequency_loop_keeps_io|].
    effect_step keeps_prim. }
  repeat effect_step keeps_prim.
Qed.

End NoCheckpoint.

(** X4.  The driver's own [save] calls are under [save > 0] (line 216) and
    its [load] calls under [read == 1] or [read == 2] (lines 238-258):
    with [save <= 0] and any other read level it opens no file. *)
Theorem no_checkpoint_no_file mv (C : cube scalar) fo occupations F S
    omega cfg (w : world) :
  cfg_save cfg ≤ 0 → cfg_read cfg ≠ 1 → cfg_read cfg ≠ 2 →
  w_io (solve_linear_response mv C fo occupations F S omega cfg w).2 = w_io w.
Proof.
  intros Hsave Hmo Hao.
  destruct (solve_linear_response _ _ _ _ _ _ _ _ w) as [r w'] eqn:H.
  by apply (solve_keeps_io cfg Hsave Hmo Hao) in H.
Qed.

(** *** Assertions *)

Lemma check_inputs_asserts (C : cube scalar) occupations (omega : list scalar)
    (w w' : world) expr :
  check_inputs C occupations omega w = (Fail (assertion_failed expr), w') →
  expr ∈ validation_assertions.
Proof.
  intros H. destruct (decide (expr ∈ validation_assertions)) as [|Hout]; [done|].
  exfalso.
  assert (never (assertion_failed expr) (check_inputs C occupations omega)) as Hnever.
  { destruct (decide (expr = "nov_alph == nov_beta")) as [->|Hcs];
      [apply check_inputs_closed_shell|].
    unfold check_inputs.
    repeat first
      [ apply uvec_at_never
      | apply never_assert; intros [= <-];
        first [ apply Hout; unfold validation_assertions; set_solver
              | by apply Hcs ]
      | never_step ]. }
  specialize (Hnever w). by rewrite H in Hnever.
Qed.

(** X5.  Past line 62 the driver has no [assert]: a call stopped by one
    of its assertions was stopped by one of the four of lines 26-59 (the
    fifth, on line 62, cannot fail), before anything was printed, written
    or changed. *)
Theorem assertions_only_in_validation mv (C : cube scalar) fo occupations F S
    omega cfg (w : world) expr :
  (solve_linear_response mv C fo occupations F S omega cfg w).1
  = Fail (assertion_failed expr) →
  expr ∈ validation_assertions
  ∧ (solve_linear_response mv C fo occupations F S omega cfg w).2 = w.
Proof.
  destruct (solve_linear_response _ _ _ _ _ _ _ _ w) as [r w'] eqn:H.
  simpl. intros ->. unfold solve_linear_response in H.
  apply bind_inv in H as [(e & H & [= <-])|([[sh pr] [ra rb]] & w1 & _ & H)].
  - unfold channel_tensors in H.
    apply bind_inv in H as [(e & H & [= <-])|(sh & w1 & _ & H)].
    + split; [by eapply check_inputs_asserts|].
      by apply (check_inputs_keeps (λ w, w)) in H.
    + exfalso. revert H.
      assert (never (assertion_failed expr)
                (pr ← prepare C fo F S omega cfg sh;
                 start_operators C fo occupations cfg sh pr;;
                 r ← frequency_loop mv C cfg sh pr 0 omega
                       (cube_new uninit (tot_n_slices sh) (tot_n_slices sh)
                                 (length omega))
                       (if two_channels sh
                        then cube_new uninit (tot_n_slices sh) (tot_n_slices sh)
                                      (length omega)
                        else []);
                 mret (sh, pr, r))) as Hnever.
      { apply never_bind; [apply prepare_never_asserts | intros pr].
        apply never_bind; [apply start_operators_never_asserts | intros _].
        apply never_bind; [apply frequency_loop_never_asserts | intros r].
        apply never_ret. }
      intros H. specialize (Hnever w1). by rewrite H in Hnever.
  - exfalso. revert H.
    cbv beta delta [mbind M_bind get_results set_results when print mret M_ret].
    destruct (1 <=? cfg_print_level cfg); discriminate.
Qed.

(** *** Empty orbital blocks (lines 102-103) *)

Lemma check_inputs_orbitals (C : cube scalar) occupations (omega : list scalar)
    (w w' : world) sh :
  check_inputs C occupations omega w = (Ok sh, w') →
  Z.of_nat (norb sh) = uadd (nocc_alph sh) (nvirt_alph sh)
  ∧ Z.of_nat (norb sh) = uadd (nocc_beta sh) (nvirt_beta sh).
Proof.
  cbv beta delta [check_inputs mbind M_bind mret M_ret assert when throw lift
                  get_operators uvec_at].
  intros H.
  destruct (bool_decide_reflect (length occupations = 4%nat)) as [Hocc|];
    [|discriminate].
  destruct occupations as [|na [|va [|nb [|vb [|]]]]]; try discriminate.
  cbn beta iota in H. simpl lookup in H. cbn beta iota in H.
  destruct omega as [|frequency rest]; [discriminate|].
  destruct (w_operators w) as [|op ops] eqn:Hops; [discriminate|].
  simpl in H.
  destruct (bool_decide (cube_n_slices C = 1%nat) || bool_decide (cube_n_slices C = 2%nat));
    [|discriminate].
  destruct (Z.eqb_spec (Z.of_nat (cube_n_cols C)) (uadd na va)); [|discriminate].
  destruct (Z.eqb_spec (Z.of_nat (cube_n_cols C)) (uadd nb vb)); [|discriminate].
  destruct (na =? nb); try discriminate;
  try (destruct (umul na va =? umul nb vb); try discriminate);
  by inversion H.
Qed.

Lemma uadd_bound a b : 0 ≤ uadd a b < uword_modulus.
Proof. unfold uadd, wrap. by apply Z.mod_pos_bound. Qed.

Lemma slice_coefficients_empty_block (C : cube scalar) sh :
  Z.of_nat (norb sh) = uadd (nocc_alph sh) (nvirt_alph sh) →
  norb sh = cube_n_cols C →
  0 ≤ nocc_alph sh → 0 ≤ nvirt_alph sh →
  nocc_alph sh = 0 ∨ nvirt_alph sh = 0 →
  slice_coefficients C sh = Fail span_error.
Proof.
  intros Hnorb Hcols Hna Hva Hzero.
  pose proof (uadd_bound (nocc_alph sh) (nvirt_alph sh)) as Hbound.
  unfold slice_coefficients, cube_cols, span_error.
  destruct C as [|m C']; [done|]. simpl in Hcols |- *.
  unfold uword_modulus in Hbound.
  assert (Hfirst : nocc_alph sh = 0 →
            (0 <=? usub (nocc_alph sh) 1)
            && (usub (nocc_alph sh) 1 <? Z.of_nat (mat_n_cols m)) = false).
  { intros ->. apply andb_false_iff. right. apply Z.ltb_ge.
    change (usub 0 1) with (2 ^ 64 - 1). lia. }
  assert (Hsecond : nvirt_alph sh = 0 →
            (nocc_alph sh <=? usub (Z.of_nat (norb sh)) 1)
            && (usub (Z.of_nat (norb sh)) 1 <? Z.of_nat (mat_n_cols m)) = false).
  { intros Hv. rewrite Hv in *.
    assert (Z.of_nat (norb sh) ≤ nocc_alph sh) as Hle.
    { rewrite Hnorb. unfold uadd, wrap, uword_modulus.
      rewrite Z.add_0_r. apply Z.mod_le; lia. }
    apply andb_false_iff.
    destruct (decide (norb sh = 0%nat)) as [H0|H0].
    - right. apply Z.ltb_ge. rewrite H0.
      change (usub (Z.of_nat 0) 1) with (2 ^ 64 - 1). lia.
    - left. apply Z.leb_gt. unfold usub, wrap, uword_modulus.
      rewrite Z.mod_small by lia. lia. }
  destruct Hzero as [H|H].
  - by rewrite (Hfirst H).
  - destruct (_ && _); [|done]. by rewrite (Hsecond H).
Qed.

(** X7.  Lines 102-103 slice the alpha coefficients with
    [span(0, nocc_alph - 1)] and [span(nocc_alph, norb - 1)] in unsigned
    arithmetic: without occupied or without virtual alpha orbitals the
    first span wraps around or the second is reversed.  Such a call never
    returns: if validation lets it through, Armadillo's bounds check
    throws. *)
Theorem empty_orbital_block_rejected mv (C : cube scalar) fo F S omega cfg
    (w : world) (na va nb vb : Z) :
  0 ≤ na → 0 ≤ va → na = 0 ∨ va = 0 →
  let r := solve_linear_response mv C fo [na; va; nb; vb] F S omega cfg w in
  r.1 = Fail span_error ∨ ∃ e, r.1 = Fail e ∧ r.2 = w.
Proof.
  intros Hna Hva Hzero r. subst r.
  unfold solve_linear_response, channel_tensors.
  rewrite !bind_unfold.
  destruct (check_inputs C [na; va; nb; vb] omega w) as [[sh|e] w1] eqn:Hcheck.
  - pose proof (check_inputs_orbitals _ _ _ _ _ _ Hcheck) as [Hnorb _].
    apply check_inputs_ok in Hcheck
      as (-> & _ & _ & _ & _ & Hcols & _ & [= -> -> -> ->] & _).
    left. unfold prepare, transform_to_mo. rewrite !bind_unfold.
    unfold get_operators at 1.
    rewrite (slice_coefficients_empty_block C sh) by done.
    by destruct (1 <=? cfg_print_level cfg).
  - right. exists e. split; [done|]. simpl.
    by apply (check_inputs_keeps (λ w, w)) in Hcheck.
Qed.

(** *** The index sets (lines 149-169) *)

(** X8.  Line 159 passes the beta virtual counts for the alpha set.  This
    changes nothing when the fragments have the same occupied counts in
    both channels (columns 2 and 3 of the table are equal), nor when the
    fragments are pooled ([_frgm_response_idx <= 0], line 164): the sets
    are then those built from each channel's own counts. *)
Theorem alpha_set_by_channel_when_counts_agree (fo : umat) cfg :
  fo !! 2%nat = fo !! 3%nat ∨ cfg_frgm_response_idx cfg ≤ 0 →
  restricted_indices fo cfg = restricted_indices_by_channel fo cfg.
Proof.
  intros H. unfold restricted_indices, restricted_indices_by_channel, umat_col.
  destruct (fo !! 1%nat) as [norb_frgm|]; [|done].
  destruct (fo !! 2%nat) as [na|]; [|done].
  destruct (fo !! 3%nat) as [nb|]; [|done].
  destruct H as [[= ->]|H]; [done|].
  destruct (Z.ltb_spec 0 (cfg_frgm_response_idx cfg)); [lia | done].
Qed.

Lemma vector_at_out_of_range {A} (v : list A) i :
  0 ≤ i → (vector_at v i = Fail out_of_range ↔ Z.of_nat (length v) ≤ i).
Proof.
  intros Hi. unfold vector_at.
  destruct (Z.leb_spec 0 i); [|lia].
  destruct (v !! Z.to_nat i) eqn:Hv.
  - apply lookup_lt_Some in Hv. split; [done | lia].
  - apply lookup_ge_None in Hv. split; [lia | done].
Qed.

Lemma vector_at_fail {A} (v : list A) i e :
  vector_at v i = Fail e → e = out_of_range.
Proof. unfold vector_at. case_match; [done | by intros [= <-]]. Qed.

(** X9.  With a fragment selected the sets are taken with
    [std::vector::at(_frgm_response_idx - 1)] (lines 161-162): the step
    throws [std::out_of_range] exactly when the index exceeds the number
    of per-fragment sets built for one of the channels, and it throws
    nothing else once the table has its four columns. *)
Theorem selected_fragment_out_of_range (c0 norb_frgm na nb : uvec)
    (rest : umat) cfg :
  0 < cfg_frgm_response_idx cfg →
  let fo := c0 :: norb_frgm :: na :: nb :: rest in
  let nvirt_beta := uvec_sub norb_frgm nb in
  let sets_alph := make_indices_mo_restricted_local_occ_all_virt na nvirt_beta in
  let sets_beta := make_indices_mo_restricted_local_occ_all_virt nb nvirt_beta in
  (restricted_indices fo cfg = Fail out_of_range
   ↔ Z.of_nat (length sets_alph) < cfg_frgm_response_idx cfg
     ∨ Z.of_nat (length sets_beta) < cfg_frgm_response_idx cfg)
  ∧ ∀ e, restricted_indices fo cfg = Fail e → e = out_of_range.
Proof.
  intros Hidx fo nvirt_beta sets_alph sets_beta.
  unfold restricted_indices, fo. simpl.
  destruct (Z.ltb_spec 0 (cfg_frgm_response_idx cfg)) as [_|]; [|lia].
  fold nvirt_beta. fold sets_alph. fold sets_beta.
  assert (0 ≤ cfg_frgm_response_idx cfg - 1) as Hi by lia.
  pose proof (vector_at_out_of_range sets_alph _ Hi) as Ha.
  pose proof (vector_at_out_of_range sets_beta _ Hi) as Hb.
  destruct (vector_at sets_alph _) as [ia|ea] eqn:Ea.
  - destruct (vector_at sets_beta _) as [ib|eb] eqn:Eb.
    + split; [|done]. split; [done|].
      intros [H|H]; exfalso.
      * assert (Ok ia = Fail out_of_range) by (apply Ha; lia). done.
      * assert (Ok ib = Fail out_of_range) by (apply Hb; lia). done.
    + pose proof (vector_at_fail _ _ _ Eb) as ->.
      split; [|by intros e [= <-]].
      split; [|done]. intros _. right. destruct Hb as [Hb _].
      specialize (Hb eq_refl). lia.
  - pose proof (vector_at_fail _ _ _ Ea) as ->.
    split; [|by intros e [= <-]].
    split; [|done]. intros _. left. destruct Ha as [Ha _].
    specialize (Ha eq_refl). lia.
Qed.

(** *** The size of the result (lines 48-51, 337-351) *)

Lemma mat_new_rows (fill : scalar) n : mat_n_rows (mat_new fill n n) = n.
Proof. destruct n; [done|]. simpl. by rewrite length_replicate. Qed.

Lemma mat_new_cols (fill : scalar) r c : mat_n_cols (mat_new fill r c) = c.
Proof. unfold mat_n_cols, mat_new. by rewrite length_replicate. Qed.

Lemma stored_sizes (fill : scalar) r c n s acc' rfs :
  length rfs = n → stored s 0 (cube_new fill r c n) acc' rfs →
  length acc' = n
  ∧ Forall (λ m, same_size (mat_new fill r c) m = true) acc'.
Proof.
  intros Hlen (slices & Hall & Hfits & ->). simpl.
  apply Forall2_length in Hall as Hl.
  rewrite drop_ge, app_nil_r by (unfold cube_new; rewrite length_replicate; lia).
  split; [lia|]. apply Forall_lookup. intros j m Hm.
  destruct (Hfits j m Hm) as (old & Hold & Hsize). unfold cube_new in Hold.
  by apply lookup_replicate in Hold as [-> _].
Qed.

Lemma same_size_combined (base a b : mat scalar) k :
  same_size base a = true → same_size base b = true →
  same_size base (mat_scale smul k (mat_add sadd a b)) = true.
Proof.
  unfold same_size, mat_scale, mat_add, mat_n_cols.
  intros [Ha1 Ha2]%andb_prop [Hb1 Hb2]%andb_prop.
  apply bool_decide_eq_true in Ha1, Ha2, Hb1, Hb2.
  apply andb_true_intro. split; apply bool_decide_eq_true.
  - destruct a as [|ca a], b as [|cb b]; simpl in *; try lia.
    rewrite length_map, length_zip_with. lia.
  - rewrite length_map, length_zip_with. unfold mat_n_cols in *. lia.
Qed.

(** X2.  [results_alph] and [results_beta] are allocated with one
    [tot_n_slices] by [tot_n_slices] slice per frequency, slices are
    assigned in place, and the result is one of them or their scaled
    sum: a call that returns leaves a tensor of one slice per frequency,
    each as many rows and columns as the operators passed in have
    components. *)
Theorem results_dimensions mv (C : cube scalar) fo occupations F S omega cfg
    (w w' : world) :
  solve_linear_response mv C fo occupations F S omega cfg w = (Ok tt, w') →
  let tot :=
    sum_list_with (λ op, cube_n_slices (integrals_ao op)) (w_operators w) in
  length (w_results w') = length omega
  ∧ Forall (λ m, mat_n_rows m = tot ∧ mat_n_cols m = tot) (w_results w').
Proof.
  intros H tot. unfold solve_linear_response in H.
  apply bind_inv_ok in H as ([[sh pr] [ra rb]] & w1 & Hct & H).
  unfold channel_tensors in Hct.
  apply bind_inv_ok in Hct as (sh' & wc & Hcheck & Hct).
  apply bind_inv_ok in Hct as (pr' & wp & _ & Hct).
  apply bind_inv_ok in Hct as ([] & w0 & _ & Hct).
  apply bind_inv_ok in Hct as ([ra' rb'] & wl & Hloop & Hct).
  apply ret_inv in Hct as [Heq ->]. injection Heq as <- <- <- <-.
  apply check_inputs_ok in Hcheck as (-> & Hnden & Hchan & _ & _ & _ & Htot & _).
  fold tot in Htot.
  apply frequency_loop_tensors in Hloop as (rfs & _ & Hlen & Ha & Hb).
  rewrite Htot in Ha, Hb.
  apply stored_sizes in Ha as [Hla Hsa]; [|done].
  assert (Hsize : ∀ m, same_size (mat_new uninit tot tot) m = true →
                       mat_n_rows m = tot ∧ mat_n_cols m = tot).
  { intros m [H1 H2]%andb_prop. apply bool_decide_eq_true in H1, H2.
    by rewrite mat_new_rows in H1; rewrite mat_new_cols in H2. }
  cbv beta delta [mbind M_bind get_results set_results when print mret M_ret] in H.
  assert (w_results w' = combine_channels sh (w_results wl) ra rb) as ->.
  { destruct (1 <=? cfg_print_level cfg); by inversion H. }
  unfold combine_channels, two_channels in *. rewrite Hnden in *.
  destruct Hchan as [Hc|Hc]; rewrite Hc in *.
  - rewrite bool_decide_eq_false_2 by lia. rewrite bool_decide_eq_true_2 by done.
    rewrite bool_decide_eq_false_2 in Hb by lia.
    split; [done|]. eapply Forall_impl; [exact Hsa | exact Hsize].
  - rewrite (bool_decide_eq_true_2 (2 = 2)%nat) in * by done.
    apply stored_sizes in Hb as [Hlb Hsb]; [|done].
    unfold cube_scale, cube_add. split.
    + rewrite length_map, length_zip_with. lia.
    + apply Forall_lookup. intros j m Hm.
      change (map ?g ?l) with (g <$> l) in Hm. unfold cube, mat in *.
      rewrite list_lookup_fmap, lookup_zip_with in Hm.
      destruct (ra !! j) as [a|] eqn:Eja; [|done].
      destruct (rb !! j) as [b|] eqn:Ejb; [|done].
      injection Hm as <-. apply Hsize, same_size_combined.
      * by eapply (proj1 (Forall_lookup _ _) Hsa).
      * by eapply (proj1 (Forall_lookup _ _) Hsb).
Qed.

(** *** The energy-difference files (lines 210-220) *)

Lemma ediff_files_differ cfg : ediff_file cfg "alph" ≠ ediff_file cfg "beta".
Proof.
  unfold ediff_file. intros H. apply (inj (String.app _)) in H. discriminate.
Qed.

Lemma transform_to_mo_keeps_disk (C F : cube scalar) S omega cfg sh :
  effect (keeps w_disk) (transform_to_mo C F S omega cfg sh).
Proof. unfold transform_to_mo. repeat effect_step keeps_prim. Qed.

Lemma orthogonalize_canonical_keeps_disk (S : mat scalar) cfg sh mo :
  effect (keeps w_disk) (orthogonalize_canonical S cfg sh mo).
Proof. unfold orthogonalize_canonical. repeat effect_step keeps_prim. Qed.

(** Keeps the disk: the step behind hypothesis [H]. *)
Ltac disk_kept H :=
  match type of H with
  | ?m _ = _ =>
      let Hk := fresh in
      assert (effect (keeps w_disk) m) as Hk by (repeat effect_step keeps_prim);
      apply Hk in H; unfold keeps in H
  end.

(** X10.  With [save > 0] the energy differences are written after masking,
    just before they are handed on: when the preparation succeeds, the
    file [prefix + "ediff_alph.dat"] (and [prefix + "ediff_beta.dat"]
    for two channels) holds the very matrix the solver is given, and no
    other file has changed (with one channel, none but the first).  With [save <= 0] no file has changed. *)
Theorem energy_differences_saved (C : cube scalar) fo F S omega cfg sh
    (w w' : world) pr :
  prepare C fo F S omega cfg sh w = (Ok pr, w') →
  (0 < cfg_save cfg →
   w_disk w' !! ediff_file cfg "alph" = Some (blob_mat (ediff_alph pr))
   ∧ (two_channels sh = true →
      w_disk w' !! ediff_file cfg "beta" = Some (blob_mat (ediff_beta pr)))
   ∧ ∀ name, name ≠ ediff_file cfg "alph" →
             (two_channels sh = true → name ≠ ediff_file cfg "beta") →
             w_disk w' !! name = w_disk w !! name)
  ∧ (cfg_save cfg ≤ 0 → w_disk w' = w_disk w).
Proof.
  intros H. unfold prepare in H.
  apply bind_inv_ok in H as (mo & wa & Hmo & H).
  apply transform_to_mo_keeps_disk in Hmo. unfold keeps in Hmo.
  apply bind_inv_ok in H as ([] & wb & Horth & H).
  apply orthogonalize_canonical_keeps_disk in Horth. unfold keeps in Horth.
  rewrite <- Hmo, <- Horth. clear Hmo Horth w wa.
  unfold restrict_and_build in H. cbv zeta in H.
  apply bind_inv_ok in H as ([ia ib] & w1 & Hidx & H).
  apply lift_inv in Hidx as [_ ->].
  apply bind_inv_ok in H as ([] & w2 & Hp1 & H). disk_kept Hp1.
  apply bind_inv_ok in H as ([] & w3 & Hp2 & H). disk_kept Hp2.
  destruct (energy_differences _ _ _ _ _ _ _ _) as [ea eb].
  apply bind_inv_ok in H as ([] & w4 & Hp3 & H). disk_kept Hp3.
  apply bind_inv_ok in H as ([] & w5 & Hsave & H).
  apply ret_inv in H as [-> ->]. simpl.
  rewrite <- Hp1, <- Hp2, <- Hp3. clear Hp1 Hp2 Hp3.
  change (default "" (cfg_prefix cfg) +:+ "ediff_alph.dat")
    with (ediff_file cfg "alph") in Hsave.
  change (default "" (cfg_prefix cfg) +:+ "ediff_beta.dat")
    with (ediff_file cfg "beta") in Hsave.
  pose proof (ediff_files_differ cfg) as Hne.
  destruct (Z.ltb_spec 0 (cfg_save cfg)) as [Hs|Hs].
  - split; [intros _ | lia]. unfold when at 1 in Hsave.
    cbv beta delta [save_mat mbind M_bind opened with_disk when mret M_ret]
      in Hsave.
    destruct (two_channels sh); injection Hsave as <-; simpl.
    + split_and!; [by simplify_map_eq | intros _; by simplify_map_eq |].
      intros name Ha Hb. specialize (Hb eq_refl). by simplify_map_eq.
    + split_and!; [by simplify_map_eq | done |].
      intros name Ha _. by simplify_map_eq.
  - split; [lia | intros _]. by inversion Hsave.
Qed.

(** *** Checkpoint files that are not there (lines 233-265) *)

(** X11.  The driver does not look at what [load] returns (lines 240, 244,
    253, 257), and [load] does not throw: with operator methods that
    return, forming the gradients and reading the checkpoint never fails
    and keeps the number of operators.  In read mode 1 an operator that
    takes part in the response and whose file is missing is left with an
    empty response-vector cube, which is what the solver is then started
    on. *)
Theorem missing_checkpoint_is_not_an_error (C : cube scalar) fo occupations
    cfg sh pr (w : world) :
  ∃ w',
    start_operators C fo occupations cfg sh pr w = (Ok tt, w')
    ∧ length (w_operators w') = length (w_operators w)
    ∧ ∀ i op,
        w_operators w' !! i = Some op → do_response op = true →
        cfg_read cfg = 1 →
        let label := operator_label (metadata op) in
        (w_disk w !! rspvecs_file label "mo" "alph" = None →
         rspvecs_alph op = [])
        ∧ (two_channels sh = true →
           w_disk w !! rspvecs_file label "mo" "beta" = None →
           rspvecs_beta op = []).
Proof.
  destruct (start_operators_vectors C fo occupations cfg sh pr w)
    as (w' & Hrun & Hops).
  exists w'. split; [exact Hrun|]. rewrite Hops. split; [by rewrite length_map|].
  intros i op Hop Hresp Hread label. subst label.
  change (map ?g ?l) with (g <$> l) in Hop.
  rewrite list_lookup_fmap in Hop.
  destruct (w_operators w !! i) as [op0|]; [|done]. injection Hop as <-.
  revert Hresp. unfold start_vectors, read_from_mo. rewrite Hread.
  change (1 =? 1) with true. cbv iota.
  set (op1 := form_rhs C occupations cfg (init_indices fo cfg op0)).
  destruct (do_response op1) eqn:Hd; [intros _ | congruence].
  unfold disk_cube.
  destruct (two_channels sh); simpl; split; intros; simplify_eq;
    by repeat match goal with H : _ !! _ = None |- _ => rewrite H end.
Qed.

(** *** One channel (lines 112-121) *)

(** X12.  [F.slice(1)] is read under [nden == 2] only (line 121): with one
    coefficient slice the call depends on the Fock cube through its
    first slice alone. *)
Theorem single_channel_reads_first_fock mv (C : cube scalar) fo occupations
    (F F' : cube scalar) S omega cfg (w : world) :
  length C = 1%nat → F !! 0%nat = F' !! 0%nat →
  solve_linear_response mv C fo occupations F S omega cfg w
  = solve_linear_response mv C fo occupations F' S omega cfg w.
Proof.
  intros Hone HF. unfold solve_linear_response, channel_tensors.
  rewrite !bind_unfold.
  destruct (check_inputs C occupations omega w) as [[sh|e] w1] eqn:Hcheck; [|done].
  apply check_inputs_ok in Hcheck as (_ & Hnden & _).
  assert (two_channels sh = false) as Htwo.
  { unfold two_channels. apply bool_decide_eq_false_2. lia. }
  assert (cube_slice F 0 = cube_slice F' 0) as Hslice.
  { unfold cube_slice. unfold cube, mat in *. by rewrite HF. }
  assert (prepare C fo F S omega cfg sh w1 = prepare C fo F' S omega cfg sh w1)
    as Hprep.
  { unfold prepare, transform_to_mo. rewrite Hslice, Htwo. reflexivity. }
  cbv beta iota. rewrite !bind_unfold, Hprep. reflexivity.
Qed.

(** *** The final print (lines 66-67, 353-357) *)

Lemma prepare_labels (C : cube scalar) fo F S omega cfg sh (w w' : world) pr :
  prepare C fo F S omega cfg sh w = (Ok pr, w') →
  operator_labels pr = make_operator_label_vec (w_operators w)
  ∧ component_labels pr = make_operator_component_vec (w_operators w).
Proof.
  intros H. unfold prepare in H.
  apply bind_inv_ok in H as (mo & wa & Hmo & H).
  apply bind_inv_ok in H as ([] & wb & _ & H).
  assert (mo_operator_labels mo = make_operator_label_vec (w_operators w)
          ∧ mo_component_labels mo = make_operator_component_vec (w_operators w))
    as [<- <-].
  { unfold transform_to_mo in Hmo. cbv zeta in Hmo.
    apply bind_inv_ok in Hmo as (ops & w0 & Hget & Hmo).
    inversion Hget; subst ops w0; clear Hget.
    apply bind_inv_ok in Hmo as (? & ? & _ & Hmo).
    apply bind_inv_ok in Hmo as ([[[? ?] ?] ?] & ? & _ & Hmo).
    do 5 apply bind_inv_ok in Hmo as (? & ? & _ & Hmo).
    apply ret_inv in Hmo as [-> _]. done. }
  unfold restrict_and_build in H. cbv zeta in H.
  apply bind_inv_ok in H as ([ia ib] & ? & _ & H).
  do 2 apply bind_inv_ok in H as (? & ? & _ & H).
  destruct (energy_differences _ _ _ _ _ _ _ _) as [ea eb].
  do 2 apply bind_inv_ok in H as (? & ? & _ & H).
  apply ret_inv in H as [-> _]. done.
Qed.

(** X13.  At print level 1 or more the last thing a returning call prints is
    the tensor it returns, under the labels made from the operators as
    they were passed in: the label vectors are built on lines 66-67,
    before [init_indices] and [form_rhs] touch the operators. *)
Theorem final_print_is_the_result mv (C : cube scalar) fo occupations F S
    omega cfg (w w' : world) :
  1 ≤ cfg_print_level cfg →
  solve_linear_response mv C fo occupations F S omega cfg w = (Ok tt, w') →
  ∃ earlier,
    w_console w'
    = (earlier ++ [pr_final (w_results w')
                            (make_operator_label_vec (w_operators w))
                            (make_operator_component_vec (w_operators w))])%list.
Proof.
  intros Hpl H. unfold solve_linear_response in H.
  apply bind_inv_ok in H as ([[sh pr] [ra rb]] & w1 & Hct & H).
  unfold channel_tensors in Hct.
  apply bind_inv_ok in Hct as (sh' & wc & Hcheck & Hct).
  apply check_inputs_ok in Hcheck as (-> & _).
  apply bind_inv_ok in Hct as (pr' & wp & Hprep & Hct).
  apply prepare_labels in Hprep as [Hl Hc].
  apply bind_inv_ok in Hct as ([] & w0 & _ & Hct).
  apply bind_inv_ok in Hct as ([ra' rb'] & wl & _ & Hct).
  apply ret_inv in Hct as [Heq ->]. injection Heq as <- <- <- <-.
  rewrite <- Hl, <- Hc.
  cbv beta delta [mbind M_bind get_results set_results when print mret M_ret] in H.
  destruct (Z.leb_spec 1 (cfg_print_level cfg)); [|lia].
  injection H as <-. simpl. by eexists.
Qed.

(** *** Exceptions *)












(** *** The results tensor is written, never read *)

(** The primitives of the monad on worlds that hold the same inputs. *)
Ltac same_inputs_prim :=
  let Ho := fresh in
  let Hs := fresh in
  let Hd := fresh in
  intros ? ? (Ho & Hs & Hd);
  unfold get_operators, set_operators, with_disk, with_solver, print, opened,
    file_cube, run_solver, same_inputs in *;
  simpl; rewrite ?Ho, ?Hs, ?Hd; repeat case_match; simpl;
  repeat split; congruence.

Lemma run_solver_same_inputs mv (C : cube scalar) cfg pr frequency :
  sim same_inputs eq (run_solver mv C cfg pr frequency)
                     (run_solver mv C cfg pr frequency).
Proof.
  intros w1 w2 (Ho & Hs & Hd). unfold run_solver. rewrite Ho, Hs.
  destruct (solver_run _ _) as [s' ops']. by repeat split.
Qed.

Ltac same_inputs_step :=
  lazymatch goal with
  | |- sim _ _ (run_solver _ _ _ _ _) _ => apply run_solver_same_inputs
  | |- sim _ _ (_ ≫= _) (_ ≫= _) => apply (sim_bind _ eq); [|intros ? ? <-]
  | |- sim _ _ (mret _) (mret _) => apply sim_ret; reflexivity
  | |- sim _ _ (when _ _) (when _ _) => apply sim_when
  | |- sim _ _ (throw _) (throw _) => apply sim_throw
  | |- sim _ _ (assert _ _) (assert _ _) => apply sim_assert
  | |- sim _ _ (lift _) (lift _) => apply sim_lift; intros; reflexivity
  | |- sim _ _ (for_operators _) (for_operators _) =>
      unfold for_operators;
      apply (sim_bind _ eq); [same_inputs_prim | intros ? ? <-];
      apply (sim_bind _ eq); [apply sim_each; intros ? | intros ? ? <-]
  | |- sim _ _ (if ?b then _ else _) (if ?b then _ else _) => destruct b
  | |- sim _ _ (match ?x with _ => _ end) (match ?x with _ => _ end) => destruct x
  | |- sim _ _ (let '(_, _) := ?x in _) (let '(_, _) := ?x in _) => destruct x
  | |- sim _ _ _ _ => same_inputs_prim
  end.

Lemma frequency_loop_same_inputs mv (C : cube scalar) cfg sh pr omega :
  ∀ f ra rb,
    sim same_inputs eq (frequency_loop mv C cfg sh pr f omega ra rb)
                       (frequency_loop mv C cfg sh pr f omega ra rb).
Proof.
  induction omega as [|frequency rest IH]; intros f ra rb; simpl.
  - by apply sim_ret.
  - apply (sim_bind _ eq); [|intros [ra' rb'] ? <-; apply IH].
    unfold frequency_step, frequency_results, form_guesses, print_uncoupled,
      save_operators.
    repeat same_inputs_step.
Qed.

Lemma channel_tensors_same_inputs mv (C : cube scalar) fo occupations F S
    omega cfg :
  sim same_inputs
      (λ a b, a = b ∧ (nden a.1.1 = 1%nat ∨ nden a.1.1 = 2%nat))
      (channel_tensors mv C fo occupations F S omega cfg)
      (channel_tensors mv C fo occupations F S omega cfg).
Proof.
  unfold channel_tensors.
  apply (sim_bind _ (λ a b, a = b ∧ (nden a = 1%nat ∨ nden a = 2%nat))).
  { apply sim_strengthen; [unfold check_inputs; repeat same_inputs_step|].
    intros w sh w' H. apply check_inputs_ok in H as (_ & -> & ? & _). done. }
  intros sh ? [<- Hnden].
  apply (sim_bind _ eq).
  { unfold prepare, transform_to_mo, orthogonalize_canonical,
      restrict_and_build, save_mat.
    repeat same_inputs_step. }
  intros pr ? <-. apply (sim_bind _ eq).
  { unfold start_operators, read_rspvecs, load_cube. repeat same_inputs_step. }
  intros [] ? <-.
  apply (sim_bind _ eq); [apply frequency_loop_same_inputs | intros r ? <-].
  by apply sim_ret.
Qed.

(** X14.  [results] is an output: the tensor the caller passes in is
    overwritten on lines 346-351 and read nowhere.  Whatever it holds,
    the call stops the same way, leaves the same operators and files
    and, when it returns, the same results. *)
Theorem results_are_output_only mv (C : cube scalar) fo occupations F S
    omega cfg (w : world) (passed_in : cube scalar) :
  let run w := solve_linear_response mv C fo occupations F S omega cfg w in
  let w0 := {| w_results := passed_in; w_operators := w_operators w;
               w_solver := w_solver w; w_disk := w_disk w;
               w_io := w_io w; w_console := w_console w |} in
  (run w0).1 = (run w).1
  ∧ w_operators (run w0).2 = w_operators (run w).2
  ∧ w_disk (run w0).2 = w_disk (run w).2
  ∧ ((run w).1 = Ok tt → w_results (run w0).2 = w_results (run w).2).
Proof.
  intros run w0. subst run. cbv beta.
  unfold solve_linear_response. rewrite !bind_unfold.
  assert (same_inputs w0 w) as Hw by done.
  pose proof (channel_tensors_same_inputs mv C fo occupations F S omega cfg
                w0 w Hw) as Hsim.
  destruct (channel_tensors _ _ _ _ _ _ _ _ w0) as [[[[sh0 pr0] [ra0 rb0]]|e0] v0],
           (channel_tensors _ _ _ _ _ _ _ _ w) as [[[[sh pr] [ra rb]]|e] v];
    try done.
  - destruct Hsim as [[[= -> -> -> ->] Hnden] (Ho & Hs & Hd)]. simpl in Hnden.
    cbv beta iota delta [mbind M_bind get_results set_results when print
                         mret M_ret].
    assert (combine_channels sh (w_results v0) ra rb
            = combine_channels sh (w_results v) ra rb) as ->.
    { unfold combine_channels.
      destruct Hnden as [H|H]; rewrite H; by repeat case_bool_decide. }
    by destruct (1 <=? cfg_print_level cfg).
  - destruct Hsim as [-> (Ho & Hs & Hd)]. by simpl.
Qed.

End Properties.

(** * The reference collaborators *)


Lemma imap_related {A A' B} (R : A → A' → Prop) (f : nat → A → B)
    (f' : nat → A' → B) l l' :
  Forall2 R l l' → (∀ k x x', R x x' → f k x = f' k x') → imap f l = imap f' l'.
Proof.
  intros H. revert f f'. induction H as [|x x' l l' Hx _ IH]; intros f f' Hf; [done|].
  simpl. f_equal; [by apply Hf|]. apply IH. intros k. apply Hf.
Qed.

Lemma same_lengths {A B} (l : list (list A)) (l' : list (list B)) :
  map length l = map length l' → Forall2 (λ a b, length a = length b) l l'.
Proof.
  revert l'. induction l as [|a l IH]; intros [|b l']; try done.
  intros [= Ha Hl]. constructor; auto.
Qed.

Lemma same_shape (c c' : cube float) :
  shape c = shape c' →
  Forall2 (Forall2 (λ a b : list float, length a = length b)) c c'.
Proof.
  unfold shape, cube, mat. revert c'.
  induction c as [|m c IH]; intros [|m' c']; try done.
  intros [= Hm Hc]. constructor; [by apply same_lengths | by apply IH].
Qed.

Lemma length_imap_inner {A B} (f : nat → list A → list B) (m : list (list A)) :
  (∀ k col, length (f k col) = length col) →
  map length (imap f m) = map length m.
Proof.
  revert f. induction m as [|col m IH]; intros f Hf; [done|].
  simpl. f_equal; [apply Hf|]. apply IH. intros k. apply Hf.
Qed.

Lemma binary64_form_results_shape buf ops mask :
  shape (@form_results _ Reference.binary64 buf ops mask) = shape buf.
Proof.
  cbn [form_results Reference.binary64].
  unfold Reference.form_results, shape, cube, mat.
  assert (∀ (f : nat → list (list float) → list (list float)) (c : list (list (list float))),
            (∀ k m, map length (f k m) = map length m) →
            map (map length) (imap f c) = map (map length) c) as Hout.
  { intros f c. revert f. induction c as [|m c IH]; intros f Hf; [done|].
    simpl. f_equal; [apply Hf|]. apply IH. intros k. apply Hf. }
  apply Hout. intros s m. apply length_imap_inner.
  intros q col. apply length_imap.
Qed.

Lemma binary64_form_results_overwrites buf buf' ops mask :
  shape buf = shape buf' →
  @form_results _ Reference.binary64 buf ops mask
  = @form_results _ Reference.binary64 buf' ops mask.
Proof.
  intros H. apply same_shape in H.
  cbn [form_results Reference.binary64]. unfold Reference.form_results.
  eapply imap_related; [exact H|]. intros s m m' Hm.
  eapply imap_related; [exact Hm|]. intros q col col' Hcol.
  eapply (imap_related (λ _ _, True)); [|done].
  clear -Hcol. revert col' Hcol.
  induction col as [|x col IH]; intros [|x' col']; try done.
  intros [= H]. constructor; auto.
Qed.

Lemma binary64_solver_stateless ops cfg cfg' (mv : Reference.matvec) C ea eb fr mi cv s s' :
  (@solver_run _ Reference.binary64
     (@solver_init _ Reference.binary64 ops cfg mv C ea eb fr mi cv s) ops).2
  = (@solver_run _ Reference.binary64
       (@solver_init _ Reference.binary64 ops cfg' mv C ea eb fr mi cv s') ops).2.
Proof. reflexivity. Qed.

Lemma binary64_guess_overwrites_guess cfg sh pr fr fr' op :
  guess_operator (E := Reference.binary64) cfg sh pr fr'
    (guess_operator (E := Reference.binary64) cfg sh pr fr op)
  = guess_operator (E := Reference.binary64) cfg sh pr fr' op.
Proof.
  unfold guess_operator. cbn [form_guess_rspvec Reference.binary64].
  unfold Reference.form_guess_rspvec. by destruct (two_channels sh), op.
Qed.

Lemma binary64_guess_overwrites_sweep cfg sh pr fr' (s : Reference.solver) op :
  Reference.channels s = nden sh →
  guess_operator (E := Reference.binary64) cfg sh pr fr' (Reference.sweep s op)
  = guess_operator (E := Reference.binary64) cfg sh pr fr' op.
Proof.
  intros Hs. unfold guess_operator, two_channels, Reference.sweep.
  cbn [form_guess_rspvec Reference.binary64]. unfold Reference.form_guess_rspvec.
  rewrite Hs. destruct (Reference.coupling s); [|done].
  destruct (do_response op); [|done].
  by destruct (bool_decide (nden sh = 2%nat)), op.
Qed.

Lemma binary64_guess_overwrites_solver cfg sh pr fr fr' ops (mv : Reference.matvec)
    (C : cube float) ea eb mi cv s :
  nden sh = length C →
  map (guess_operator (E := Reference.binary64) cfg sh pr fr')
      (@solver_run _ Reference.binary64
         (@solver_init _ Reference.binary64 ops cfg mv C ea eb fr mi cv s) ops).2
  = map (guess_operator (E := Reference.binary64) cfg sh pr fr') ops.
Proof.
  intros Hs. cbn [solver_run solver_init Reference.binary64].
  unfold Reference.solver_run. cbn [snd].
  induction (Z.to_nat _) as [|n IH]; [done|].
  rewrite Nat.iter_succ, map_map, <- IH. apply map_ext. intros op.
  by apply binary64_guess_overwrites_sweep.
Qed.

(** * The claims on the reference inputs *)

Lemma closed_shell_assertion_unreachable_witness :
  (1 = 1 → 1 * 2 = 1 * 2 ∧ umul 1 2 = umul 1 2)
  ∧ failure_of
      (solve_linear_response (E := Reference.binary64)
         (Reference.scaled 0.5%float) [Reference.identity3]
         Reference.one_fragment [1; 2; 1; 2] [Reference.fock3] Reference.identity3
         [0.25%float] Reference.quiet (Reference.fresh [Reference.dipole])).1
    ≠ Some closed_shell_assertion.
Proof.
  apply (closed_shell_assertion_unreachable (E := Reference.binary64));
    [lia | lia | lia | lia | reflexivity | reflexivity].
Defined.

Lemma empty_input_rejected_witness :
  solve_linear_response (E := Reference.binary64)
    (Reference.scaled 0.5%float) [Reference.identity3]
    Reference.one_fragment Reference.closed_shell [Reference.fock3]
    Reference.identity3 [] Reference.quiet (Reference.fresh [Reference.dipole])
  = (Fail (runtime_error "Supply one or more frequencies."),
     Reference.fresh [Reference.dipole]).
Proof.
  apply (empty_input_rejected (E := Reference.binary64));
    [reflexivity | left; reflexivity].
Defined.

(** Three occupation numbers and no frequency: the assertion of line 26
    stops the call before the check of line 28 is reached. *)
Lemma malformed_occupations_abort_first :
  solve_linear_response (E := Reference.binary64)
    (Reference.scaled 0.5%float) [Reference.identity3]
    Reference.one_fragment [1; 2; 1] [Reference.fock3]
    Reference.identity3 [] Reference.quiet (Reference.fresh [Reference.dipole])
  = (Fail (assertion_failed "occupations.n_elem == 4"),
     Reference.fresh [Reference.dipole]).
Proof. reflexivity. Qed.

Lemma results_combine_channels_witness :
  let C := [Reference.identity3; Reference.identity3] in
  let F := [Reference.fock3; Reference.fock3] in
  let omega := [0%float; 0.25%float] in
  let w := Reference.fresh [Reference.dipole] in
  let w' :=
    (solve_linear_response (E := Reference.binary64) (Reference.scaled 0.5%float) C
       Reference.one_fragment Reference.closed_shell F Reference.identity3 omega
       Reference.quiet w).2 in
  ∃ sh rfs w1 results_alph results_beta,
    tensors_by_frequency (E := Reference.binary64) (Reference.scaled 0.5%float) C
      Reference.one_fragment Reference.closed_shell F Reference.identity3 omega
      Reference.quiet w = (Ok (sh, rfs), w1)
    ∧ length rfs = length omega
    ∧ Forall2 (λ m rf, rf !! 0%nat = Some m) results_alph rfs
    ∧ (length C = 1%nat ∨ length C = 2%nat)
    ∧ (length C = 1%nat → w_results w' = results_alph)
    ∧ (length C = 2%nat →
       Forall2 (λ m rf, rf !! 1%nat = Some m) results_beta rfs
       ∧ w_results w'
         = cube_scale PrimFloat.mul 2%float
             (cube_add PrimFloat.add results_alph results_beta)).
Proof.
  intros C F omega w w'.
  apply (results_combine_channels (E := Reference.binary64)
           (Reference.scaled 0.5%float) C Reference.one_fragment
           Reference.closed_shell F Reference.identity3 omega Reference.quiet w w').
  vm_compute. reflexivity.
Defined.

(** The pseudo-inverse of the reference collaborators, and one that
    returns its argument. *)
Lemma pseudo_inverses_not_consumed_witness :
  let cfg := with_orthogonalization_canonical true Reference.quiet in
  let w := Reference.fresh [Reference.dipole] in
  is_Some (pinv (collaborators := Reference.binary64) Reference.overlap3)
  ∧ (∃ C0, [Reference.identity3] !! 0%nat = Some C0
           ∧ is_Some (pinv (collaborators := Reference.binary64)
                           (mo_transform (collaborators := Reference.binary64)
                                         C0 Reference.overlap3)))
  ∧ (two_channels Reference.closed_shell_shapes = true →
     ∃ C1, [Reference.identity3] !! 1%nat = Some C1
           ∧ is_Some (pinv (collaborators := Reference.binary64)
                           (mo_transform (collaborators := Reference.binary64)
                                         C1 Reference.overlap3)))
  ∧ ∃ w2,
      prepare (E := with_pinv (λ m, Some m) Reference.binary64)
        [Reference.identity3] Reference.one_fragment [Reference.fock3]
        Reference.overlap3 [0.25%float]
        (with_orthogonalization_canonical false cfg)
        Reference.closed_shell_shapes w
      = (Ok Reference.closed_shell_prepared, w2)
      ∧ agree (E := Reference.binary64) true w w2.
Proof.
  intros cfg w.
  apply (pseudo_inverses_not_consumed (E := Reference.binary64) (λ m, Some m)
           [Reference.identity3] Reference.one_fragment [Reference.fock3]
           Reference.overlap3 [0.25%float] cfg Reference.closed_shell_shapes w w
           Reference.closed_shell_prepared);
    vm_compute; reflexivity.
Defined.

Lemma pseudo_inverses_ignored :
  let run p flag :=
    (prepare (E := with_pinv p Reference.binary64)
       [Reference.identity3] Reference.one_fragment
       [Reference.fock3] Reference.overlap3 [0.25%float]
       (with_orthogonalization_canonical flag Reference.quiet)
       Reference.closed_shell_shapes (Reference.fresh [Reference.dipole])).1 in
  with_pinv Reference.pinv Reference.binary64 = Reference.binary64
  ∧ Reference.pinv Reference.overlap3
    = Some [[1; 0; 0]; [0; 0.5; 0]; [0; 0; 0.25]]%float
  ∧ run Reference.pinv true = Ok Reference.closed_shell_prepared
  ∧ run (λ m, Some m) true = Ok Reference.closed_shell_prepared
  ∧ run Reference.pinv false = Ok Reference.closed_shell_prepared.
Proof. intros run. split; [reflexivity|]. vm_compute. repeat split. Qed.

Lemma later_frequency_starts_from_earlier_solution :
  let run omega :=
    solve_linear_response (E := Reference.binary64)
      (Reference.scaled 0.5%float) [Reference.identity3] Reference.one_fragment
      Reference.closed_shell [Reference.fock3] Reference.identity3 omega
      (with_read 1 Reference.quiet) (Reference.restart [Reference.dipole]) in
  (run [0%float; 0.25%float]).1 = Ok tt
  ∧ (run [0.25%float]).1 = Ok tt
  ∧ w_results (run [0%float; 0.25%float]).2 !! 1%nat
    = Some [[0x1.315f15f15f15fp+1%float]]
  ∧ w_results (run [0.25%float]).2 !! 0%nat = Some [[0x1.4cccccccccccdp+1%float]]
  ∧ w_results (run [0%float; 0.25%float]).2 !! 1%nat
    ≠ w_results (run [0.25%float]).2 !! 0%nat.
Proof. vm_compute. repeat split. discriminate. Qed.

Lemma frequencies_with_fresh_guess_witness :
  let run omega :=
    solve_linear_response (E := Reference.binary64)
      (Reference.scaled 0.5%float) [Reference.identity3] Reference.one_fragment
      Reference.closed_shell [Reference.fock3] Reference.identity3 omega
      Reference.quiet (Reference.fresh [Reference.dipole]) in
  ∃ w'',
    run [0.25%float] = (Ok tt, w'')
    ∧ w_results w'' !! 0%nat = w_results (run [0%float; 0.25%float]).2 !! 1%nat.
Proof.
  intros run.
  apply (frequencies_with_fresh_guess (E := Reference.binary64)
           (Reference.scaled 0.5%float) [Reference.identity3]
           Reference.one_fragment Reference.closed_shell [Reference.fock3]
           Reference.identity3 [0%float; 0.25%float] Reference.quiet
           (Reference.fresh [Reference.dipole]) (run [0%float; 0.25%float]).2
           1%nat 0.25%float).
  - reflexivity.
  - intros. apply binary64_solver_stateless.
  - intros. apply binary64_guess_overwrites_guess.
  - intros. by apply binary64_guess_overwrites_solver.
  - reflexivity.
  - vm_compute. reflexivity.
Defined.

Lemma response_vectors_read_without_prefix :
  let cfg := with_prefix "run1_" (with_save 1 (with_read 1 Reference.quiet)) in
  let w' :=
    (solve_linear_response (E := Reference.binary64)
       (Reference.scaled 0.5%float) [Reference.identity3] Reference.one_fragment
       Reference.closed_shell [Reference.fock3] Reference.identity3 [0.25%float]
       cfg (Reference.restart [Reference.dipole])).2 in
  w_io w' = [file_written "run1_ediff_alph.dat";
             file_read "rspvecs_dipole_mo_alph.dat"]
  ∧ ediff_file cfg "alph" = "run1_ediff_alph.dat"
  ∧ rspvecs_file "dipole" "mo" "alph" = "rspvecs_dipole_mo_alph.dat"
  ∧ String.prefix "run1_" "rspvecs_dipole_mo_alph.dat" = false.
Proof. vm_compute. repeat split. Qed.

Lemma read_modes_witness :
  let cfg := with_read 1 Reference.quiet in
  let omega := [0%float; 0.25%float] in
  let w := Reference.restart [Reference.dipole] in
  let w' :=
    (solve_linear_response (E := Reference.binary64)
       (Reference.scaled 0.5%float) [Reference.identity3]
       Reference.one_fragment Reference.closed_shell [Reference.fock3]
       Reference.identity3 omega cfg w).2 in
  ∃ sh pr wp w0,
    check_inputs (E := Reference.binary64) [Reference.identity3]
      Reference.closed_shell omega w = (Ok sh, w)
    ∧ prepare (E := Reference.binary64) [Reference.identity3]
        Reference.one_fragment [Reference.fock3] Reference.identity3 omega
        cfg sh w = (Ok pr, wp)
    ∧ start_operators (E := Reference.binary64) [Reference.identity3]
        Reference.one_fragment Reference.closed_shell cfg sh pr wp
      = (Ok tt, w0)
    ∧ w_operators w0
      = map (λ op, start_vectors (E := Reference.binary64) cfg sh pr (w_disk wp)
                     (Reference.form_rhs [Reference.identity3]
                        Reference.closed_shell cfg
                        (Reference.init_indices Reference.one_fragment cfg op)))
            (w_operators w)
    ∧ (w_solver w', w_operators w')
      = solved_in_turn (E := Reference.binary64) (Reference.scaled 0.5%float)
          [Reference.identity3] cfg sh pr omega (w_solver w0) (w_operators w0).
Proof.
  exact (read_modes (E := Reference.binary64)
           (Reference.scaled 0.5%float) [Reference.identity3]
           Reference.one_fragment Reference.closed_shell [Reference.fock3]
           Reference.identity3 [0%float; 0.25%float]
           (with_read 1 Reference.quiet)
           (Reference.restart [Reference.dipole]) _
           ltac:(vm_compute; reflexivity)).
Defined.

(** The same call, in numbers: the vector read from the checkpoint, and
    the vectors the solver leaves at the two frequencies, the second
    started from the first. *)
Lemma read_modes_example :
  let cfg := with_read 1 Reference.quiet in
  let w := Reference.restart [Reference.dipole] in
  let started :=
    (start_operators (E := Reference.binary64) [Reference.identity3]
       Reference.one_fragment Reference.closed_shell cfg
       Reference.closed_shell_shapes Reference.closed_shell_prepared w).2 in
  let after omega :=
    (solve_linear_response (E := Reference.binary64)
       (Reference.scaled 0.5%float) [Reference.identity3]
       Reference.one_fragment Reference.closed_shell [Reference.fock3]
       Reference.identity3 omega cfg w).2 in
  map rspvecs_alph (w_operators started) = [[[[0.5; 0.5]]]]%float
  ∧ map rspvecs_alph (w_operators (after [0%float]))
    = [[[[0.5; 0.875]]]]%float
  ∧ map rspvecs_alph (w_operators (after [0%float; 0.25%float]))
    = map rspvecs_alph
        (solved (E := Reference.binary64) (Reference.scaled 0.5%float)
                [Reference.identity3] cfg Reference.closed_shell_prepared
                0.25%float Reference.idle (w_operators (after [0%float]))).2.
Proof. vm_compute. repeat split. Qed.

(** Read mode 0 with the reference operator methods: the guess is the
    gradient over the energy difference less the frequency, element by
    element. *)
Lemma uncoupled_guess_example :
  let dipole_rhs :=
    Reference.form_rhs [Reference.identity3] Reference.closed_shell
      Reference.quiet
      (Reference.init_indices Reference.one_fragment Reference.quiet
         Reference.dipole) in
  rhsvecs_alph dipole_rhs = [[[1; 2]]]%float
  ∧ ediff_alph Reference.closed_shell_prepared = [[1.5; 0]; [0; 2]]%float
  ∧ map rspvecs_alph
      (solver_start (E := Reference.binary64) Reference.quiet
         Reference.closed_shell_shapes Reference.closed_shell_prepared
         0.25%float [dipole_rhs])
    = [[[[PrimFloat.div 1 (PrimFloat.sub 1.5 0.25);
          PrimFloat.div 2 (PrimFloat.sub 2 0.25)]]]]%float
  ∧ Reference.pow10_neg 6 = PrimFloat.div 1 1000000.
Proof. vm_compute. repeat split. Qed.

(** C10.  Modelled from the spec: [form_results], the operator methods
    and the solver are not part of the driver's file; they are those of
    module [Reference], written from sections 4.4, 4.6 and 6 of the
    description ([form_results] assigns each entry the inner product of
    a gradient with a response vector).  With them, and whatever stands
    for [arma::pinv], two calls that differ only in the print level stop
    alike and leave the same results tensor, operators and files: what
    the diagnostic of lines 300-314 leaves in [results_freq], doubled
    for two channels, is overwritten on lines 333-336. *)
Theorem print_level_does_not_change_results
    (p : mat float → option (mat float)) (pl1 pl2 : Z) (mv : Reference.matvec)
    (C : cube float) fo occupations F S omega cfg
    (w : world float Reference.solver) :
  let run pl :=
    solve_linear_response (E := with_pinv p Reference.binary64)
      mv C fo occupations F S omega (with_print_level pl cfg) w in
  (run pl1).1 = (run pl2).1
  ∧ w_results (run pl1).2 = w_results (run pl2).2
  ∧ w_operators (run pl1).2 = w_operators (run pl2).2
  ∧ w_disk (run pl1).2 = w_disk (run pl2).2.
Proof.
  exact (verbosity_with_quiet_collaborators (E := with_pinv p Reference.binary64)
           (λ _ _ _ _, eq_refl) (λ _ _ _ _ _, eq_refl)
           (λ _ _ _ _ _ _ _, eq_refl)
           (λ ops pl cfg mv C ea eb fr mi cv s s',
              binary64_solver_stateless ops (with_print_level pl cfg) cfg
                                        mv C ea eb fr mi cv s s')
           binary64_form_results_shape binary64_form_results_overwrites
           pl1 pl2 mv C fo occupations F S omega cfg w).
Qed.

(** Two channels, print levels 0 and 2: at level 2 the diagnostic runs
    and doubles [results_freq] at both frequencies; the results are
    those of level 0. *)
Lemma print_level_example :
  let run pl :=
    solve_linear_response (E := Reference.binary64)
      (Reference.scaled 0.5%float) [Reference.identity3; Reference.identity3]
      Reference.one_fragment Reference.closed_shell
      [Reference.fock3; Reference.fock3] Reference.identity3
      [0%float; 0.25%float]
      (with_print_level pl Reference.quiet) (Reference.fresh [Reference.dipole]) in
  (run 0).1 = Ok tt ∧ (run 2).1 = Ok tt
  ∧ w_console (run 0).2 = []
  ∧ length (w_console (run 2).2) = 4%nat
  ∧ w_results (run 0).2 = w_results (run 2).2.
Proof. vm_compute. repeat split. Qed.

(** C1.  With one fragment selected, line 159 builds the alpha set from
    the beta virtual counts.  For a fragment of three orbitals with two
    alpha and one beta electron the alpha set comes out as the four pairs
    of two occupied with two virtual orbitals, where the alpha channel
    has one virtual orbital and two pairs; the pooled branch of the same
    conditional (line 164) uses the alpha counts. *)
Theorem selected_fragment_alpha_set_uses_beta_virtuals :
  let cfg := with_frgm_response_idx 1 Reference.quiet in
  restricted_indices (E := Reference.binary64) Reference.open_shell_fragment cfg
  = Ok ([0; 1; 2; 3], [0; 1])
  ∧ restricted_indices_by_channel (E := Reference.binary64)
      Reference.open_shell_fragment cfg
    = Ok ([0; 1], [0; 1])
  ∧ restricted_indices (E := Reference.binary64) Reference.open_shell_fragment
      Reference.quiet
    = restricted_indices_by_channel (E := Reference.binary64)
        Reference.open_shell_fragment Reference.quiet.
Proof. vm_compute. repeat split. Qed.

(** * The further properties on the reference inputs *)

Lemma failed_call_keeps_results_witness :
  w_results
    (solve_linear_response (E := Reference.binary64)
       (Reference.scaled 0.5%float) [Reference.identity3] []
       Reference.closed_shell [Reference.fock3] Reference.identity3
       [0.25%float] Reference.quiet (Reference.reused [Reference.dipole])).2
  = Reference.stale.
Proof.
  exact (failed_call_keeps_results (E := Reference.binary64)
           (Reference.scaled 0.5%float) [Reference.identity3] []
           Reference.closed_shell [Reference.fock3] Reference.identity3
           [0.25%float] Reference.quiet (Reference.reused [Reference.dipole])
           (logic_error "Mat::col(): index out of bounds")
           ltac:(vm_compute; reflexivity)).
Defined.

Lemma results_dimensions_witness :
  let C := [Reference.identity3; Reference.identity3] in
  let F := [Reference.fock3; Reference.fock3] in
  let omega := [0%float; 0.25%float] in
  let w := Reference.fresh [Reference.dipole] in
  let w' :=
    (solve_linear_response (E := Reference.binary64) (Reference.scaled 0.5%float) C
       Reference.one_fragment Reference.closed_shell F Reference.identity3 omega
       Reference.quiet w).2 in
  let tot :=
    sum_list_with (λ op, cube_n_slices (integrals_ao op)) (w_operators w) in
  length (w_results w') = length omega
  ∧ Forall (λ m, mat_n_rows m = tot ∧ mat_n_cols m = tot) (w_results w').
Proof.
  exact (results_dimensions (E := Reference.binary64)
           (Reference.scaled 0.5%float)
           [Reference.identity3; Reference.identity3]
           Reference.one_fragment Reference.closed_shell
           [Reference.fock3; Reference.fock3] Reference.identity3
           [0%float; 0.25%float] Reference.quiet
           (Reference.fresh [Reference.dipole]) _
           ltac:(vm_compute; reflexivity)).
Defined.

Lemma quiet_call_prints_nothing_witness :
  w_console
    (solve_linear_response (E := Reference.binary64)
       (Reference.scaled 0.5%float) [Reference.identity3]
       Reference.one_fragment Reference.closed_shell [Reference.fock3]
       Reference.identity3 [0.25%float] Reference.quiet
       (Reference.fresh [Reference.dipole])).2
  = w_console (Reference.fresh [Reference.dipole]).
Proof.
  exact (quiet_call_prints_nothing (E := Reference.binary64)
           (Reference.scaled 0.5%float) [Reference.identity3]
           Reference.one_fragment Reference.closed_shell [Reference.fock3]
           Reference.identity3 [0.25%float] Reference.quiet
           (Reference.fresh [Reference.dipole]) ltac:(simpl; lia)).
Defined.

Lemma no_checkpoint_no_file_witness :
  w_io
    (solve_linear_response (E := Reference.binary64)
       (Reference.scaled 0.5%float) [Reference.identity3]
       Reference.one_fragment Reference.closed_shell [Reference.fock3]
       Reference.identity3 [0.25%float] Reference.quiet
       (Reference.restart [Reference.dipole])).2
  = w_io (Reference.restart [Reference.dipole]).
Proof.
  exact (no_checkpoint_no_file (E := Reference.binary64)
           (Reference.scaled 0.5%float) [Reference.identity3]
           Reference.one_fragment Reference.closed_shell [Reference.fock3]
           Reference.identity3 [0.25%float] Reference.quiet
           (Reference.restart [Reference.dipole])
           ltac:(simpl; lia) ltac:(simpl; lia) ltac:(simpl; lia)).
Defined.

Lemma assertions_only_in_validation_witness :
  let w := Reference.reused [Reference.dipole] in
  "norb == (nocc_alph + nvirt_alph)" ∈ validation_assertions
  ∧ (solve_linear_response (E := Reference.binary64)
       (Reference.scaled 0.5%float) [Reference.identity3]
       Reference.one_fragment [1; 1; 1; 1] [Reference.fock3]
       Reference.identity3 [0.25%float] Reference.quiet w).2 = w.
Proof.
  exact (assertions_only_in_validation (E := Reference.binary64)
           (Reference.scaled 0.5%float) [Reference.identity3]
           Reference.one_fragment [1; 1; 1; 1] [Reference.fock3]
           Reference.identity3 [0.25%float] Reference.quiet
           (Reference.reused [Reference.dipole])
           "norb == (nocc_alph + nvirt_alph)" ltac:(vm_compute; reflexivity)).
Defined.

Lemma empty_orbital_block_rejected_witness :
  let w := Reference.fresh [Reference.dipole] in
  let r :=
    solve_linear_response (E := Reference.binary64)
      (Reference.scaled 0.5%float) [Reference.identity3]
      Reference.one_fragment [0; 3; 0; 3] [Reference.fock3]
      Reference.identity3 [0.25%float] Reference.quiet w in
  r.1 = Fail span_error ∨ ∃ e, r.1 = Fail e ∧ r.2 = w.
Proof.
  exact (empty_orbital_block_rejected (E := Reference.binary64)
           (Reference.scaled 0.5%float) [Reference.identity3]
           Reference.one_fragment [Reference.fock3]
           Reference.identity3 [0.25%float] Reference.quiet
           (Reference.fresh [Reference.dipole]) 0 3 0 3
           ltac:(lia) ltac:(lia) (or_introl eq_refl)).
Defined.

Lemma alpha_set_by_channel_when_counts_agree_witness :
  restricted_indices (E := Reference.binary64) Reference.one_fragment
    (with_frgm_response_idx 1 Reference.quiet)
  = restricted_indices_by_channel (E := Reference.binary64)
      Reference.one_fragment (with_frgm_response_idx 1 Reference.quiet).
Proof.
  exact (alpha_set_by_channel_when_counts_agree (E := Reference.binary64)
           Reference.one_fragment (with_frgm_response_idx 1 Reference.quiet)
           (or_introl eq_refl)).
Defined.

Lemma selected_fragment_out_of_range_witness :
  let cfg := with_frgm_response_idx 2 Reference.quiet in
  let fo : umat := [[0]; [3]; [2]; [1]] in
  let nvirt_beta := uvec_sub [3] [1] in
  let sets_alph :=
    make_indices_mo_restricted_local_occ_all_virt
      (collaborators := Reference.binary64) [2] nvirt_beta in
  let sets_beta :=
    make_indices_mo_restricted_local_occ_all_virt
      (collaborators := Reference.binary64) [1] nvirt_beta in
  (restricted_indices (E := Reference.binary64) fo cfg = Fail out_of_range
   ↔ Z.of_nat (length sets_alph) < cfg_frgm_response_idx cfg
     ∨ Z.of_nat (length sets_beta) < cfg_frgm_response_idx cfg)
  ∧ ∀ e, restricted_indices (E := Reference.binary64) fo cfg = Fail e →
         e = out_of_range.
Proof.
  exact (selected_fragment_out_of_range (E := Reference.binary64)
           [0] [3] [2] [1] [] (with_frgm_response_idx 2 Reference.quiet)
           ltac:(simpl; lia)).
Defined.

Lemma energy_differences_saved_witness :
  let cfg := with_prefix "run1_" (with_save 1 Reference.quiet) in
  let w := Reference.fresh [Reference.dipole] in
  let w' :=
    (prepare (E := Reference.binary64) [Reference.identity3]
       Reference.one_fragment [Reference.fock3] Reference.overlap3
       [0.25%float] cfg Reference.closed_shell_shapes w).2 in
  let pr := Reference.closed_shell_prepared in
  (0 < cfg_save cfg →
   w_disk w' !! ediff_file cfg "alph" = Some (blob_mat (ediff_alph pr))
   ∧ (two_channels Reference.closed_shell_shapes = true →
      w_disk w' !! ediff_file cfg "beta" = Some (blob_mat (ediff_beta pr)))
   ∧ ∀ name, name ≠ ediff_file cfg "alph" →
             (two_channels Reference.closed_shell_shapes = true →
              name ≠ ediff_file cfg "beta") →
             w_disk w' !! name = w_disk w !! name)
  ∧ (cfg_save cfg ≤ 0 → w_disk w' = w_disk w).
Proof.
  exact (energy_differences_saved (E := Reference.binary64)
           [Reference.identity3] Reference.one_fragment [Reference.fock3]
           Reference.overlap3 [0.25%float]
           (with_prefix "run1_" (with_save 1 Reference.quiet))
           Reference.closed_shell_shapes
           (Reference.fresh [Reference.dipole]) _
           Reference.closed_shell_prepared ltac:(vm_compute; reflexivity)).
Defined.

Lemma single_channel_reads_first_fock_witness :
  let run F :=
    solve_linear_response (E := Reference.binary64)
      (Reference.scaled 0.5%float) [Reference.identity3]
      Reference.one_fragment Reference.closed_shell F Reference.identity3
      [0.25%float] Reference.quiet (Reference.fresh [Reference.dipole]) in
  run [Reference.fock3] = run [Reference.fock3; Reference.identity3].
Proof.
  exact (single_channel_reads_first_fock (E := Reference.binary64)
           (Reference.scaled 0.5%float) [Reference.identity3]
           Reference.one_fragment Reference.closed_shell
           [Reference.fock3] [Reference.fock3; Reference.identity3]
           Reference.identity3 [0.25%float] Reference.quiet
           (Reference.fresh [Reference.dipole]) eq_refl eq_refl).
Defined.

Lemma final_print_is_the_result_witness :
  let w := Reference.fresh [Reference.dipole] in
  let w' :=
    (solve_linear_response (E := Reference.binary64)
       (Reference.scaled 0.5%float) [Reference.identity3]
       Reference.one_fragment Reference.closed_shell [Reference.fock3]
       Reference.identity3 [0.25%float]
       (with_print_level 1 Reference.quiet) w).2 in
  ∃ earlier,
    w_console w'
    = (earlier ++ [pr_final (w_results w')
                            (make_operator_label_vec
                               (collaborators := Reference.binary64)
                               (w_operators w))
                            (make_operator_component_vec
                               (collaborators := Reference.binary64)
                               (w_operators w))])%list.
Proof.
  exact (final_print_is_the_result (E := Reference.binary64)
           (Reference.scaled 0.5%float) [Reference.identity3]
           Reference.one_fragment Reference.closed_shell [Reference.fock3]
           Reference.identity3 [0.25%float]
           (with_print_level 1 Reference.quiet)
           (Reference.fresh [Reference.dipole]) _
           ltac:(simpl; lia) ltac:(vm_compute; reflexivity)).
Defined.

